(** * CloudMarket: circuit breaker, message broker, event store and
      notification service

    A shallow embedding of four parts of the CloudMarket services:

    - [CircuitBreaker], the class [CircuitBreaker] of the shared code:
      the call guard with its three states;
    - [Js], the JavaScript values and operators that the services use;
    - [MessageBroker], the class [MessageBroker] of the shared code:
      publishing, subscribing and the handling of the messages that
      arrive;
    - [EventStore], the class [EventStore] of the event-store service:
      the event log, the aggregate resolver, the registry with its three
      projections, the listeners, and the routes that read the log and
      that read, list and replay projections;
    - [NotificationService], the class [NotificationService] of the
      notification service: the notifications of its handlers, their
      processing, and the routes of the queue;

    followed by the facts proved about them, in [CircuitBreakerFacts],
    [MessageBrokerFacts], [EventStoreFacts] and
    [NotificationServiceFacts].
*)

From Stdlib Require Import ZArith List String Ascii Bool Lia DecimalString.
From Stdlib Require Import Sorted Permutation.
Import ListNotations.
Open Scope Z_scope.

(* ================================================================== *)
(** * The circuit breaker *)
(* ================================================================== *)

Module CircuitBreaker.

(** [this.state]: the strings 'CLOSED', 'OPEN' and 'HALF_OPEN'. *)
Inductive State : Type := CLOSED | OPEN | HALF_OPEN.

Definition State_eqb (a b : State) : bool :=
  match a, b with
  | CLOSED, CLOSED | OPEN, OPEN | HALF_OPEN, HALF_OPEN => true
  | _, _ => false
  end.

(** The numeric fields of the [options] argument of the constructor; an
    absent field is [None].  Counters, thresholds and times (milliseconds
    since the epoch, as [Date.now()] gives them) are integers. *)
Record Options : Type := mkOptions {
  opt_failureThreshold : option Z;
  opt_successThreshold : option Z;
  opt_timeout : option Z;
  opt_monitoringPeriod : option Z
}.

Definition no_options : Options := mkOptions None None None None.

(** [x || d] for an optional number [x]: [undefined] and [0] are falsy. *)
Definition or_default (x : option Z) (d : Z) : Z :=
  match x with
  | Some v => if v =? 0 then d else v
  | None => d
  end.

(** The fields of a breaker.  [this.request] and [this.onStateChange] are
    not fields of the record: the settlement of the request is an input of
    [call], and every call of [onStateChange] is recorded as an [Effect];
    the callback is taken to return, as the default one and the one of
    the product service do. *)
Record t : Type := mk {
  state : State;
  failureCount : Z;
  successCount : Z;
  nextAttempt : Z;
  failureThreshold : Z;
  successThreshold : Z;
  timeout : Z;
  monitoringPeriod : Z
}.

(** [constructor(request, options = {})], run when the clock reads [now]. *)
Definition new (options : Options) (now : Z) : t :=
  {| state := CLOSED;
     failureCount := 0;
     successCount := 0;
     nextAttempt := now;
     failureThreshold := or_default (opt_failureThreshold options) 5;
     successThreshold := or_default (opt_successThreshold options) 2;
     timeout := or_default (opt_timeout options) 60000;
     monitoringPeriod := or_default (opt_monitoringPeriod options) 10000 |}.

Definition set_state (s : State) (cb : t) : t :=
  mk s (failureCount cb) (successCount cb) (nextAttempt cb)
     (failureThreshold cb) (successThreshold cb) (timeout cb)
     (monitoringPeriod cb).

Definition set_failureCount (n : Z) (cb : t) : t :=
  mk (state cb) n (successCount cb) (nextAttempt cb)
     (failureThreshold cb) (successThreshold cb) (timeout cb)
     (monitoringPeriod cb).

Definition set_successCount (n : Z) (cb : t) : t :=
  mk (state cb) (failureCount cb) n (nextAttempt cb)
     (failureThreshold cb) (successThreshold cb) (timeout cb)
     (monitoringPeriod cb).

Definition set_nextAttempt (n : Z) (cb : t) : t :=
  mk (state cb) (failureCount cb) (successCount cb) n
     (failureThreshold cb) (successThreshold cb) (timeout cb)
     (monitoringPeriod cb).

Section Guard.

(** What the wrapped request resolves with, and what it rejects with. *)
Variables R E : Type.

(** How the promise returned by [this.request(...args)] settles. *)
Inductive Outcome : Type :=
| Resolved (result : R)
| Rejected (error : E).

(** What [call] throws: its own error, built for a breaker whose next
    attempt is at [nextAttempt], or the error of the request. *)
Inductive Thrown : Type :=
| CircuitOpen (nextAttempt : Z)
| RequestError (error : E).

(** The message of the breaker's own error,
    [`Circuit breaker is OPEN. Next attempt in ${this.nextAttempt -
    Date.now()}ms`]: the clock is read again for it, after the test that
    found the breaker OPEN, so [later] is not the reading of the test. *)
Definition CircuitOpen_message (nextAttempt later : Z) : string :=
  ("Circuit breaker is OPEN. Next attempt in "
   ++ NilZero.string_of_int (Z.to_int (nextAttempt - later)) ++ "ms")%string.

Inductive Result : Type :=
| Returned (result : R)
| Threw (x : Thrown).

(** What a call does to the outside: it invokes the wrapped request, and
    it calls [onStateChange] with the new state. *)
Inductive Effect : Type :=
| Requested
| StateChange (s : State).

(** [onSuccess(result)] *)
Definition onSuccess (cb : t) (result : R) : t * list Effect * Result :=
  let cb := set_failureCount 0 cb in
  if State_eqb (state cb) HALF_OPEN then
    let cb := set_successCount (successCount cb + 1) cb in
    if successThreshold cb <=? successCount cb then
      let cb := set_state CLOSED cb in
      let cb := set_successCount 0 cb in
      (cb, [StateChange CLOSED], Returned result)
    else (cb, [], Returned result)
  else (cb, [], Returned result).

(** [onFailure(error)], run when the clock reads [now]. *)
Definition onFailure (cb : t) (error : E) (now : Z)
  : t * list Effect * Result :=
  let cb := set_failureCount (failureCount cb + 1) cb in
  if State_eqb (state cb) HALF_OPEN
     || (failureThreshold cb <=? failureCount cb) then
    let cb := set_state OPEN cb in
    let cb := set_nextAttempt (now + timeout cb) cb in
    (cb, [StateChange OPEN], Threw (RequestError error))
  else (cb, [], Threw (RequestError error)).

(** [call(...args)].  [now] is the clock that the test on entry reads,
    [outcome] is how the request settles if it is invoked, and [settled]
    is the clock when it has settled ([onFailure] reads the clock
    again).  The error of an OPEN breaker carries [nextAttempt]; the
    number in its message comes from one more reading of the clock
    ([CircuitOpen_message]). *)
Definition call (cb : t) (now : Z) (outcome : Outcome) (settled : Z)
  : t * list Effect * Result :=
  let attempt (cb : t) (fx : list Effect) :=
    match outcome with
    | Resolved result =>
        let '(cb, fx', res) := onSuccess cb result in
        (cb, fx ++ Requested :: fx', res)
    | Rejected error =>
        let '(cb, fx', res) := onFailure cb error settled in
        (cb, fx ++ Requested :: fx', res)
    end in
  if State_eqb (state cb) OPEN then
    if now <? nextAttempt cb then
      (cb, [], Threw (CircuitOpen (nextAttempt cb)))
    else
      let cb := set_state HALF_OPEN cb in
      let cb := set_successCount 0 cb in
      attempt cb [StateChange HALF_OPEN]
  else attempt cb [].

(** [getStats()] *)
Definition getStats (cb : t) : State * Z * Z * Z :=
  (state cb, failureCount cb, successCount cb, nextAttempt cb).

(** [reset()], run when the clock reads [now]. *)
Definition reset (cb : t) (now : Z) : t * list Effect :=
  let cb := set_state CLOSED cb in
  let cb := set_failureCount 0 cb in
  let cb := set_successCount 0 cb in
  let cb := set_nextAttempt now cb in
  (cb, [StateChange CLOSED]).

Definition after (r : t * list Effect * Result) : t := fst (fst r).
Definition effects (r : t * list Effect * Result) : list Effect :=
  snd (fst r).
Definition result (r : t * list Effect * Result) : Result := snd r.

(** A run of calls whose request rejects every time: each entry gives the
    clock on entry, the error, and the clock when the request settled. *)
Fixpoint failures (cb : t) (calls : list (Z * E * Z)) : t :=
  match calls with
  | [] => cb
  | (now, error, settled) :: rest =>
      failures (after (call cb now (Rejected error) settled)) rest
  end.

(** A run of calls whose request resolves every time. *)
Fixpoint successes (cb : t) (calls : list (Z * R * Z)) : t :=
  match calls with
  | [] => cb
  | (now, res, settled) :: rest =>
      successes (after (call cb now (Resolved res) settled)) rest
  end.

(** The request is invoked by a call exactly when [Requested] is among
    its effects. *)
Definition invoked (r : t * list Effect * Result) : Prop :=
  In Requested (effects r).

End Guard.

Arguments Resolved {R E} _.
Arguments Rejected {R E} _.
Arguments CircuitOpen {E} _.
Arguments RequestError {E} _.
Arguments Returned {R E} _.
Arguments Threw {R E} _.
Arguments onSuccess {R E} _ _.
Arguments onFailure {R E} _ _ _.
Arguments call {R E} _ _ _ _.
Arguments after {R E} _.
Arguments effects {R E} _.
Arguments result {R E} _.
Arguments failures {R E} _ _.
Arguments successes {R E} _ _.
Arguments invoked {R E} _.

(** ** Calls that overlap

    [call] is [async]: it runs up to [await this.request(...args)] in
    one go, and goes on when the request has settled.  In between other
    calls may enter and other requests may settle (the product service
    awaits two calls with [Promise.all]), and [reset] may run. *)
Section Overlap.

Variables R E : Type.

(** [call] up to its [await]: what it throws, if it throws. *)
Definition enter (cb : t) (now : Z) : t * list Effect * option (Thrown E) :=
  if State_eqb (state cb) OPEN then
    if now <? nextAttempt cb then
      (cb, [], Some (CircuitOpen (nextAttempt cb)))
    else
      let cb := set_state HALF_OPEN cb in
      let cb := set_successCount 0 cb in
      (cb, [StateChange HALF_OPEN; Requested], None)
  else (cb, [Requested], None).

(** [call] from the settlement of its request on. *)
Definition settle (cb : t) (outcome : Outcome R E) (settled : Z)
  : t * list Effect * Result R E :=
  match outcome with
  | Resolved result => onSuccess cb result
  | Rejected error => onFailure cb error settled
  end.

(** What happens to a breaker, one thing at a time: a call enters, the
    request of a call that has entered settles, [reset] is called; each
    with the reading of the clock. *)
Inductive Event : Type :=
| Enters (now : Z)
| Settles (outcome : Outcome R E) (settled : Z)
| Resets (now : Z).

Definition happen (ev : Event) (cb : t) : t * list Effect :=
  match ev with
  | Enters now => fst (enter cb now)
  | Settles outcome settled => fst (settle cb outcome settled)
  | Resets now => reset cb now
  end.

(** The breaker after the events, and everything they did to the
    outside, in order. *)
Definition history (evs : list Event) (cb : t) : t * list Effect :=
  fold_left (fun x ev => let '(cb', fx) := happen ev (fst x) in
                         (cb', snd x ++ fx))
            evs (cb, []).

(** Calls made one after the other, each with the clock on entry, the
    way its request settles if it is invoked, and the clock then. *)
Definition calls (cb : t) (l : list (Z * Outcome R E * Z)) : t :=
  fold_left (fun cb c => let '(now, outcome, settled) := c in
                         after (call cb now outcome settled))
            l cb.

(** The number of calls at the end of a run, counted from the last one
    backwards, whose request rejects. *)
Fixpoint rejections_first (l : list (Z * Outcome R E * Z)) : Z :=
  match l with
  | (_, Rejected _, _) :: rest => 1 + rejections_first rest
  | _ => 0
  end.

Definition rejected_in_a_row (l : list (Z * Outcome R E * Z)) : Z :=
  rejections_first (rev l).

(** The state a listener knows who started from [s] and was told [fx]. *)
Fixpoint announced (s : State) (fx : list Effect) : State :=
  match fx with
  | [] => s
  | StateChange s' :: rest => announced s' rest
  | Requested :: rest => announced s rest
  end.

End Overlap.

Arguments enter {E} _ _.
Arguments settle {R E} _ _ _.
Arguments Enters {R E} _.
Arguments Settles {R E} _ _.
Arguments Resets {R E} _.
Arguments happen {R E} _ _.
Arguments history {R E} _ _.
Arguments calls {R E} _ _.
Arguments rejections_first {R E} _.
Arguments rejected_in_a_row {R E} _.

End CircuitBreaker.

(* ================================================================== *)
(** * JavaScript values *)
(* ================================================================== *)

(** The values that flow through the event store: the JSON values that
    [JSON.parse] produces, and [undefined] and [NaN], which operators
    produce on the way.  Numbers are the integers that a double holds
    exactly and prints in decimal notation (event payloads carry
    identifiers, counters and amounts; fractions are outside the model).
    The properties of an object are kept in the order [JSON.stringify]
    writes them (keys that look like array indices aside). *)
Module Js.

Open Scope string_scope.

#[local] Set Warnings "-register-all".

Inductive value : Type :=
| VUndefined
| VNull
| VBool (b : bool)
| VNum (n : Z)
| VNaN
| VStr (s : string)
| VArr (items : list value)
| VObj (props : list (string * value)).

(** What a JavaScript [throw] carries. *)
Inductive error : Type :=
| TypeError (message : string)
| Error (message : string).

(** [if (v)], [v || w], [v ? a : b] *)
Definition truthy (v : value) : bool :=
  match v with
  | VUndefined | VNull | VNaN => false
  | VBool b => b
  | VNum n => negb (n =? 0)%Z
  | VStr s => negb (s =? "")
  | VArr _ | VObj _ => true
  end.

(** [v || w] *)
Definition or (v w : value) : value := if truthy v then v else w.

Definition nullish (v : value) : bool :=
  match v with
  | VUndefined | VNull => true
  | _ => false
  end.

Fixpoint assoc {A : Type} (k : string) (ps : list (string * A)) : option A :=
  match ps with
  | [] => None
  | (k', v) :: rest => if k' =? k then Some v else assoc k rest
  end.

(** [o[k]] for [o] neither [null] nor [undefined].  The keys read in the
    event store are plain names (none is [length], an index or a member
    of a prototype), so only an object can answer one. *)
Definition get (o : value) (k : string) : value :=
  match o with
  | VObj props =>
      match assoc k props with
      | Some v => v
      | None => VUndefined
      end
  | _ => VUndefined
  end.

(** [o.k]: a [TypeError] on [null] and [undefined]. *)
Definition member (o : value) (k : string) : error + value :=
  if nullish o
  then inl (TypeError ("Cannot read properties of null or undefined (reading '"
                         ++ k ++ "')"))
  else inr (get o k).

(** [o?.k] *)
Definition opt_member (o : value) (k : string) : value :=
  if nullish o then VUndefined else get o k.

Definition string_of_Z (n : Z) : string :=
  NilZero.string_of_int (Z.to_int n).

Definition string_of_nat (n : nat) : string :=
  NilZero.string_of_uint (Nat.to_uint n).

(** [String(v)], as a template literal converts its holes. *)
Fixpoint to_string (v : value) : string :=
  match v with
  | VUndefined => "undefined"
  | VNull => "null"
  | VBool true => "true"
  | VBool false => "false"
  | VNum n => string_of_Z n
  | VNaN => "NaN"
  | VStr s => s
  | VArr items =>
      (fix join (l : list value) : string :=
         match l with
         | [] => ""
         | x :: rest =>
             (if nullish x then "" else to_string x)
             ++ match rest with
                | [] => ""
                | _ :: _ => "," ++ join rest
                end
         end) items
  | VObj _ => "[object Object]"
  end.

(** [a + b] *)
Definition add (a b : value) : value :=
  let prim (v : value) : value :=
    match v with
    | VArr _ | VObj _ => VStr (to_string v)
    | _ => v
    end in
  let number (v : value) : option Z :=
    match v with
    | VNull => Some 0%Z
    | VBool b => Some (if b then 1 else 0)%Z
    | VNum n => Some n
    | _ => None
    end in
  match prim a, prim b with
  | VStr s, b' => VStr (s ++ to_string b')
  | a', VStr s => VStr (to_string a' ++ s)
  | a', b' =>
      match number a', number b' with
      | Some x, Some y => VNum (x + y)
      | _, _ => VNaN
      end
  end.

(** [{ ..., k: v }]: defining a property that exists replaces its value
    where it stands, a new one goes last. *)
Fixpoint set_prop (k : string) (v : value) (props : list (string * value))
  : list (string * value) :=
  match props with
  | [] => [(k, v)]
  | (k', v') :: rest =>
      if k' =? k then (k, v) :: rest else (k', v') :: set_prop k v rest
  end.

Fixpoint indexed {A : Type} (i : nat) (l : list A) : list (string * A) :=
  match l with
  | [] => []
  | x :: rest => (string_of_nat i, x) :: indexed (S i) rest
  end.

Definition chars (s : string) : list value :=
  map (fun c => VStr (String c EmptyString)) (list_ascii_of_string s).

(** The own enumerable properties that [{ ...v }] copies. *)
Definition own_props (v : value) : list (string * value) :=
  match v with
  | VObj props => props
  | VArr items => indexed 0 items
  | VStr s => indexed 0 (chars s)
  | _ => []
  end.

(** The parts of an object literal, in the order they are written. *)
Inductive part : Type :=
| Key (k : string) (v : value)
| Spread (v : value).

(** The object an object literal evaluates to. *)
Definition object (parts : list part) : value :=
  VObj (fold_left
          (fun props p =>
             match p with
             | Key k v => set_prop k v props
             | Spread v =>
                 fold_left (fun props kv => set_prop (fst kv) (snd kv) props)
                           (own_props v) props
             end)
          parts []).

(** [[...v]]: the elements of an array, the characters of a string, a
    [TypeError] for anything else. *)
Definition iterate (v : value) : error + list value :=
  match v with
  | VArr items => inr items
  | VStr s => inr (chars s)
  | _ => inl (TypeError "value is not iterable")
  end.

(** [JSON.parse(JSON.stringify(v))] for [v] other than [undefined]: a
    property whose value is [undefined] is left out, [undefined] in an
    array and [NaN] become [null]. *)
Fixpoint jsonify (v : value) : value :=
  match v with
  | VUndefined | VNaN => VNull
  | VArr items => VArr (map jsonify items)
  | VObj props =>
      VObj ((fix each (ps : list (string * value)) : list (string * value) :=
               match ps with
               | [] => []
               | (k, x) :: rest =>
                   match x with
                   | VUndefined => each rest
                   | _ => (k, jsonify x) :: each rest
                   end
               end) props)
  | _ => v
  end.

(** [JSON.stringify(v)] as a query parameter for a JSONB column, given
    as the value the column then holds: [JSON.stringify(undefined)] is
    [undefined], which the driver sends as SQL NULL. *)
Definition stringify (v : value) : option value :=
  match v with
  | VUndefined => None
  | _ => Some (jsonify v)
  end.

(** ** Dates *)

Definition pad (width : nat) (n : Z) : string :=
  let digits := NilZero.string_of_uint (N.to_uint (Z.to_N n)) in
  (fix zeros (k : nat) : string :=
     match k with
     | O => ""
     | S k' => "0" ++ zeros k'
     end) (width - String.length digits)%nat ++ digits.

(** The proleptic Gregorian date (year, month, day) of a day number
    counted from 1970-01-01. *)
Definition civil_of_days (days : Z) : Z * Z * Z :=
  let z := (days + 719468)%Z in
  let era := (z / 146097)%Z in
  let doe := (z - era * 146097)%Z in
  let yoe := ((doe - doe / 1460 + doe / 36524 - doe / 146096) / 365)%Z in
  let doy := (doe - (365 * yoe + yoe / 4 - yoe / 100))%Z in
  let mp := ((5 * doy + 2) / 153)%Z in
  let d := (doy - (153 * mp + 2) / 5 + 1)%Z in
  let m := (if mp <? 10 then mp + 3 else mp - 9)%Z in
  let y := (yoe + era * 400 + (if m <=? 2 then 1 else 0))%Z in
  (y, m, d).

(** [new Date(ms).toISOString()] for a valid time value [ms]. *)
Definition toISOString (ms : Z) : string :=
  let '(y, m, d) := civil_of_days (ms / 86400000) in
  let r := (ms mod 86400000)%Z in
  (if ((0 <=? y) && (y <=? 9999))%Z then pad 4 y
   else (if (y <? 0)%Z then "-" else "+") ++ pad 6 (Z.abs y))
  ++ "-" ++ pad 2 m ++ "-" ++ pad 2 d
  ++ "T" ++ pad 2 (r / 3600000) ++ ":" ++ pad 2 (r / 60000 mod 60)
  ++ ":" ++ pad 2 (r / 1000 mod 60) ++ "." ++ pad 3 (r mod 1000) ++ "Z".

(** ** Where the model is the language *)

(** The names that every object inherits.  An object of the model holds
    its own properties only: [o[k]] for such a [k] reads the inherited
    member where the object has no property of its own, which the model
    does not give. *)
Definition inherited : list string :=
  [ "constructor"; "__proto__"; "hasOwnProperty"; "isPrototypeOf";
    "propertyIsEnumerable"; "toLocaleString"; "toString"; "valueOf";
    "__defineGetter__"; "__defineSetter__"; "__lookupGetter__";
    "__lookupSetter__" ].

(** [Number.isSafeInteger(n)]: the integers that a double holds exactly,
    which [String] prints digit by digit. *)
Definition safe_integer (n : Z) : bool :=
  (Z.abs n <=? 9007199254740991)%Z.

(** The numbers of a value are such integers. *)
Fixpoint safe (v : value) : bool :=
  match v with
  | VNum n => safe_integer n
  | VArr items =>
      (fix all (l : list value) : bool :=
         match l with
         | [] => true
         | x :: rest => safe x && all rest
         end) items
  | VObj props =>
      (fix all (ps : list (string * value)) : bool :=
         match ps with
         | [] => true
         | (_, x) :: rest => safe x && all rest
         end) props
  | _ => true
  end.

End Js.

(* ================================================================== *)
(** * The message broker *)
(* ================================================================== *)

(** The class [MessageBroker] of the shared code.  A broker holds two
    Redis clients; what it asks of them is an effect, and whether Redis
    does what is asked is given by the environment. *)
Module MessageBroker.

Import Js.
Open Scope string_scope.

(** A text that travels through Redis: a JSON text, given as the value
    that [JSON.parse] reads from it, or a text that [JSON.parse]
    rejects. *)
Inductive text : Type :=
| Json (document : value)
| Malformed (characters : string).

(** [JSON.stringify(v)] for [v] other than [undefined] *)
Definition JSON_stringify (v : value) : text := Json (jsonify v).

(** [JSON.parse(t)] *)
Definition JSON_parse (t : text) : error + value :=
  match t with
  | Json document => inr document
  | Malformed _ => inl (Error "Unexpected token in JSON")
  end.

Inductive Client : Type := Publisher | Subscriber.

(** What a broker asks of its clients. *)
Inductive Command : Type :=
| Connect (client : Client)
| Publish (channel : string) (message : text)
| Subscribe (channel : string)
| Unsubscribe (channel : string)
| Quit (client : Client)
| Ping.

(** What a broker finds around it: the clock, what
    [Math.random().toString(36).substr(2, 9)] gives at the n-th draw,
    and the commands that fail. *)
Record Env : Type := mkEnv {
  now : Z;
  random : nat -> string;
  refuses : Command -> bool
}.

(** ** A [Map] with strings as keys: its entries in the order of
    insertion *)
Section Map.

Context {V : Type}.

Definition Map_has (k : string) (m : list (string * V)) : bool :=
  match assoc k m with
  | Some _ => true
  | None => false
  end.

Fixpoint Map_set (k : string) (v : V) (m : list (string * V))
  : list (string * V) :=
  match m with
  | [] => [(k, v)]
  | (k', v') :: rest =>
      if k' =? k then (k, v) :: rest else (k', v') :: Map_set k v rest
  end.

Definition Map_delete (k : string) (m : list (string * V))
  : list (string * V) :=
  filter (fun entry => negb (fst entry =? k)) m.

End Map.

Section Broker.

(** The handlers, as the references that [indexOf] compares, and [===]
    on them. *)
Variable H : Type.
Variable same : H -> H -> bool.

(** The fields of a broker ([publisher] and [subscriber]: whether the
    client has been created), the commands its clients have carried out,
    the number of identifiers drawn and the lines the broker has written
    to the console. *)
Record t : Type := mk {
  publisher : bool;
  subscriber : bool;
  eventHandlers : list (string * list H);
  isConnected : bool;
  carried_out : list Command;
  draws : nat;
  console : list string
}.

(** [constructor()] *)
Definition new : t := mk false false [] false [] 0 [].

Definition set_eventHandlers (m : list (string * list H)) (b : t) : t :=
  mk (publisher b) (subscriber b) m (isConnected b) (carried_out b) (draws b)
     (console b).

Definition set_isConnected (c : bool) (b : t) : t :=
  mk (publisher b) (subscriber b) (eventHandlers b) c (carried_out b)
     (draws b) (console b).

Definition log (line : string) (b : t) : t :=
  mk (publisher b) (subscriber b) (eventHandlers b) (isConnected b)
     (carried_out b) (draws b) (console b ++ [line])%list.

(** A client carries out a command. *)
Definition did (c : Command) (b : t) : t :=
  mk (publisher b) (subscriber b) (eventHandlers b) (isConnected b)
     (carried_out b ++ [c])%list (draws b) (console b).

(** [connect()] *)
Definition connect (env : Env) (b : t) : (error + unit) * t :=
  let b := mk true true (eventHandlers b) (isConnected b) (carried_out b)
              (draws b) (console b) in
  if refuses env (Connect Publisher) then
    (inl (Error "connection failed"),
     log "[MessageBroker] Connection failed:" b)
  else
    let b := did (Connect Publisher) b in
    if refuses env (Connect Subscriber) then
      (inl (Error "connection failed"),
       log "[MessageBroker] Connection failed:" b)
    else
      let b := did (Connect Subscriber) b in
      (inr tt, log "[MessageBroker] Connected to Redis" (set_isConnected true b)).

(** [generateId()] *)
Definition generateId (env : Env) (b : t) : string * t :=
  (random env (draws b),
   mk (publisher b) (subscriber b) (eventHandlers b) (isConnected b)
      (carried_out b) (S (draws b)) (console b)).

(** The [message] that [publish] builds. *)
Definition envelope (id : string) (now : Z) (data : value) : value :=
  object [ Key "id" (VStr id);
           Key "timestamp" (VStr (toISOString now));
           Key "data" data ].

(** [publish(channel, data)] *)
Definition publish (channel : string) (data : value) (env : Env) (b : t)
  : (error + unit) * t :=
  if negb (isConnected b) then (inl (Error "MessageBroker not connected"), b)
  else
    let '(id, b) := generateId env b in
    let message := envelope id (now env) data in
    if refuses env (Publish channel (JSON_stringify message)) then
      (inl (Error "publish failed"),
       log ("[MessageBroker] Publish failed for " ++ channel ++ ":") b)
    else
      (inr tt,
       log ("[MessageBroker] Published to " ++ channel ++ ": " ++ id)
           (did (Publish channel (JSON_stringify message)) b)).

(** [this.eventHandlers.get(channel) || []] *)
Definition handlers_of (channel : string) (b : t) : list H :=
  match assoc channel (eventHandlers b) with
  | Some handlers => handlers
  | None => []
  end.

(** [this.eventHandlers.get(channel).push(handler)]: the array that the
    map holds is changed where it is. *)
Definition push (channel : string) (handler : H) (b : t) : t :=
  set_eventHandlers
    (Map_set channel (handlers_of channel b ++ [handler])%list (eventHandlers b)) b.

(** [subscribe(channel, handler)] *)
Definition subscribe (channel : string) (handler : H) (env : Env) (b : t)
  : (error + unit) * t :=
  if negb (isConnected b) then (inl (Error "MessageBroker not connected"), b)
  else if Map_has channel (eventHandlers b) then (inr tt, push channel handler b)
  else
    let b := set_eventHandlers (Map_set channel [] (eventHandlers b)) b in
    if refuses env (Subscribe channel) then (inl (Error "subscribe failed"), b)
    else
      let b := did (Subscribe channel) b in
      let b := log ("[MessageBroker] Subscribed to " ++ channel) b in
      (inr tt, push channel handler b).

(** [handlers.splice(handlers.indexOf(handler), 1)] when the handler is
    in the array, and nothing when it is not. *)
Fixpoint remove_first (handler : H) (handlers : list H) : list H :=
  match handlers with
  | [] => []
  | x :: rest =>
      if same x handler then rest else x :: remove_first handler rest
  end.

(** [unsubscribe(channel, handler)] *)
Definition unsubscribe (channel : string) (handler : H) (env : Env) (b : t)
  : (error + unit) * t :=
  match assoc channel (eventHandlers b) with
  | None => (inr tt, b)
  | Some handlers =>
      let handlers := remove_first handler handlers in
      let b := set_eventHandlers (Map_set channel handlers (eventHandlers b))
                                 b in
      match handlers with
      | [] =>
          if refuses env (Unsubscribe channel) then
            (inl (Error "unsubscribe failed"), b)
          else
            let b := did (Unsubscribe channel) b in
            let b := set_eventHandlers (Map_delete channel (eventHandlers b))
                                       b in
            (inr tt, log ("[MessageBroker] Unsubscribed from " ++ channel) b)
      | _ :: _ => (inr tt, b)
      end
  end.

(** [disconnect()] *)
Definition disconnect (env : Env) (b : t) : (error + unit) * t :=
  if publisher b && refuses env (Quit Publisher) then
    (inl (Error "quit failed"), b)
  else
    let b := if publisher b then did (Quit Publisher) b else b in
    if subscriber b && refuses env (Quit Subscriber) then
      (inl (Error "quit failed"), b)
    else
      let b := if subscriber b then did (Quit Subscriber) b else b in
      (inr tt, log "[MessageBroker] Disconnected" (set_isConnected false b)).

(** [isHealthy()]: [this.publisher.ping()] throws a [TypeError] when no
    client has been created. *)
Definition isHealthy (env : Env) (b : t) : bool * t :=
  if negb (isConnected b) then (false, b)
  else if negb (publisher b) then (false, b)
  else if refuses env Ping then (false, b)
  else (true, did Ping b).

(** ** Messages that arrive *)

(** What the handlers act on, and what [handler(data, message)] does to
    it: it returns or it throws.  (A handler is taken not to subscribe
    or unsubscribe while it runs.) *)
Variable W : Type.
Variable invoke : H -> value -> value -> W -> (error + unit) * W.

(** [handleMessage(channel, message)] *)
Definition handleMessage (channel : string) (message : text) (b : t) (w : W)
  : t * W :=
  match JSON_parse message with
  | inl _ =>
      (log ("[MessageBroker] Message parsing error for " ++ channel ++ ":") b,
       w)
  | inr parsedMessage =>
      fold_left
        (fun (x : t * W) handler =>
           let '(b, w) := x in
           match member parsedMessage "data" with
           | inl _ =>
               (log ("[MessageBroker] Handler error for " ++ channel ++ ":") b,
                w)
           | inr data =>
               match invoke handler data parsedMessage w with
               | (inr _, w') => (b, w')
               | (inl _, w') =>
                   (log ("[MessageBroker] Handler error for " ++ channel
                         ++ ":") b,
                    w')
               end
           end)
        (handlers_of channel b) (b, w)
  end.

End Broker.

Arguments mk {H} _ _ _ _ _ _ _.
Arguments new {H}.
Arguments publisher {H} _.
Arguments subscriber {H} _.
Arguments eventHandlers {H} _.
Arguments isConnected {H} _.
Arguments carried_out {H} _.
Arguments draws {H} _.
Arguments console {H} _.
Arguments set_eventHandlers {H} _ _.
Arguments set_isConnected {H} _ _.
Arguments log {H} _ _.
Arguments did {H} _ _.
Arguments connect {H} _ _.
Arguments generateId {H} _ _.
Arguments publish {H} _ _ _ _.
Arguments handlers_of {H} _ _.
Arguments push {H} _ _ _.
Arguments subscribe {H} _ _ _ _.
Arguments remove_first {H} _ _ _.
Arguments unsubscribe {H} _ _ _ _ _.
Arguments disconnect {H} _ _.
Arguments isHealthy {H} _ _.
Arguments handleMessage {H W} _ _ _ _ _.

End MessageBroker.

(* ================================================================== *)
(** * The event store *)
(* ================================================================== *)

Module EventStore.

Import Js.
Open Scope string_scope.

(** ** The database, the host and the store *)

(** [uuidv4()] gives an identifier that was never given before. *)
Definition uuid : Type := nat.

(** A row of the table [events]. *)
Record EventRow : Type := mkEventRow {
  e_id : uuid;
  e_aggregate_id : string;
  e_aggregate_type : string;
  e_event_type : string;
  e_event_version : Z;
  e_event_data : value;
  e_metadata : value;
  e_timestamp : Z;
  e_sequence_number : Z
}.

(** A row of the table [projections]. *)
Record ProjectionRow : Type := mkProjectionRow {
  p_id : uuid;
  p_projection_name : string;
  p_aggregate_id : string;
  p_data : value;
  p_version : Z;
  p_last_event_id : uuid;
  p_updated_at : Z
}.

(** The statements the service sends with [this.db.query], with their
    parameters (the identifier of a new row aside). *)
Inductive Statement : Type :=
| SelectMaxVersion (aggregateId aggregateType : string)
| InsertEvent (aggregateId aggregateType eventType : string) (version : Z)
              (eventData : option value) (metadata : value)
| SelectProjection (projectionName aggregateId : string)
| UpsertProjection (projectionName aggregateId : string) (data : value)
                   (eventId : uuid)
| SelectProjections (projectionName : string)
| SelectEvents (fromSequence : Z) (eventTypes : list string).

(** What the service finds around it and does not change: the clock, the
    date functions of the host that depend on its implementation and its
    time zone, the statements the database refuses (the connection is
    lost, a value does not fit its column, the table lacks what the
    statement needs, ...), and whether the broker can publish. *)
Record Host : Type := mkHost {
  now : Z;
  Date_parse : string -> option Z;
  toDateString : Z -> string;
  refuses : Statement -> bool;
  broker_up : bool
}.

(** What the service changes: the two tables, the sequence behind
    [sequence_number SERIAL], the identifiers handed out so far, the
    messages published and the lines written to the console.  A table
    is kept as the list of its rows; the order of the list is not the
    order in which the database gives the rows of a query without ORDER
    BY, which the statement leaves to the database (see
    [select_projections]). *)
Record Store : Type := mkStore {
  events : list EventRow;
  projections : list ProjectionRow;
  last_sequence : Z;
  uuids : nat;
  published : list (string * value);
  console : list string
}.

(** ** The tables *)

(** [createTables()]: the keys and the indexes that its statement
    declares, each with its table, its columns and whether it is unique
    (a primary key is a unique index). *)
Record Index : Type := mkIndex {
  i_table : string;
  i_columns : list string;
  i_unique : bool
}.

Definition createTables : list Index :=
  [ mkIndex "events" ["id"] true;
    mkIndex "snapshots" ["aggregate_id"] true;
    mkIndex "projections" ["id"] true;
    mkIndex "events" ["aggregate_id"; "aggregate_type"] false;
    mkIndex "events" ["event_type"] false;
    mkIndex "events" ["timestamp"] false;
    mkIndex "events" ["sequence_number"] false;
    mkIndex "projections" ["projection_name"; "aggregate_id"] false ].

Definition same_columns (a b : list string) : bool :=
  forallb (fun x => existsb (String.eqb x) b) a
  && forallb (fun x => existsb (String.eqb x) a) b.

(** [ON CONFLICT (columns)] on a table: PostgreSQL takes a unique index
    on exactly these columns as the arbiter, and refuses the statement
    ("there is no unique or exclusion constraint matching the ON
    CONFLICT specification") when the table has none. *)
Definition arbiter (indexes : list Index) (table : string)
  (columns : list string) : bool :=
  existsb (fun i => i_unique i && (i_table i =? table)
                    && same_columns (i_columns i) columns)
          indexes.

(** A host whose database holds the tables as [createTables] makes
    them.  The upsert of [saveProjection] names (projection_name,
    aggregate_id) as its conflict target. *)
Definition created (h : Host) : Prop :=
  arbiter createTables "projections" ["projection_name"; "aggregate_id"]
  = false ->
  forall projectionName aggregateId data eventId,
    refuses h (UpsertProjection projectionName aggregateId data eventId)
    = true.

(** ** Computations: a store is threaded, an error may be thrown *)

Definition M (A : Type) : Type := Host -> Store -> (error + A) * Store.

Definition ret {A : Type} (a : A) : M A := fun _ s => (inr a, s).

Definition bind {A B : Type} (m : M A) (k : A -> M B) : M B :=
  fun h s =>
    match m h s with
    | (inr a, s') => k a h s'
    | (inl e, s') => (inl e, s')
    end.

Definition throw {A : Type} (e : error) : M A := fun _ s => (inl e, s).

(** [try { m } catch (error) { handler(error) }] *)
Definition try_catch {A : Type} (m : M A) (handler : error -> M A) : M A :=
  fun h s =>
    match m h s with
    | (inr a, s') => (inr a, s')
    | (inl e, s') => handler e h s'
    end.

Definition lift {A : Type} (r : error + A) : M A := fun _ s => (r, s).

Definition host : M Host := fun h s => (inr h, s).

Definition store : M Store := fun _ s => (inr s, s).

Notation "x <- m ;; k" := (bind m (fun x => k))
  (at level 61, m at next level, right associativity).
Notation "m ;; k" := (bind m (fun _ => k))
  (at level 61, right associativity).

(** [for (const x of l) { await body(x) }] *)
Fixpoint for_each {A : Type} (l : list A) (body : A -> M unit) : M unit :=
  match l with
  | [] => ret tt
  | x :: rest => body x ;; for_each rest body
  end.

Definition console_log (line : string) : M unit :=
  fun _ s =>
    (inr tt, mkStore (events s) (projections s) (last_sequence s) (uuids s)
                     (published s) (console s ++ [line])).

Definition console_error (line : string) : M unit := console_log line.

Definition uuidv4 : M uuid :=
  fun _ s =>
    (inr (uuids s),
     mkStore (events s) (projections s) (last_sequence s) (S (uuids s))
             (published s) (console s)).

(** [this.messageBroker.publish(channel, data)]: it throws when the
    broker is not connected or the publication fails.  Of the message
    the data is kept; its envelope (a random id, the time) is not. *)
Definition publish (channel : string) (data : value) : M unit :=
  fun h s =>
    if broker_up h then
      (inr tt, mkStore (events s) (projections s) (last_sequence s) (uuids s)
                       (published s ++ [(channel, data)]) (console s))
    else (inl (Error "MessageBroker not connected"), s).

(** ** The statements *)

(** Every statement starts here: the database may refuse it. *)
Definition sent (q : Statement) : M unit :=
  fun h s => if refuses h q then (inl (Error "query failed"), s)
             else (inr tt, s).

Definition of_aggregate (aggregateId aggregateType : string) (e : EventRow)
  : bool :=
  (e_aggregate_id e =? aggregateId) && (e_aggregate_type e =? aggregateType).

Definition versions_of (aggregateId aggregateType : string)
  (rows : list EventRow) : list Z :=
  map e_event_version (filter (of_aggregate aggregateId aggregateType) rows).

(** [MAX(...)]: NULL over no rows. *)
Fixpoint maximum (l : list Z) : option Z :=
  match l with
  | [] => None
  | x :: rest =>
      match maximum rest with
      | None => Some x
      | Some m => Some (Z.max x m)
      end
  end.

(** [COALESCE(x, d)] *)
Definition coalesce (x : option Z) (d : Z) : Z :=
  match x with
  | Some v => v
  | None => d
  end.

(** [SELECT COALESCE(MAX(event_version), 0) as version FROM events
     WHERE aggregate_id = $1 AND aggregate_type = $2] *)
Definition select_max_version (aggregateId aggregateType : string) : M Z :=
  sent (SelectMaxVersion aggregateId aggregateType) ;;
  s <- store ;;
  ret (coalesce (maximum (versions_of aggregateId aggregateType (events s))) 0).

(** [INSERT INTO events (id, aggregate_id, aggregate_type, event_type,
     event_version, event_data, metadata) VALUES ($1, ..., $7)].
    [event_data] is NOT NULL; [timestamp] and [sequence_number] take
    their defaults.  The table has a primary key on [id] and no other
    constraint on what is inserted. *)
Definition insert_event (id : uuid)
  (aggregateId aggregateType eventType : string) (version : Z)
  (eventData : option value) (metadata : value) : M unit :=
  sent (InsertEvent aggregateId aggregateType eventType version eventData
                    metadata) ;;
  match eventData with
  | None => throw (Error "null value in column event_data")
  | Some data =>
      fun h s =>
        let row := mkEventRow id aggregateId aggregateType eventType version
                              data metadata (now h) (last_sequence s + 1) in
        (inr tt, mkStore (events s ++ [row]) (projections s)
                         (last_sequence s + 1) (uuids s) (published s)
                         (console s))
  end.

Definition of_projection (projectionName aggregateId : string)
  (r : ProjectionRow) : bool :=
  (p_projection_name r =? projectionName) && (p_aggregate_id r =? aggregateId).

(** [SELECT data FROM projections
     WHERE projection_name = $1 AND aggregate_id = $2] *)
Definition select_projection (projectionName aggregateId : string)
  : M (list value) :=
  sent (SelectProjection projectionName aggregateId) ;;
  s <- store ;;
  ret (map p_data
           (filter (of_projection projectionName aggregateId) (projections s))).

(** What [ON CONFLICT (projection_name, aggregate_id) DO UPDATE SET ...]
    does to the rows of a table in which the pair is a key: the row
    that has the key is updated, and without one the new row is added.
    (Where the row stands in the list says nothing about where the
    database keeps it.) *)
Fixpoint upsert (row : ProjectionRow) (rows : list ProjectionRow)
  : list ProjectionRow :=
  match rows with
  | [] => [row]
  | r :: rest =>
      if of_projection (p_projection_name row) (p_aggregate_id row) r
      then mkProjectionRow (p_id r) (p_projection_name r) (p_aggregate_id r)
                           (p_data row) (p_version r + 1)
                           (p_last_event_id row) (p_updated_at row) :: rest
      else r :: upsert row rest
  end.

(** [INSERT INTO projections (id, projection_name, aggregate_id, data,
     version, last_event_id) VALUES ($1, $2, $3, $4, 1, $5)
     ON CONFLICT (projection_name, aggregate_id) DO UPDATE SET data = $4,
     version = projections.version + 1, last_event_id = $5,
     updated_at = CURRENT_TIMESTAMP].
    The statement is taken as it is written, for a table in which
    (projection_name, aggregate_id) identifies a row.  The table that
    [createTables] makes has a plain index on the pair and no unique
    one: its database refuses the statement every time, which is a
    [refuses] of the host ([created]). *)
Definition upsert_projection (id : uuid) (projectionName aggregateId : string)
  (data : value) (eventId : uuid) : M unit :=
  sent (UpsertProjection projectionName aggregateId data eventId) ;;
  fun h s =>
    let row := mkProjectionRow id projectionName aggregateId data 1 eventId
                               (now h) in
    (inr tt, mkStore (events s) (upsert row (projections s))
                     (last_sequence s) (uuids s) (published s) (console s)).


(** [x.includes(y)], [y = ANY(x)] *)
Definition includes (l : list string) (x : string) : bool :=
  existsb (String.eqb x) l.

(** [ORDER BY sequence_number ASC] *)
Fixpoint insert_by_sequence (e : EventRow) (l : list EventRow)
  : list EventRow :=
  match l with
  | [] => [e]
  | x :: rest =>
      if (e_sequence_number e <=? e_sequence_number x)%Z then e :: x :: rest
      else x :: insert_by_sequence e rest
  end.

Definition order_by_sequence (l : list EventRow) : list EventRow :=
  fold_right insert_by_sequence [] l.

(** [SELECT * FROM events
     WHERE sequence_number >= $1 AND event_type = ANY($2)
     ORDER BY sequence_number ASC] *)
Definition select_events (fromSequence : Z) (eventTypes : list string)
  : M (list EventRow) :=
  sent (SelectEvents fromSequence eventTypes) ;;
  s <- store ;;
  ret (order_by_sequence
         (filter (fun e => (fromSequence <=? e_sequence_number e)%Z
                           && includes eventTypes (e_event_type e))
                 (events s))).

(** ** The aggregate of an event *)

(** [extractAggregateId(eventType, eventData)].  The table [extractors]
    gives, for an event type, the prefix and the field of the payload
    that make the identifier.  (The types are those of domain events; a
    type that names a member of every object, as "constructor" does, is
    outside the model: see [inherited].) *)
Definition extractors : list (string * (string * string)) :=
  [ ("user.created", ("user-", "userId"));
    ("user.login", ("user-", "userId"));
    ("order.created", ("order-", "orderId"));
    ("order.status_changed", ("order-", "orderId"));
    ("order.cancelled", ("order-", "orderId"));
    ("payment.confirmed", ("payment-", "orderId"));
    ("payment.failed", ("payment-", "orderId"));
    ("inventory.reserve", ("product-", "productId"));
    ("inventory.restore", ("product-", "productId"));
    ("notification.sent", ("notification-", "notificationId"));
    ("notification.failed", ("notification-", "notificationId")) ].

Definition extractAggregateId (eventType : string) (eventData : value)
  : error + string :=
  match assoc eventType extractors with
  | Some (prefix, field) =>
      match member eventData field with
      | inr v => inr (prefix ++ to_string v)
      | inl e => inl e
      end
  | None => inr "unknown"
  end.

(** [extractAggregateType(eventType)] *)
Definition typeMap : list (string * string) :=
  [ ("user.created", "User");
    ("user.login", "User");
    ("order.created", "Order");
    ("order.status_changed", "Order");
    ("order.cancelled", "Order");
    ("payment.confirmed", "Payment");
    ("payment.failed", "Payment");
    ("inventory.reserve", "Product");
    ("inventory.restore", "Product");
    ("notification.sent", "Notification");
    ("notification.failed", "Notification") ].

Definition extractAggregateType (eventType : string) : string :=
  match assoc eventType typeMap with
  | Some t => t
  | None => "Unknown"
  end.

(** ** Reading and saving a projection *)

(** [getProjection(projectionName, aggregateId)] *)
Definition getProjection (projectionName aggregateId : string) : M value :=
  try_catch
    (rows <- select_projection projectionName aggregateId ;;
     ret match rows with
         | data :: _ => data
         | [] => VNull
         end)
    (fun _ =>
       console_error "[EventStore] Get projection error:" ;;
       ret VNull).

(** [saveProjection(projectionName, aggregateId, data, eventId)] *)
Definition saveProjection (projectionName aggregateId : string) (data : value)
  (eventId : uuid) : M unit :=
  try_catch
    (projectionId <- uuidv4 ;;
     upsert_projection projectionId projectionName aggregateId (jsonify data)
                       eventId)
    (fun _ => console_error "[EventStore] Save projection error:").

(** ** The projections *)

(** An entry of [this.projections]. *)
Record Projection : Type := mkProjection {
  name : string;
  eventTypes : list string;
  project : string -> value -> string -> M value
}.

(** [this.projections], a [Map]: the entries in the order they were set. *)
Definition Registry : Type := list (string * Projection).

(** [new Date(v)]: its time value, [None] for an invalid date. *)
Definition new_Date (h : Host) (v : value) : option Z :=
  let time (t : Z) : option Z :=
    if (Z.abs t <=? 8640000000000000)%Z then Some t else None in
  match v with
  | VUndefined | VNaN => None
  | VNull => time 0%Z
  | VBool b => time (if b then 1 else 0)%Z
  | VNum n => time n
  | VStr s => Date_parse h s
  | VArr _ | VObj _ => Date_parse h (to_string v)
  end.

(** [date.toDateString()] *)
Definition dateString (h : Host) (date : option Z) : string :=
  match date with
  | Some t => toDateString h t
  | None => "Invalid Date"
  end.

Definition user_summary : Projection :=
  mkProjection "user-summary" ["user.created"; "user.login"]
    (fun eventType eventData aggregateId =>
       existing <- getProjection "user-summary" aggregateId ;;
       if eventType =? "user.created" then
         userId <- lift (member eventData "userId") ;;
         email <- lift (member eventData "email") ;;
         firstName <- lift (member eventData "firstName") ;;
         lastName <- lift (member eventData "lastName") ;;
         timestamp <- lift (member eventData "timestamp") ;;
         h <- host ;;
         ret (object
                [ Key "userId" userId;
                  Key "email" email;
                  Key "firstName" firstName;
                  Key "lastName" lastName;
                  Key "createdAt" (or timestamp (VStr (toISOString (now h))));
                  Key "lastLogin" VNull;
                  Key "loginCount" (VNum 0) ])
       else if eventType =? "user.login" then
         timestamp <- lift (member eventData "timestamp") ;;
         ret (object
                [ Spread existing;
                  Key "lastLogin" timestamp;
                  Key "loginCount"
                      (add (or (opt_member existing "loginCount") (VNum 0))
                           (VNum 1)) ])
       else ret VUndefined).

Definition order_summary : Projection :=
  mkProjection "order-summary"
    ["order.created"; "order.status_changed"; "order.cancelled"]
    (fun eventType eventData aggregateId =>
       existing <- getProjection "order-summary" aggregateId ;;
       if eventType =? "order.created" then
         orderId <- lift (member eventData "orderId") ;;
         userId <- lift (member eventData "userId") ;;
         totalAmount <- lift (member eventData "totalAmount") ;;
         items <- lift (member eventData "items") ;;
         timestamp <- lift (member eventData "timestamp") ;;
         ret (object
                [ Key "orderId" orderId;
                  Key "userId" userId;
                  Key "totalAmount" totalAmount;
                  Key "status" (VStr "pending");
                  Key "items" items;
                  Key "createdAt" timestamp;
                  Key "statusHistory"
                      (VArr [ object [ Key "status" (VStr "pending");
                                       Key "timestamp" timestamp ] ]) ])
       else if eventType =? "order.status_changed" then
         status <- lift (member eventData "status") ;;
         history <- lift (iterate (or (opt_member existing "statusHistory")
                                      (VArr []))) ;;
         timestamp <- lift (member eventData "timestamp") ;;
         ret (object
                [ Spread existing;
                  Key "status" status;
                  Key "statusHistory"
                      (VArr (history
                             ++ [ object [ Key "status" status;
                                           Key "timestamp" timestamp ] ])) ])
       else if eventType =? "order.cancelled" then
         timestamp <- lift (member eventData "timestamp") ;;
         history <- lift (iterate (or (opt_member existing "statusHistory")
                                      (VArr []))) ;;
         ret (object
                [ Spread existing;
                  Key "status" (VStr "cancelled");
                  Key "cancelledAt" timestamp;
                  Key "statusHistory"
                      (VArr (history
                             ++ [ object [ Key "status" (VStr "cancelled");
                                           Key "timestamp" timestamp ] ])) ])
       else ret VUndefined).

Definition analytics : Projection :=
  mkProjection "analytics" ["order.created"; "payment.confirmed"; "user.created"]
    (fun eventType eventData _ =>
       stored <- getProjection "analytics" "global" ;;
       h <- host ;;
       let existing :=
         or stored
            (object [ Key "totalUsers" (VNum 0);
                      Key "totalOrders" (VNum 0);
                      Key "totalRevenue" (VNum 0);
                      Key "ordersToday" (VNum 0);
                      Key "revenueToday" (VNum 0);
                      Key "lastUpdated" (VStr (toISOString (now h))) ]) in
       let today := dateString h (Some (now h)) in
       timestamp <- lift (member eventData "timestamp") ;;
       let isToday := dateString h (new_Date h timestamp) =? today in
       if eventType =? "user.created" then
         ret (object
                [ Spread existing;
                  Key "totalUsers" (add (get existing "totalUsers") (VNum 1));
                  Key "lastUpdated" (VStr (toISOString (now h))) ])
       else if eventType =? "order.created" then
         ret (object
                [ Spread existing;
                  Key "totalOrders" (add (get existing "totalOrders") (VNum 1));
                  Key "ordersToday"
                      (if isToday
                       then add (get existing "ordersToday") (VNum 1)
                       else get existing "ordersToday");
                  Key "lastUpdated" (VStr (toISOString (now h))) ])
       else if eventType =? "payment.confirmed" then
         amount <- lift (member eventData "amount") ;;
         ret (object
                [ Spread existing;
                  Key "totalRevenue" (add (get existing "totalRevenue") amount);
                  Key "revenueToday"
                      (if isToday
                       then add (get existing "revenueToday") amount
                       else get existing "revenueToday");
                  Key "lastUpdated" (VStr (toISOString (now h))) ])
       else ret VUndefined).

(** [setupProjections()]: what [this.projections] holds afterwards. *)
Definition setupProjections : Registry :=
  [ ("user-summary", user_summary);
    ("order-summary", order_summary);
    ("analytics", analytics) ].

(** ** Updating the projections, storing an event *)

(** The body of the loop of [updateProjections] for one entry. *)
Definition updateProjection (eventType : string) (eventData : value)
  (eventId : uuid) (aggregateId : string) (entry : string * Projection)
  : M unit :=
  let '(projectionName, projection) := entry in
  if includes (eventTypes projection) eventType then
    try_catch
      (projectedData <- project projection eventType eventData aggregateId ;;
       if truthy projectedData
       then saveProjection projectionName aggregateId projectedData eventId
       else ret tt)
      (fun _ =>
         console_error ("[EventStore] Projection " ++ projectionName
                        ++ " error:"))
  else ret tt.

(** [updateProjections(eventType, eventData, eventId, aggregateId,
     aggregateType)], with [this.projections] as first argument. *)
Definition updateProjections (registry : Registry) (eventType : string)
  (eventData : value) (eventId : uuid) (aggregateId aggregateType : string)
  : M unit :=
  for_each registry (updateProjection eventType eventData eventId aggregateId).

(** What [storeEvent] has computed when it has read the version. *)
Record Pending : Type := mkPending {
  eventId : uuid;
  aggregateId : string;
  aggregateType : string;
  nextVersion : Z
}.

(** [storeEvent] up to the [await] of the version query. *)
Definition storeEvent_read (eventType : string) (eventData : value)
  : M Pending :=
  eventId <- uuidv4 ;;
  aggregateId <- lift (extractAggregateId eventType eventData) ;;
  let aggregateType := extractAggregateType eventType in
  version <- select_max_version aggregateId aggregateType ;;
  ret (mkPending eventId aggregateId aggregateType (version + 1)).

(** [storeEvent] from the insert on; another call may have run since the
    version was read. *)
Definition storeEvent_write (registry : Registry) (eventType : string)
  (eventData : value) (metadata : value) (p : Pending) : M unit :=
  correlationId <- lift (member metadata "id") ;;
  insert_event (eventId p) (aggregateId p) (aggregateType p) eventType
               (nextVersion p) (stringify eventData)
               (jsonify (object [ Spread metadata;
                                  Key "source" (VStr "message-broker");
                                  Key "correlationId" correlationId ])) ;;
  console_log ("[EventStore] Stored event: " ++ eventType ++ " for "
               ++ aggregateType p ++ ":" ++ aggregateId p) ;;
  updateProjections registry eventType eventData (eventId p) (aggregateId p)
                    (aggregateType p) ;;
  publish "event.stored"
          (object [ Key "eventId" (VStr (string_of_nat (eventId p)));
                    Key "eventType" (VStr eventType);
                    Key "aggregateId" (VStr (aggregateId p));
                    Key "aggregateType" (VStr (aggregateType p));
                    Key "version" (VNum (nextVersion p)) ]).

(** The [catch] of [storeEvent]. *)
Definition storeEvent_catch (_ : error) : M unit :=
  console_error "[EventStore] Store event error:".

(** [storeEvent(eventType, eventData, metadata = {})], with
    [this.projections] as first argument. *)
Definition storeEvent (registry : Registry) (eventType : string)
  (eventData : value) (metadata : value) : M unit :=
  let metadata := match metadata with
                  | VUndefined => VObj []
                  | _ => metadata
                  end in
  try_catch
    (p <- storeEvent_read eventType eventData ;;
     storeEvent_write registry eventType eventData metadata p)
    storeEvent_catch.

(** ** Calls that overlap

    [handleMessage] starts the handler of a message and does not wait
    for it, so a call of [storeEvent] that awaits a query lets other
    calls run.  Of the places where a call waits, the one between the
    version query and the insert is kept here: a call in flight has read
    its version and has not inserted yet. *)
Record InFlight : Type := mkInFlight {
  f_eventType : string;
  f_eventData : value;
  f_metadata : value;
  f_pending : Pending
}.

(** A call starts and runs up to its version query, or the [k]-th call
    in flight runs from its insert to its end; each under the host as it
    is then. *)
Inductive Step : Type :=
| Start (h : Host) (eventType : string) (eventData : value) (metadata : value)
| Resume (h : Host) (k : nat).

Definition step (registry : Registry) (st : Step)
  (x : Store * list InFlight) : Store * list InFlight :=
  let '(s, flights) := x in
  match st with
  | Start h eventType eventData metadata =>
      let metadata := match metadata with
                      | VUndefined => VObj []
                      | _ => metadata
                      end in
      match storeEvent_read eventType eventData h s with
      | (inr p, s') =>
          (s', (flights ++ [mkInFlight eventType eventData metadata p])%list)
      | (inl e, s') => (snd (storeEvent_catch e h s'), flights)
      end
  | Resume h k =>
      match nth_error flights k with
      | Some f =>
          (snd (try_catch
                  (storeEvent_write registry (f_eventType f) (f_eventData f)
                                    (f_metadata f) (f_pending f))
                  storeEvent_catch h s),
           (firstn k flights ++ skipn (S k) flights)%list)
      | None => (s, flights)
      end
  end.

(** The store and the calls in flight after the steps. *)
Definition overlap (registry : Registry) (steps : list Step)
  (x : Store * list InFlight) : Store * list InFlight :=
  fold_left (fun x st => step registry st x) steps x.

(** ** The routes *)

(** What a route answers. *)
Inductive Response : Type :=
| ProjectionList (projectionName : string)
                 (rows : list (string * value * Z * Z))
| ReplayCompleted (projectionName : string) (eventsReplayed : Z)
| NotFound (message : string)
| InternalServerError.


(** The loop of the replay route over the rows it read. *)
Fixpoint replay_events (projectionName : string) (projection : Projection)
  (rows : list EventRow) (replayedCount : Z) : M Z :=
  match rows with
  | [] => ret replayedCount
  | event :: rest =>
      projectedData <- project projection (e_event_type event)
                               (e_event_data event) (e_aggregate_id event) ;;
      if truthy projectedData then
        saveProjection projectionName (e_aggregate_id event) projectedData
                       (e_id event) ;;
        replay_events projectionName projection rest (replayedCount + 1)
      else replay_events projectionName projection rest replayedCount
  end.

(** [POST /projections/:projectionName/replay].  [fromSequence] is what
    [parseInt(req.body.fromSequence)] gives, [None] for [NaN]. *)
Definition replay (registry : Registry) (projectionName : string)
  (fromSequence : option Z) : M Response :=
  try_catch
    (let fromSequence := match fromSequence with
                         | Some n => if (n =? 0)%Z then 1%Z else n
                         | None => 1%Z
                         end in
     match assoc projectionName registry with
     | None => ret (NotFound "Projection not found")
     | Some projection =>
         rows <- select_events fromSequence (eventTypes projection) ;;
         replayedCount <- replay_events projectionName projection rows 0 ;;
         ret (ReplayCompleted projectionName replayedCount)
     end)
    (fun _ =>
       console_error "[EventStore] Replay projection error:" ;;
       ret InternalServerError).

(** ** The events the store listens to *)

(** The [eventTypes] of [setupEventListeners]. *)
Definition listened : list string :=
  [ "user.created"; "user.login";
    "order.created"; "order.status_changed"; "order.cancelled";
    "payment.confirmed"; "payment.failed";
    "inventory.reserve"; "inventory.restore";
    "notification.sent"; "notification.failed" ].

(** [setupEventListeners()].  There is one handler for each event type,
    and the type stands here for the handler.  No call of [subscribe] is
    awaited: what one throws is lost, and the next one is made. *)
Definition setupEventListeners (env : MessageBroker.Env)
  (broker : MessageBroker.t string) : MessageBroker.t string :=
  fold_left
    (fun broker eventType =>
       snd (MessageBroker.subscribe eventType eventType env broker))
    listened broker.

(** What the handler of [eventType] does when [handleMessage] calls it
    with [(data, metadata)], under the host [h]: it returns a promise
    and throws nothing, and (no other message being handled meanwhile)
    the store becomes what [storeEvent] makes of it. *)
Definition listener (registry : Registry) (h : Host) (eventType : string)
  (data metadata : value) (s : Store) : (error + unit) * Store :=
  (inr tt, snd (storeEvent registry eventType data metadata h s)).

(** ** The routes that read *)

(** The statements of these routes, with their parameters. *)
Inductive Query : Type :=
| SelectStream (aggregateType aggregateId : string) (fromVersion : Z)
| SelectPage (eventType : option string) (limit offset : Z)
| CountEvents (eventType : option string).

(** What these routes answer: the body of a 200, or a status with its
    error. *)
Inductive Answer : Type :=
| Stream (aggregateId aggregateType : string) (events : list EventRow)
| Page (events : list EventRow) (currentPage totalPages totalEvents : Z)
       (hasNext hasPrev : bool)
| Found (projectionName aggregateId : string) (data : value)
| Failed (status : Z) (error : string).

(** [parseInt(x) || d], for what [parseInt] gives ([None] for [NaN]). *)
Definition parsed_or (x : option Z) (d : Z) : Z :=
  match x with
  | Some n => if (n =? 0)%Z then d else n
  | None => d
  end.

(** [Math.ceil(a / b)] for [b] above zero. *)
Definition ceil_div (a b : Z) : Z := (- (- a / b))%Z.

Section Reads.

(** The statements of these routes that the database refuses. *)
Variable fails : Query -> bool.

Definition asked (q : Query) : M unit :=
  fun _ s => if fails q then (inl (Error "query failed"), s) else (inr tt, s).

(** [ORDER BY event_version ASC]: rows of one version, which the
    database may give in any order, keep here the order of the table. *)
Fixpoint insert_by_version (e : EventRow) (l : list EventRow)
  : list EventRow :=
  match l with
  | [] => [e]
  | x :: rest =>
      if (e_event_version e <=? e_event_version x)%Z then e :: x :: rest
      else x :: insert_by_version e rest
  end.

Definition order_by_version (l : list EventRow) : list EventRow :=
  fold_right insert_by_version [] l.

(** [GET /events/:aggregateType/:aggregateId], with what
    [parseInt(req.query.fromVersion)] gives. *)
Definition get_events (aggregateType aggregateId : string)
  (fromVersion : option Z) : M Answer :=
  try_catch
    (let fromVersion := parsed_or fromVersion 1 in
     asked (SelectStream aggregateType aggregateId fromVersion) ;;
     s <- store ;;
     ret (Stream aggregateId aggregateType
            (order_by_version
               (filter (fun e => (e_aggregate_type e =? aggregateType)
                                 && (e_aggregate_id e =? aggregateId)
                                 && (fromVersion <=? e_event_version e)%Z)
                       (events s)))))
    (fun _ =>
       console_error "[EventStore] Get events error:" ;;
       ret (Failed 500 "Internal server error")).

(** The rows that [WHERE event_type = $1] keeps, or all of them. *)
Definition of_type (eventType : option string) (e : EventRow) : bool :=
  match eventType with
  | Some t => e_event_type e =? t
  | None => true
  end.

(** [SELECT * FROM events [WHERE event_type = $1]
     ORDER BY sequence_number DESC LIMIT $n OFFSET $m]: the database
    refuses a negative LIMIT and a negative OFFSET. *)
Definition select_page (eventType : option string) (limit offset : Z)
  : M (list EventRow) :=
  asked (SelectPage eventType limit offset) ;;
  if ((limit <? 0) || (offset <? 0))%Z
  then throw (Error "LIMIT and OFFSET must not be negative")
  else
    s <- store ;;
    ret (firstn (Z.to_nat limit)
           (skipn (Z.to_nat offset)
              (rev (order_by_sequence (filter (of_type eventType) (events s)))))).

(** [SELECT COUNT( * ) FROM events [WHERE event_type = $1]] *)
Definition count_events (eventType : option string) : M Z :=
  asked (CountEvents eventType) ;;
  s <- store ;;
  ret (Z.of_nat (List.length (filter (of_type eventType) (events s)))).

(** [GET /events], with what [parseInt] gives for [req.query.page] and
    [req.query.limit], and [req.query.eventType] ([None] when absent).
    The two queries are sent together and awaited together: the route
    fails when one of them does. *)
Definition get_all_events (page limit : option Z) (eventType : option string)
  : M Answer :=
  try_catch
    (let page := parsed_or page 1 in
     let limit := parsed_or limit 50 in
     let offset := ((page - 1) * limit)%Z in
     let eventType := match eventType with
                      | Some t => if t =? "" then None else Some t
                      | None => None
                      end in
     rows <- select_page eventType limit offset ;;
     totalEvents <- count_events eventType ;;
     let totalPages := ceil_div totalEvents limit in
     ret (Page rows page totalPages totalEvents
               (page <? totalPages)%Z (1 <? page)%Z))
    (fun _ =>
       console_error "[EventStore] Get all events error:" ;;
       ret (Failed 500 "Internal server error")).

End Reads.

(** [GET /projections/:projectionName/:aggregateId] *)
Definition get_projection (projectionName aggregateId : string) : M Answer :=
  try_catch
    (projection <- getProjection projectionName aggregateId ;;
     if truthy projection
     then ret (Found projectionName aggregateId projection)
     else ret (Failed 404 "Projection not found"))
    (fun _ =>
       console_error "[EventStore] Get projection error:" ;;
       ret (Failed 500 "Internal server error")).

End EventStore.

(* ================================================================== *)
(** * The notification service *)
(* ================================================================== *)

(** The class [NotificationService].  A notification is an object that
    the queue and the call that processes it share: it lives in a heap,
    and the queue holds references.  The [channels] of a notification
    hold strings (the handlers write them so; [deliverNotification]
    calls [toUpperCase] on each from a timer).  What the service itself
    writes to the console and the time a delivery takes are left out. *)
Module NotificationService.

Import Js.
Open Scope string_scope.

(** What the service finds around it: the clock, what
    [Math.random().toString(36).substr(2, 9)] gives at the n-th call of
    [generateNotificationId], and what its broker finds. *)
Record Env : Type := mkEnv {
  now : Z;
  random : nat -> string;
  broker : MessageBroker.Env
}.

(** The broker (its handlers are named by their channels), the objects
    created, [this.notificationQueue] and the number of identifiers
    drawn. *)
Record t : Type := mk {
  messageBroker : MessageBroker.t string;
  heap : list value;
  notificationQueue : list nat;
  drawn : nat
}.

(** [constructor()], before the broker is connected. *)
Definition new : t := mk MessageBroker.new [] [] 0.

Definition Task (A : Type) : Type := Env -> t -> (error + A) * t.

(** The object behind a reference. *)
Definition deref (s : t) (ref : nat) : value := nth ref (heap s) VUndefined.

(** [generateNotificationId()] *)
Definition generateNotificationId : Task string :=
  fun env s =>
    (inr ("notif_" ++ random env (drawn s)),
     mk (messageBroker s) (heap s) (notificationQueue s) (S (drawn s))).

(** An object literal is evaluated: the reference of the new object. *)
Definition create (notification : value) : Task nat :=
  fun _ s =>
    (inr (List.length (heap s)),
     mk (messageBroker s) (heap s ++ [notification])%list
        (notificationQueue s) (drawn s)).

(** [notification.k = v] *)
Fixpoint assign_at (ref : nat) (k : string) (v : value) (objects : list value)
  {struct objects} : list value :=
  match objects with
  | [] => []
  | x :: rest =>
      match ref with
      | O =>
          match x with
          | VObj props => VObj (set_prop k v props)
          | _ => x
          end :: rest
      | S ref' => x :: assign_at ref' k v rest
      end
  end.

Definition assign (ref : nat) (k : string) (v : value) (s : t) : t :=
  mk (messageBroker s) (assign_at ref k v (heap s)) (notificationQueue s)
     (drawn s).

(** [this.messageBroker.publish(channel, data)] *)
Definition broker_publish (channel : string) (data : value) : Task unit :=
  fun env s =>
    let '(r, b) := MessageBroker.publish channel data (broker env)
                                         (messageBroker s) in
    (r, mk b (heap s) (notificationQueue s) (drawn s)).

(** [error.message] *)
Definition message_of (e : error) : string :=
  match e with
  | TypeError m => m
  | Error m => m
  end.

(** ** Processing a notification *)

(** [processNotification] up to its first [await]: the notification
    joins the queue. *)
Definition enqueue (ref : nat) (s : t) : t :=
  mk (messageBroker s) (heap s) (notificationQueue s ++ [ref])%list (drawn s).

(** [processNotification] from there on. *)
Definition complete (ref : nat) : Task unit :=
  fun env s =>
    let sent :=
      match iterate (get (deref s ref) "channels") with
      | inl e => (inl e, s)
      | inr _ =>
          let s := assign ref "status" (VStr "sent") s in
          let notification := deref s ref in
          broker_publish "notification.sent"
            (object [ Key "notificationId" (get notification "id");
                      Key "type" (get notification "type");
                      Key "channels" (get notification "channels");
                      Key "userId" (get notification "userId");
                      Key "timestamp" (VStr (toISOString (now env))) ])
            env s
      end in
    match sent with
    | (inr tt, s) => (inr tt, s)
    | (inl e, s) =>
        let s := assign ref "status" (VStr "failed") s in
        let s := assign ref "error" (VStr (message_of e)) s in
        let notification := deref s ref in
        broker_publish "notification.failed"
          (object [ Key "notificationId" (get notification "id");
                    Key "type" (get notification "type");
                    Key "error" (VStr (message_of e));
                    Key "timestamp" (VStr (toISOString (now env))) ])
          env s
    end.

(** [processNotification(notification)] *)
Definition processNotification (ref : nat) : Task unit :=
  fun env s => complete ref env (enqueue ref s).

(** ** The notifications of the handlers *)

(** A handler evaluates its object literal: the identifier is drawn
    first, then the first property read from the data of the event
    throws when the data is [null] or [undefined].  The reference of the
    new object is the result. *)
Definition build (first : string) (data : value)
  (literal : string -> Z -> list part) : Task nat :=
  fun env s =>
    match generateNotificationId env s with
    | (inl e, s) => (inl e, s)
    | (inr id, s) =>
        match member data first with
        | inl e => (inl e, s)
        | inr _ => create (object (literal id (now env))) env s
        end
    end.

(** A handler: the literal, then [await this.processNotification]. *)
Definition notify (first : string) (data : value)
  (literal : string -> Z -> list part) : Task unit :=
  fun env s =>
    match build first data literal env s with
    | (inl e, s) => (inl e, s)
    | (inr ref, s) => processNotification ref env s
    end.

Definition strings (l : list string) : value := VArr (map VStr l).

(** The literal of [sendWelcomeNotification(userData)] *)
Definition welcome (userData : value) (id : string) (now : Z) : list part :=
  [ Key "id" (VStr id);
    Key "type" (VStr "welcome");
    Key "userId" (get userData "userId");
    Key "email" (get userData "email");
    Key "subject" (VStr "Welcome to CloudMarket!");
    Key "message"
        (VStr ("Hello " ++ to_string (get userData "firstName")
               ++ ", welcome to our platform! We're excited to have you on board."));
    Key "channels" (strings ["email"; "push"]);
    Key "priority" (VStr "normal");
    Key "timestamp" (VStr (toISOString now));
    Key "status" (VStr "pending") ].

Definition sendWelcomeNotification (userData : value) : Task unit :=
  notify "userId" userData (welcome userData).

(** The literal of [sendLoginNotification(userData)] *)
Definition login (userData : value) (id : string) (now : Z) : list part :=
  [ Key "id" (VStr id);
    Key "type" (VStr "security");
    Key "userId" (get userData "userId");
    Key "email" (get userData "email");
    Key "subject" (VStr "Login detected");
    Key "message"
        (VStr ("Hello! We detected a login to your account at "
               ++ to_string (get userData "timestamp") ++ "."));
    Key "channels" (strings ["email"]);
    Key "priority" (VStr "low");
    Key "timestamp" (VStr (toISOString now));
    Key "status" (VStr "pending") ].

Definition sendLoginNotification (userData : value) : Task unit :=
  notify "userId" userData (login userData).

(** The literal of [sendOrderConfirmationNotification(orderData)] *)
Definition order_confirmation (orderData : value) (id : string) (now : Z)
  : list part :=
  [ Key "id" (VStr id);
    Key "type" (VStr "order_confirmation");
    Key "userId" (get orderData "userId");
    Key "orderId" (get orderData "orderId");
    Key "subject" (VStr "Order Confirmation");
    Key "message"
        (VStr ("Your order #" ++ to_string (get orderData "orderId")
               ++ " has been received! Total: $"
               ++ to_string (get orderData "totalAmount")));
    Key "channels" (strings ["email"; "sms"; "push"]);
    Key "priority" (VStr "high");
    Key "timestamp" (VStr (toISOString now));
    Key "status" (VStr "pending") ].

Definition sendOrderConfirmationNotification (orderData : value) : Task unit :=
  notify "userId" orderData (order_confirmation orderData).

(** The [statusMessages] of [sendOrderStatusNotification].  (A status
    that names a member of every object, as "constructor" does, is
    outside the model.) *)
Definition statusMessages : list (string * string) :=
  [ ("confirmed", "Your order has been confirmed and is being prepared.");
    ("shipped", "Your order has been shipped and is on its way!");
    ("delivered", "Your order has been delivered. Enjoy your purchase!");
    ("payment_failed", "Payment for your order failed. Please try again.") ].

(** [v === 'literal'] *)
Definition is_string (v : value) (s : string) : bool :=
  match v with
  | VStr x => x =? s
  | _ => false
  end.

(** The literal of [sendOrderStatusNotification(statusData)] *)
Definition order_status (statusData : value) (id : string) (now : Z)
  : list part :=
  let status := get statusData "status" in
  [ Key "id" (VStr id);
    Key "type" (VStr "order_status");
    Key "orderId" (get statusData "orderId");
    Key "subject" (VStr "Order Status Update");
    Key "message"
        (VStr match assoc (to_string status) statusMessages with
              | Some m => m
              | None => "Order status updated to: " ++ to_string status
              end);
    Key "channels" (strings ["email"; "push"]);
    Key "priority"
        (VStr (if is_string status "payment_failed" then "high" else "normal"));
    Key "timestamp" (VStr (toISOString now));
    Key "status" (VStr "pending") ].

Definition sendOrderStatusNotification (statusData : value) : Task unit :=
  notify "orderId" statusData (order_status statusData).

(** The literal of [sendOrderCancellationNotification(cancelData)] *)
Definition order_cancellation (cancelData : value) (id : string) (now : Z)
  : list part :=
  [ Key "id" (VStr id);
    Key "type" (VStr "order_cancellation");
    Key "userId" (get cancelData "userId");
    Key "orderId" (get cancelData "orderId");
    Key "subject" (VStr "Order Cancelled");
    Key "message"
        (VStr ("Your order #" ++ to_string (get cancelData "orderId")
               ++ " has been cancelled successfully. Any charges will be refunded."));
    Key "channels" (strings ["email"; "push"]);
    Key "priority" (VStr "normal");
    Key "timestamp" (VStr (toISOString now));
    Key "status" (VStr "pending") ].

Definition sendOrderCancellationNotification (cancelData : value) : Task unit :=
  notify "userId" cancelData (order_cancellation cancelData).

(** The literal of [sendPaymentConfirmationNotification(paymentData)] *)
Definition payment_confirmation (paymentData : value) (id : string) (now : Z)
  : list part :=
  [ Key "id" (VStr id);
    Key "type" (VStr "payment_confirmation");
    Key "userId" (get paymentData "userId");
    Key "orderId" (get paymentData "orderId");
    Key "subject" (VStr "Payment Confirmed");
    Key "message"
        (VStr ("Payment of $" ++ to_string (get paymentData "amount")
               ++ " for order #" ++ to_string (get paymentData "orderId")
               ++ " has been processed successfully."));
    Key "channels" (strings ["email"; "sms"]);
    Key "priority" (VStr "high");
    Key "timestamp" (VStr (toISOString now));
    Key "status" (VStr "pending") ].

Definition sendPaymentConfirmationNotification (paymentData : value)
  : Task unit :=
  notify "userId" paymentData (payment_confirmation paymentData).

(** The literal of [sendPaymentFailureNotification(paymentData)] *)
Definition payment_failure (paymentData : value) (id : string) (now : Z)
  : list part :=
  [ Key "id" (VStr id);
    Key "type" (VStr "payment_failure");
    Key "userId" (get paymentData "userId");
    Key "orderId" (get paymentData "orderId");
    Key "subject" (VStr "Payment Failed");
    Key "message"
        (VStr ("Payment for order #" ++ to_string (get paymentData "orderId")
               ++ " failed. Please update your payment method and try again."));
    Key "channels" (strings ["email"; "push"]);
    Key "priority" (VStr "urgent");
    Key "timestamp" (VStr (toISOString now));
    Key "status" (VStr "pending") ].

Definition sendPaymentFailureNotification (paymentData : value) : Task unit :=
  notify "userId" paymentData (payment_failure paymentData).

(** The literal of [sendLowStockAlert(stockData)] *)
Definition low_stock (stockData : value) (id : string) (now : Z) : list part :=
  [ Key "id" (VStr id);
    Key "type" (VStr "admin_alert");
    Key "productId" (get stockData "productId");
    Key "subject" (VStr "Low Stock Alert");
    Key "message"
        (VStr ("Product " ++ to_string (get stockData "productName")
               ++ " is running low on stock. Current quantity: "
               ++ to_string (get stockData "quantity")));
    Key "channels" (strings ["email"]);
    Key "priority" (VStr "normal");
    Key "timestamp" (VStr (toISOString now));
    Key "status" (VStr "pending");
    Key "recipients"
        (strings ["admin@cloudmarket.com"; "inventory@cloudmarket.com"]) ].

Definition sendLowStockAlert (stockData : value) : Task unit :=
  notify "productId" stockData (low_stock stockData).

(** The notifications of [setupEventHandlers], by their channels: the
    first property that the literal reads, and the literal. *)
Definition notifications
  : list (string * (string * (value -> string -> Z -> list part))) :=
  [ ("user.created", ("userId", welcome));
    ("user.login", ("userId", login));
    ("order.created", ("userId", order_confirmation));
    ("order.status_changed", ("orderId", order_status));
    ("order.cancelled", ("userId", order_cancellation));
    ("payment.confirmed", ("userId", payment_confirmation));
    ("payment.failed", ("userId", payment_failure));
    ("inventory.low_stock", ("productId", low_stock)) ].

(** The handler of a channel. *)
Definition handler (channel : string) (data : value) : Task unit :=
  match assoc channel notifications with
  | Some (first, literal) => notify first data (literal data)
  | None => fun _ s => (inr tt, s)
  end.

(** [setupEventHandlers()]: one handler for each channel, and the
    channel stands here for its handler.  No call of [subscribe] is
    awaited: what one throws is lost, and the next one is made. *)
Definition setupEventHandlers (env : Env) (s : t) : t :=
  mk (fold_left
        (fun b channel =>
           snd (MessageBroker.subscribe channel channel (broker env) b))
        (map fst notifications) (messageBroker s))
     (heap s) (notificationQueue s) (drawn s).

(** [connectToMessageBroker()]: a connection that fails is logged. *)
Definition connectToMessageBroker (env : Env) (s : t) : t :=
  match MessageBroker.connect (broker env) (messageBroker s) with
  | (inr _, b) =>
      setupEventHandlers env (mk b (heap s) (notificationQueue s) (drawn s))
  | (inl _, b) => mk b (heap s) (notificationQueue s) (drawn s)
  end.

(** ** The routes *)

(** [this.notificationQueue.filter(n => n.status === status).length] *)
Definition with_status (status : string) (s : t) : Z :=
  Z.of_nat (List.length
              (filter (fun ref => is_string (get (deref s ref) "status") status)
                      (notificationQueue s))).

(** [types[k] = (types[k] || 0) + 1] on the properties of [types].  (A
    key that names a member of every object is outside the model.) *)
Definition count_one (k : string) (props : list (string * value))
  : list (string * value) :=
  set_prop k (add (or (get (VObj props) k) (VNum 0)) (VNum 1)) props.

(** [getNotificationsByType()] *)
Definition getNotificationsByType (s : t) : value :=
  VObj (fold_left
          (fun types ref => count_one (to_string (get (deref s ref) "type")) types)
          (notificationQueue s) []).

(** [getNotificationsByChannel()]: [forEach] is a method of arrays. *)
Definition getNotificationsByChannel (s : t) : error + value :=
  match
    fold_left
      (fun (counted : error + list (string * value)) ref =>
         match counted with
         | inl e => inl e
         | inr channels =>
             match get (deref s ref) "channels" with
             | VArr items =>
                 inr (fold_left (fun channels channel =>
                                   count_one (to_string channel) channels)
                                items channels)
             | _ =>
                 inl (TypeError
                        "notification.channels.forEach is not a function")
             end
         end)
      (notificationQueue s) (inr [])
  with
  | inl e => inl e
  | inr channels => inr (VObj channels)
  end.

(** [GET /notifications/queue/status] *)
Definition queue_status (s : t) : error + value :=
  let total := Z.of_nat (List.length (notificationQueue s)) in
  let pending := with_status "pending" s in
  let sent := with_status "sent" s in
  let failed := with_status "failed" s in
  let byType := getNotificationsByType s in
  match getNotificationsByChannel s with
  | inl e => inl e
  | inr byChannel =>
      inr (object [ Key "totalNotifications" (VNum total);
                    Key "pending" (VNum pending);
                    Key "sent" (VNum sent);
                    Key "failed" (VNum failed);
                    Key "byType" byType;
                    Key "byChannel" byChannel ])
  end.

(** [array.slice(start)] *)
Definition slice {A : Type} (start : Z) (l : list A) : list A :=
  let len := Z.of_nat (List.length l) in
  let from := if (start <? 0)%Z then Z.max (len + start) 0
              else Z.min start len in
  skipn (Z.to_nat from) l.

(** [GET /notifications/recent], with what [parseInt(req.query.limit)]
    gives: the notifications and [total]. *)
Definition recent (limit : option Z) (s : t) : list value * Z :=
  let limit := match limit with
               | Some n => if (n =? 0)%Z then 10%Z else n
               | None => 10%Z
               end in
  (map (deref s) (rev (slice (- limit) (notificationQueue s))),
   Z.of_nat (List.length (notificationQueue s))).

(** What a route answers: a status and a body. *)
Definition Reply : Type := Z * value.

(** The literal of [POST /notifications/send], with the fields of
    [req.body] ([undefined] for one that is absent). *)
Definition custom (type userId subject message channels priority : value)
  (id : string) (now : Z) : list part :=
  [ Key "id" (VStr id);
    Key "type" (or type (VStr "custom"));
    Key "userId" userId;
    Key "subject" subject;
    Key "message" message;
    Key "channels" (or channels (strings ["email"]));
    Key "priority" (or priority (VStr "normal"));
    Key "timestamp" (VStr (toISOString now));
    Key "status" (VStr "pending") ].

(** [POST /notifications/send] *)
Definition send (type userId subject message channels priority : value)
  : Task Reply :=
  fun env s =>
    match generateNotificationId env s with
    | (inl e, s) => (inl e, s)
    | (inr id, s) =>
        match create (object (custom type userId subject message channels
                                     priority id (now env))) env s with
        | (inl e, s) => (inl e, s)
        | (inr ref, s) =>
            match processNotification ref env s with
            | (inr tt, s) =>
                (inr (201%Z,
                      object [ Key "message"
                                   (VStr "Notification sent successfully");
                               Key "notificationId" (VStr id) ]),
                 s)
            | (inl _, s) =>
                (inr (500%Z,
                      object [ Key "error"
                                   (VStr "Failed to send notification") ]),
                 s)
            end
        end
    end.

(** [DELETE /notifications/queue] *)
Definition clear (s : t) : Reply * t :=
  ((200%Z,
    object [ Key "message"
                 (VStr ("Cleared "
                        ++ string_of_nat (List.length (notificationQueue s))
                        ++ " notifications from queue")) ]),
   mk (messageBroker s) (heap s) [] (drawn s)).

(** ** What happens in the service, one thing at a time

    [processNotification] awaits its deliveries and its publication:
    between the moment a notification joins the queue and the moment its
    status is written, other notifications may arrive, be completed, and
    the queue may be cleared.  The connection to the broker, which the
    constructor starts and does not await, is made in between as
    well. *)
Inductive Move : Type :=
| Connects
| Arrives (channel : string) (data : value)
| Requested (type userId subject message channels priority : value)
| Completes (ref : nat)
| Clears.

Definition move (st : Move) (env : Env) (s : t) : t :=
  match st with
  | Connects => connectToMessageBroker env s
  | Arrives channel data =>
      match assoc channel notifications with
      | Some (first, literal) =>
          match build first data (literal data) env s with
          | (inr ref, s) => enqueue ref s
          | (inl _, s) => s
          end
      | None => s
      end
  | Requested type userId subject message channels priority =>
      match generateNotificationId env s with
      | (inr id, s) =>
          match create (object (custom type userId subject message channels
                                       priority id (now env))) env s with
          | (inr ref, s) => enqueue ref s
          | (inl _, s) => s
          end
      | (inl _, s) => s
      end
  | Completes ref => snd (complete ref env s)
  | Clears => snd (clear s)
  end.

(** The service after the moves, each under the environment it finds. *)
Definition moves (l : list (Move * Env)) (s : t) : t :=
  fold_left (fun s x => move (fst x) (snd x) s) l s.

End NotificationService.

(* ================================================================== *)
(** * Facts about the circuit breaker *)
(* ================================================================== *)

Module CircuitBreakerFacts.

Import CircuitBreaker.

Section Runs.

Variables R E : Type.

Implicit Types (cb : t) (now settled : Z).

Local Abbreviation call := (@call R E).
Local Abbreviation failures := (@failures R E).
Local Abbreviation successes := (@successes R E).

(** A failing call made while CLOSED: the request is invoked, the count
    goes up by one, and the breaker opens when the count reaches the
    threshold. *)
Lemma failure_when_closed cb now (error : E) settled :
  state cb = CLOSED ->
  let r := call cb now (Rejected error) settled in
  invoked r
  /\ failureCount (after r) = failureCount cb + 1
  /\ failureThreshold (after r) = failureThreshold cb
  /\ timeout (after r) = timeout cb
  /\ (failureCount cb + 1 < failureThreshold cb -> state (after r) = CLOSED)
  /\ (failureThreshold cb <= failureCount cb + 1 ->
      state (after r) = OPEN /\ nextAttempt (after r) = settled + timeout cb).
Proof.
  destruct cb as [st fc sc na ft sth to mp]. cbn. intros ->.
  unfold CircuitBreaker.call, onFailure, invoked. cbn.
  destruct (Z.leb_spec ft (fc + 1)); cbn; repeat split; auto; intros; lia.
Qed.

Lemma failures_below_threshold (calls : list (Z * E * Z)) :
  forall cb,
    state cb = CLOSED ->
    failureCount cb + Z.of_nat (List.length calls) < failureThreshold cb ->
    state (failures cb calls) = CLOSED
    /\ failureCount (failures cb calls)
       = failureCount cb + Z.of_nat (List.length calls)
    /\ failureThreshold (failures cb calls) = failureThreshold cb
    /\ timeout (failures cb calls) = timeout cb.
Proof.
  induction calls as [|[[now error] settled] rest IH]; intros cb Hst Hlt.
  - cbn. repeat split; auto; lia.
  - cbn [CircuitBreaker.failures List.length] in *.
    destruct (failure_when_closed cb now error settled Hst)
      as (_ & Hc & Hth & Hto & Hclosed & _).
    destruct (IH (after (call cb now (Rejected error) settled)))
      as (H1 & H2 & H3 & H4).
    + apply Hclosed. lia.
    + rewrite Hc, Hth. lia.
    + repeat split; try congruence. rewrite H2, Hc. lia.
Qed.

(** A resolving call made while HALF_OPEN. *)
Lemma success_when_half_open cb now (res : R) settled :
  state cb = HALF_OPEN ->
  let r := call cb now (Resolved res) settled in
  invoked r
  /\ result r = Returned res
  /\ failureCount (after r) = 0
  /\ successThreshold (after r) = successThreshold cb
  /\ (successCount cb + 1 < successThreshold cb ->
      state (after r) = HALF_OPEN
      /\ successCount (after r) = successCount cb + 1)
  /\ (successThreshold cb <= successCount cb + 1 ->
      state (after r) = CLOSED /\ successCount (after r) = 0).
Proof.
  destruct cb as [st fc sc na ft sth to mp]. cbn. intros ->.
  unfold CircuitBreaker.call, onSuccess, invoked. cbn.
  destruct (Z.leb_spec sth (sc + 1)); cbn; repeat split; auto; intros; lia.
Qed.

Lemma successes_below_threshold (calls : list (Z * R * Z)) :
  forall cb,
    state cb = HALF_OPEN ->
    successCount cb + Z.of_nat (List.length calls) < successThreshold cb ->
    state (successes cb calls) = HALF_OPEN
    /\ successCount (successes cb calls)
       = successCount cb + Z.of_nat (List.length calls)
    /\ successThreshold (successes cb calls) = successThreshold cb.
Proof.
  induction calls as [|[[now res] settled] rest IH]; intros cb Hst Hlt.
  - cbn. repeat split; auto; lia.
  - cbn [CircuitBreaker.successes List.length] in *.
    destruct (success_when_half_open cb now res settled Hst)
      as (_ & _ & _ & Hth & Hhalf & _).
    destruct Hhalf as [H1 H2]; [lia|].
    destruct (IH (after (call cb now (Resolved res) settled)))
      as (H3 & H4 & H5); [assumption | rewrite H2, Hth; lia |].
    repeat split; try congruence. rewrite H4, H2. lia.
Qed.

(** A call made while OPEN, once [nextAttempt] is reached, is the same
    call made HALF_OPEN with no success counted, after the change of
    state has been announced. *)
Lemma call_when_due cb now (outcome : Outcome R E) settled :
  state cb = OPEN ->
  nextAttempt cb <= now ->
  let probe := set_successCount 0 (set_state HALF_OPEN cb) in
  let r := call probe now outcome settled in
  call cb now outcome settled
  = (after r, StateChange HALF_OPEN :: effects r, result r).
Proof.
  intros Hst Hdue. unfold CircuitBreaker.call at 2. rewrite Hst.
  cbn [State_eqb].
  destruct (Z.ltb_spec now (nextAttempt cb)); [lia|].
  unfold CircuitBreaker.call. cbn [State_eqb state set_successCount set_state].
  destruct outcome as [res|error].
  - destruct (onSuccess _ res) as [[cb' fx] res']. reflexivity.
  - destruct (onFailure _ error settled) as [[cb' fx] res']. reflexivity.
Qed.

End Runs.

(** C3.  Starting CLOSED with no failure counted: as long as fewer than
    [failureThreshold] (5 by default) calls have failed in a row the
    breaker stays CLOSED, and the failure that reaches the threshold
    opens it with [nextAttempt] set to the clock of that failure plus
    [timeout] (60000 ms by default).  While OPEN, a call made before
    [nextAttempt] throws the breaker's own error, changes nothing and
    does not invoke the request; its error carries [nextAttempt], and
    the number in its message comes from a later reading of the clock.
    A call made at or after [nextAttempt] makes the breaker HALF_OPEN
    with no success counted, announces it, and then invokes the request:
    the call is the settlement of that request on the HALF_OPEN breaker.
    It passes the outcome on; a request that resolves leaves the breaker
    HALF_OPEN, or CLOSED when one success is enough, and one that
    rejects opens it again with [nextAttempt] set to the clock of the
    failure plus [timeout]. *)
Theorem closed_opens_rejects_then_probes (R E : Type) :
  (forall now,
      state (new no_options now) = CLOSED
      /\ failureCount (new no_options now) = 0
      /\ failureThreshold (new no_options now) = 5
      /\ timeout (new no_options now) = 60000)
  /\ (forall cb (calls : list (Z * E * Z)) now (error : E) settled,
        state cb = CLOSED ->
        failureCount cb = 0 ->
        Z.of_nat (List.length calls) + 1 = failureThreshold cb ->
        let cb' := failures (R:=R) cb calls in
        let r := call (R:=R) cb' now (Rejected error) settled in
        state cb' = CLOSED
        /\ invoked r
        /\ state (after r) = OPEN
        /\ nextAttempt (after r) = settled + timeout cb)
  /\ (forall cb now (outcome : Outcome R E) settled,
        state cb = OPEN ->
        now < nextAttempt cb ->
        let r := call cb now outcome settled in
        ~ invoked r
        /\ effects r = []
        /\ after r = cb
        /\ result r = Threw (CircuitOpen (nextAttempt cb)))
  /\ (forall cb now (outcome : Outcome R E) settled,
        state cb = OPEN ->
        nextAttempt cb <= now ->
        let r := call cb now outcome settled in
        let probe := set_successCount 0 (set_state HALF_OPEN cb) in
        state probe = HALF_OPEN
        /\ enter (E:=E) cb now
           = (probe, [StateChange HALF_OPEN; Requested], None)
        /\ r = (let '(cb', fx, res) := settle probe outcome settled in
                (cb', StateChange HALF_OPEN :: Requested :: fx, res))
        /\ invoked r
        /\ result r = match outcome with
                      | Resolved res => Returned res
                      | Rejected error => Threw (RequestError error)
                      end
        /\ match outcome with
           | Resolved _ =>
               state (after r)
               = (if successThreshold cb <=? 1 then CLOSED else HALF_OPEN)
               /\ failureCount (after r) = 0
               /\ nextAttempt (after r) = nextAttempt cb
           | Rejected _ =>
               state (after r) = OPEN
               /\ failureCount (after r) = failureCount cb + 1
               /\ nextAttempt (after r) = settled + timeout cb
           end).
Proof.
  split; [|split; [|split]].
  - intros now. cbn. auto.
  - intros cb calls now error settled Hst Hzero Hlen cb' r.
    destruct (failures_below_threshold R E calls cb Hst)
      as (H1 & H2 & H3 & H4); [lia|].
    destruct (failure_when_closed R E cb' now error settled H1)
      as (Hinv & _ & _ & _ & _ & Hopen).
    fold r in Hinv, Hopen. subst cb'.
    destruct Hopen as [Ho Hn]; [rewrite H2, H3; lia|].
    repeat split; auto. rewrite Hn, H4. reflexivity.
  - intros cb now outcome settled Hst Hlt r. subst r.
    unfold call, invoked. rewrite Hst. cbn [State_eqb].
    destruct (Z.ltb_spec now (nextAttempt cb)); [|lia].
    cbn. repeat split; auto.
  - intros cb now outcome settled Hst Hdue r probe. subst r probe.
    destruct cb as [st fc sc na ft sth to mp]. cbn in Hst, Hdue. subst st.
    unfold call, enter, settle, invoked.
    cbn [State_eqb state nextAttempt set_successCount set_state].
    destruct (Z.ltb_spec now na); [lia|].
    destruct outcome as [res|error].
    + unfold onSuccess. cbn.
      destruct (sth <=? 1); cbn; repeat split; auto.
    + unfold onFailure. cbn. repeat split; auto.
Qed.

(** The default breaker, with requests that fail at times 10, 20, ...:
    the fifth failure opens it; a call at 60050 is thrown out, and the
    call at 60051 finds it HALF_OPEN, is let through and, resolving,
    leaves it HALF_OPEN with one success counted. *)
Lemma closed_opens_rejects_then_probes_witness :
  let cb := new no_options 0 in
  let cb' := failures (R:=unit) cb
               [(10, tt, 11); (20, tt, 21); (30, tt, 31); (40, tt, 41)] in
  let r := call (R:=unit) cb' 50 (Rejected tt) 51 in
  let early := call (R:=unit) (E:=unit) (after r) 60050 (Resolved tt) 60050 in
  let due := call (R:=unit) (E:=unit) (after r) 60051 (Resolved tt) 60060 in
  (state cb' = CLOSED /\ invoked r /\ state (after r) = OPEN
   /\ nextAttempt (after r) = 51 + 60000)
  /\ (~ invoked early /\ after early = after r
      /\ result early = Threw (CircuitOpen 60051))
  /\ (invoked due /\ result due = Returned tt
      /\ state (after due) = HALF_OPEN /\ successCount (after due) = 1
      /\ failureCount (after due) = 0).
Proof.
  intros cb cb' r early due.
  destruct (closed_opens_rejects_then_probes unit unit)
    as (_ & H2 & H3 & H4).
  split; [|split].
  - apply (H2 cb [(10, tt, 11); (20, tt, 21); (30, tt, 31); (40, tt, 41)]
              50 tt 51); reflexivity.
  - destruct (H3 (after r) 60050 (Resolved tt) 60050)
      as (Hinv & _ & Hafter & Hres); [reflexivity | reflexivity |].
    repeat split; assumption.
  - destruct (H4 (after r) 60051 (Resolved tt) 60060)
      as (_ & _ & _ & Hinv & Hres & Hst & Hfc & _);
      [reflexivity | vm_compute; discriminate |].
    split; [exact Hinv|]. split; [exact Hres|]. split; [exact Hst|].
    split; [reflexivity | exact Hfc].
Defined.

(** C4.  While HALF_OPEN, one failing call opens the breaker again,
    whatever the counts, with [nextAttempt] set to the clock of the
    failure plus [timeout].  [call] enters HALF_OPEN with no success
    counted; from there the breaker stays HALF_OPEN while fewer than
    [successThreshold] (2 by default) calls have succeeded in a row, and
    the success that brings the count to the threshold closes it with
    both counts at zero. *)
Theorem half_open_single_strike_and_recovery (R E : Type) :
  (forall now, successThreshold (new no_options now) = 2)
  /\ (forall cb now (error : E) settled,
        state cb = HALF_OPEN ->
        let r := call (R:=R) cb now (Rejected error) settled in
        invoked r
        /\ state (after r) = OPEN
        /\ nextAttempt (after r) = settled + timeout cb
        /\ result r = Threw (RequestError error))
  /\ (forall cb (calls : list (Z * R * Z)) now (res : R) settled,
        state cb = HALF_OPEN ->
        successCount cb + Z.of_nat (List.length calls) + 1
        = successThreshold cb ->
        let cb' := successes (E:=E) cb calls in
        let r := call (E:=E) cb' now (Resolved res) settled in
        state cb' = HALF_OPEN
        /\ invoked r
        /\ result r = Returned res
        /\ state (after r) = CLOSED
        /\ failureCount (after r) = 0
        /\ successCount (after r) = 0).
Proof.
  split; [|split].
  - reflexivity.
  - intros cb now error settled Hst r. subst r.
    destruct cb as [st fc sc na ft sth to mp]. cbn in Hst. subst st.
    unfold call, onFailure, invoked. cbn. repeat split; auto.
  - intros cb calls now res settled Hst Hlen cb' r.
    destruct (successes_below_threshold R E calls cb Hst)
      as (H1 & H2 & H3); [lia|].
    destruct (success_when_half_open R E cb' now res settled H1)
      as (Hinv & Hres & Hf & _ & _ & Hclose).
    fold r in Hinv, Hres, Hf, Hclose. subst cb'.
    destruct Hclose as [Hc Hs]; [rewrite H2, H3; lia|].
    repeat split; auto.
Qed.

(** The default breaker, opened by five failures and probed when due:
    the probe and one more success close it. *)
Lemma half_open_single_strike_and_recovery_witness :
  let opened := failures (R:=unit) (E:=unit) (new no_options 0)
                  [(1, tt, 1); (2, tt, 2); (3, tt, 3); (4, tt, 4); (5, tt, 5)] in
  let probing := set_successCount 0 (set_state HALF_OPEN opened) in
  let cb' := successes (R:=unit) (E:=unit) probing [(60005, tt, 60006)] in
  let r := call (R:=unit) (E:=unit) cb' 60007 (Resolved tt) 60008 in
  state cb' = HALF_OPEN
  /\ invoked r /\ result r = Returned tt /\ state (after r) = CLOSED
  /\ failureCount (after r) = 0 /\ successCount (after r) = 0.
Proof.
  apply (proj2 (proj2 (half_open_single_strike_and_recovery unit unit)));
    reflexivity.
Defined.

(** ** Calls that overlap, and [reset] *)

Section Histories.

Variables R E : Type.

Implicit Types (cb : t) (ev : Event R E) (evs : list (Event R E)).

(** A call is its entry followed, when it is let in, by the settlement
    of its request. *)
Lemma call_enters_then_settles cb now (outcome : Outcome R E) settled :
  call cb now outcome settled
  = match enter cb now with
    | (cb1, fx, Some x) => (cb1, fx, Threw x)
    | (cb1, fx, None) =>
        let '(cb2, fx', res) := settle cb1 outcome settled in
        (cb2, fx ++ fx', res)
    end.
Proof.
  unfold call, enter, settle.
  destruct (State_eqb (state cb) OPEN); [destruct (now <? nextAttempt cb)|];
    try reflexivity.
  - destruct outcome as [res|error].
    + destruct (onSuccess _ res) as [[cb2 fx'] r]. reflexivity.
    + destruct (onFailure _ error settled) as [[cb2 fx'] r]. reflexivity.
  - destruct outcome as [res|error].
    + destruct (onSuccess _ res) as [[cb2 fx'] r]. reflexivity.
    + destruct (onFailure _ error settled) as [[cb2 fx'] r]. reflexivity.
Qed.

Lemma history_snoc evs ev cb :
  history (evs ++ [ev]) cb
  = (fst (happen ev (fst (history evs cb))),
     snd (history evs cb) ++ snd (happen ev (fst (history evs cb)))).
Proof.
  unfold history. rewrite fold_left_app. cbn [fold_left].
  destruct (happen ev _) as [cb' fx]. reflexivity.
Qed.

(** The configuration of a breaker: what no event changes. *)
Definition configuration cb : Z * Z * Z * Z :=
  (failureThreshold cb, successThreshold cb, timeout cb, monitoringPeriod cb).

Lemma happen_configuration ev cb :
  configuration (fst (happen ev cb)) = configuration cb.
Proof.
  destruct cb as [st fc sc na ft sth to mp].
  destruct ev as [now|[res|error] settled|now]; cbn.
  - unfold enter. cbn. destruct (State_eqb st OPEN); [destruct (now <? na)|];
      reflexivity.
  - unfold onSuccess. cbn. destruct (State_eqb st HALF_OPEN);
      [destruct (sth <=? sc + 1)|]; reflexivity.
  - unfold onFailure. cbn.
    destruct (State_eqb st HALF_OPEN || (ft <=? fc + 1)); reflexivity.
  - reflexivity.
Qed.

Lemma history_configuration evs cb :
  configuration (fst (history evs cb)) = configuration cb.
Proof.
  induction evs as [|ev evs IH] using rev_ind; [reflexivity|].
  rewrite history_snoc. cbn [fst]. rewrite happen_configuration. exact IH.
Qed.

(** What the counts of a breaker satisfy. *)
Definition within_thresholds cb : Prop :=
  0 <= failureCount cb
  /\ 0 <= successCount cb
  /\ (state cb = CLOSED ->
      failureCount cb < failureThreshold cb /\ successCount cb = 0)
  /\ (state cb = HALF_OPEN -> successCount cb < successThreshold cb).

Lemma happen_within_thresholds ev cb :
  0 < failureThreshold cb ->
  0 < successThreshold cb ->
  within_thresholds cb ->
  within_thresholds (fst (happen ev cb)).
Proof.
  destruct cb as [st fc sc na ft sth to mp]. unfold within_thresholds. cbn.
  intros Hft Hsth (Hfc & Hsc & Hclosed & Hhalf).
  destruct ev as [now|[res|error] settled|now]; cbn.
  - unfold enter. cbn.
    destruct st; cbn; [tauto| |tauto].
    destruct (now <? na); cbn; repeat split; try lia; try discriminate.
  - unfold onSuccess. cbn.
    destruct st; cbn.
    + repeat split; try lia; try discriminate. apply Hclosed. reflexivity.
    + repeat split; try lia; discriminate.
    + destruct (Z.leb_spec sth (sc + 1)); cbn; repeat split; try lia;
        try discriminate.
  - unfold onFailure. cbn.
    destruct st; cbn.
    + destruct (Z.leb_spec ft (fc + 1)); cbn; repeat split; try lia;
        try discriminate. apply Hclosed. reflexivity.
    + destruct (Z.leb_spec ft (fc + 1)); cbn; repeat split; try lia;
        discriminate.
    + repeat split; try lia; discriminate.
  - repeat split; try lia; discriminate.
Qed.

Lemma or_default_positive (x : option Z) (d : Z) :
  0 < d -> (forall v, x = Some v -> 0 <= v) -> 0 < or_default x d.
Proof.
  intros Hd Hx. unfold or_default. destruct x as [v|]; [|exact Hd].
  specialize (Hx v eq_refl). destruct (Z.eqb_spec v 0); lia.
Qed.

Lemma happen_announced ev cb :
  state (fst (happen ev cb)) = announced (state cb) (snd (happen ev cb)).
Proof.
  destruct cb as [st fc sc na ft sth to mp].
  destruct ev as [now|[res|error] settled|now]; cbn.
  - unfold enter. cbn. destruct st; cbn; try reflexivity.
    destruct (now <? na); reflexivity.
  - unfold onSuccess. cbn. destruct st; cbn; try reflexivity.
    destruct (sth <=? sc + 1); reflexivity.
  - unfold onFailure. cbn. destruct st; cbn; try reflexivity;
      destruct (ft <=? fc + 1); reflexivity.
  - reflexivity.
Qed.

Lemma announced_app s fx fx' :
  announced s (fx ++ fx') = announced (announced s fx) fx'.
Proof.
  revert s. induction fx as [|[|s'] fx IH]; intros s; cbn; auto.
Qed.

Lemma calls_snoc cb (l : list (Z * Outcome R E * Z)) now outcome settled :
  calls cb (l ++ [(now, outcome, settled)])
  = after (call (calls cb l) now outcome settled).
Proof. unfold calls. rewrite fold_left_app. reflexivity. Qed.

Lemma rejected_in_a_row_snoc (l : list (Z * Outcome R E * Z)) now outcome
      settled :
  rejected_in_a_row (l ++ [(now, outcome, settled)])
  = match outcome with
    | Rejected _ => 1 + rejected_in_a_row l
    | Resolved _ => 0
    end.
Proof.
  unfold rejected_in_a_row. rewrite rev_app_distr. cbn.
  destruct outcome; reflexivity.
Qed.

End Histories.

(** X1.  Whatever happens to a breaker built by the constructor from
    thresholds that are not negative (calls that enter, requests that
    settle in any order, also of calls that overlap, and resets), its
    counts stay in range: neither count is negative; while the breaker
    is CLOSED the failure count is below the failure threshold and the
    success count is 0; while it is HALF_OPEN the success count is below
    the success threshold. *)
Theorem the_counts_stay_below_the_thresholds (R E : Type) (options : Options)
        (t0 : Z) (evs : list (Event R E)) :
  (forall v, opt_failureThreshold options = Some v -> 0 <= v) ->
  (forall v, opt_successThreshold options = Some v -> 0 <= v) ->
  let cb := fst (history evs (new options t0)) in
  0 <= failureCount cb
  /\ 0 <= successCount cb
  /\ (state cb = CLOSED ->
      failureCount cb < failureThreshold cb /\ successCount cb = 0)
  /\ (state cb = HALF_OPEN -> successCount cb < successThreshold cb).
Proof.
  intros Hf Hs.
  assert (Hft : 0 < failureThreshold (new options t0))
    by (apply or_default_positive; [lia | exact Hf]).
  assert (Hst : 0 < successThreshold (new options t0))
    by (apply or_default_positive; [lia | exact Hs]).
  induction evs as [|ev evs IH] using rev_ind.
  - cbn. repeat split; try lia; try discriminate.
    apply or_default_positive; [lia | exact Hf].
  - cbn zeta in *. rewrite history_snoc. cbn [fst].
    pose proof (history_configuration R E evs (new options t0)) as Hc.
    unfold configuration in Hc. injection Hc as H1 H2 _ _.
    apply happen_within_thresholds; [rewrite H1 | rewrite H2 | ]; assumption.
Qed.

Lemma the_counts_stay_below_the_thresholds_witness :
  let cb := fst (history (R:=unit) (E:=unit)
                   [Enters 1; Enters 2; Settles (Rejected tt) 3;
                    Settles (Resolved tt) 4; Enters 5; Settles (Rejected tt) 6]
                   (new (mkOptions (Some 2) None None None) 0)) in
  0 <= failureCount cb
  /\ 0 <= successCount cb
  /\ (state cb = CLOSED ->
      failureCount cb < failureThreshold cb /\ successCount cb = 0)
  /\ (state cb = HALF_OPEN -> successCount cb < successThreshold cb).
Proof.
  apply (the_counts_stay_below_the_thresholds unit unit).
  - cbn. intros v [= <-]. lia.
  - cbn. intros v [=].
Defined.

(** X2.  Every change of [state] is announced to [onStateChange]: after
    any calls, settlements and resets, the state of the breaker is the
    one of the last announcement, and the state it started from when
    there was none. *)
Theorem the_state_is_the_last_one_announced (R E : Type) (cb : t)
        (evs : list (Event R E)) :
  state (fst (history evs cb)) = announced (state cb) (snd (history evs cb)).
Proof.
  induction evs as [|ev evs IH] using rev_ind; [reflexivity|].
  rewrite history_snoc. cbn [fst snd].
  rewrite announced_app, <- IH. apply happen_announced.
Qed.

(** X3.  The failures counted are consecutive ones: after calls made
    one after the other on a new breaker, when the breaker is CLOSED its
    failure count is the number of calls at the end of the run whose
    requests were rejected, none of them between the last request that
    resolved and now. *)
Theorem failures_are_counted_since_the_last_success (R E : Type)
        (options : Options) (t0 : Z) (l : list (Z * Outcome R E * Z)) :
  state (calls (new options t0) l) = CLOSED ->
  failureCount (calls (new options t0) l) = rejected_in_a_row l.
Proof.
  induction l as [|[[now outcome] settled] l IH] using rev_ind.
  - reflexivity.
  - rewrite calls_snoc, rejected_in_a_row_snoc.
    destruct (calls (new options t0) l) as [st fc sc na ft sth to mp].
    cbn -[Z.add rejected_in_a_row] in IH.
    unfold call. cbn [state nextAttempt].
    destruct st; cbn [State_eqb].
    + destruct outcome as [res|error]; cbn -[Z.add rejected_in_a_row].
      * reflexivity.
      * unfold onFailure. cbn -[Z.add rejected_in_a_row].
        destruct (ft <=? fc + 1); cbn -[Z.add rejected_in_a_row];
          [discriminate|].
        intros _. specialize (IH eq_refl). lia.
    + destruct (now <? na); [cbn -[Z.add rejected_in_a_row]; discriminate|].
      destruct outcome as [res|error]; cbn -[Z.add rejected_in_a_row].
      * unfold onSuccess. cbn -[Z.add rejected_in_a_row].
        destruct (sth <=? 0 + 1); cbn -[Z.add rejected_in_a_row];
          reflexivity.
      * discriminate.
    + destruct outcome as [res|error]; cbn -[Z.add rejected_in_a_row].
      * unfold onSuccess. cbn -[Z.add rejected_in_a_row].
        destruct (sth <=? sc + 1); cbn -[Z.add rejected_in_a_row];
          reflexivity.
      * discriminate.
Qed.

Lemma failures_are_counted_since_the_last_success_witness :
  failureCount
    (calls (R:=unit) (E:=unit) (new no_options 0)
           [ (1, Rejected tt, 2); (3, Resolved tt, 4); (5, Rejected tt, 6);
             (7, Rejected tt, 8) ])
  = rejected_in_a_row
      (R:=unit) (E:=unit)
      [ (1, Rejected tt, 2); (3, Resolved tt, 4); (5, Rejected tt, 6);
        (7, Rejected tt, 8) ].
Proof.
  apply (failures_are_counted_since_the_last_success unit unit).
  reflexivity.
Defined.

(** X4.  [reset] gives the breaker that the constructor gives with the
    same options at that time, whatever has happened to the breaker
    before: CLOSED, both counts 0, the next attempt now, the four
    settings as they were configured. *)
Theorem reset_gives_the_breaker_of_the_constructor (R E : Type)
        (options : Options) (t0 : Z) (evs : list (Event R E)) (now : Z) :
  fst (reset (fst (history evs (new options t0))) now) = new options now.
Proof.
  pose proof (history_configuration R E evs (new options t0)) as Hc.
  destruct (fst (history evs (new options t0))) as [st fc sc na ft sth to mp].
  unfold configuration in Hc. cbn in Hc. injection Hc as -> -> -> ->.
  reflexivity.
Qed.

End CircuitBreakerFacts.

(* ================================================================== *)
(** * Facts about the message broker *)
(* ================================================================== *)

Module MessageBrokerFacts.

Import Js MessageBroker.
Open Scope string_scope.

(** ** The JSON round trip *)

(** What [JSON.parse(JSON.stringify(o)).k] is for a property [k] of an
    object: [undefined] stays away, anything else is its own round
    trip. *)
Definition arrives (v : value) : value :=
  match v with
  | VUndefined => VUndefined
  | _ => jsonify v
  end.

Lemma value_undefined (v : value) : v = VUndefined \/ v <> VUndefined.
Proof. destruct v; [left; reflexivity | right; discriminate ..]. Qed.

(** The properties that [JSON.stringify] writes. *)
Definition entries : list (string * value) -> list (string * value) :=
  fix each (ps : list (string * value)) : list (string * value) :=
    match ps with
    | [] => []
    | (k, x) :: rest =>
        match x with
        | VUndefined => each rest
        | _ => (k, jsonify x) :: each rest
        end
    end.

Lemma jsonify_object props : jsonify (VObj props) = VObj (entries props).
Proof. reflexivity. Qed.

Lemma jsonify_defined v : jsonify v <> VUndefined.
Proof. destruct v; discriminate. Qed.

Lemma entries_defined k x rest :
  x <> VUndefined -> entries ((k, x) :: rest) = (k, jsonify x) :: entries rest.
Proof. destruct x; intros Hx; try reflexivity. contradiction. Qed.

Lemma jsonify_idempotent : forall v, jsonify (jsonify v) = jsonify v.
Proof.
  fix IH 1. intros [| |b|n| |s|items|props]; try reflexivity.
  - cbn [jsonify]. f_equal. rewrite map_map.
    induction items as [|x rest IHl]; cbn [map]; [reflexivity|].
    rewrite (IH x), IHl. reflexivity.
  - rewrite !jsonify_object. f_equal.
    induction props as [|[k x] rest IHl]; [reflexivity|].
    destruct (value_undefined x) as [->|Hx]; [exact IHl|].
    rewrite (entries_defined k x rest Hx).
    rewrite (entries_defined _ _ _ (jsonify_defined x)).
    rewrite (IH x), IHl. reflexivity.
Qed.


(** The message that arrives when [publish] has sent [data]. *)
Lemma envelope_arrives id t data :
  jsonify (envelope id t data)
  = VObj (("id", VStr id) :: ("timestamp", VStr (toISOString t))
          :: match data with
             | VUndefined => []
             | _ => [("data", jsonify data)]
             end).
Proof. destruct data; reflexivity. Qed.

Lemma envelope_data id t data :
  get (jsonify (envelope id t data)) "data" = arrives data.
Proof. rewrite envelope_arrives. destruct data; reflexivity. Qed.

Lemma envelope_id id t data :
  get (jsonify (envelope id t data)) "id" = VStr id.
Proof. rewrite envelope_arrives. reflexivity. Qed.

(** ** Handling a message *)

Section Handling.

Variables H W : Type.
Variable invoke : H -> value -> value -> W -> (error + unit) * W.

Implicit Types (b : t H) (w : W).

(** What [handleMessage] does to what the handlers act on: each handler
    in turn. *)
Definition each_in_turn (data message : value) (handlers : list H) w : W :=
  fold_left (fun w handler => snd (invoke handler data message w)) handlers w.

Lemma log_fields line b :
  eventHandlers (log line b) = eventHandlers b
  /\ carried_out (log line b) = carried_out b
  /\ isConnected (log line b) = isConnected b.
Proof. repeat split. Qed.

Lemma handle_each channel document handlers :
  nullish document = false ->
  forall b w,
    let r := fold_left
               (fun (x : t H * W) handler =>
                  let '(b, w) := x in
                  match member document "data" with
                  | inl _ =>
                      (log ("[MessageBroker] Handler error for " ++ channel
                            ++ ":") b, w)
                  | inr data =>
                      match invoke handler data document w with
                      | (inr _, w') => (b, w')
                      | (inl _, w') =>
                          (log ("[MessageBroker] Handler error for "
                                ++ channel ++ ":") b, w')
                      end
                  end)
               handlers (b, w) in
    snd r = each_in_turn (get document "data") document handlers w
    /\ eventHandlers (fst r) = eventHandlers b
    /\ carried_out (fst r) = carried_out b
    /\ isConnected (fst r) = isConnected b.
Proof.
  intros Hd. unfold member. rewrite Hd.
  induction handlers as [|handler rest IH]; intros b w.
  - cbn. auto.
  - cbn [fold_left each_in_turn].
    destruct (invoke handler (get document "data") document w) as [[e|[]] w'];
      cbn [snd].
    + destruct (IH (log ("[MessageBroker] Handler error for " ++ channel
                         ++ ":") b) w') as (H1 & H2 & H3 & H4).
      repeat split; assumption.
    + apply IH.
Qed.

Lemma handle_none channel (e : error) handlers :
  forall b w,
    let r := fold_left
               (fun (x : t H * W) (handler : H) =>
                  let '(b, w) := x in
                  (log ("[MessageBroker] Handler error for " ++ channel
                        ++ ":") b, w))
               handlers (b, w) in
    snd r = w
    /\ eventHandlers (fst r) = eventHandlers b
    /\ carried_out (fst r) = carried_out b
    /\ List.length (console (fst r))
       = (List.length (console b) + List.length handlers)%nat.
Proof.
  induction handlers as [|handler rest IH]; intros b w.
  - cbn. repeat split; auto.
  - cbn [fold_left List.length].
    destruct (IH (log ("[MessageBroker] Handler error for " ++ channel
                       ++ ":") b) w) as (H1 & H2 & H3 & H4).
    repeat split; try assumption.
    cbn zeta in H4. rewrite H4. cbn [log console]. rewrite length_app. cbn.
    lia.
Qed.

End Handling.

(** X5.  A message that arrives is handed to every handler of its
    channel, in the order of subscription, each with the [data] of the
    message and the message; a handler that throws does not keep the
    next one from being called.  A text that is no JSON is logged once
    and reaches no handler; neither does the text "null", which is
    logged once for each handler.  Handling a message changes neither
    the handlers nor what Redis was asked. *)
Theorem every_handler_of_the_channel_is_called (H W : Type)
        (invoke : H -> value -> value -> W -> (error + unit) * W)
        (channel : string) (b : t H) (w : W) :
  (forall characters,
      handleMessage invoke channel (Malformed characters) b w
      = (log ("[MessageBroker] Message parsing error for " ++ channel ++ ":") b,
         w))
  /\ (forall document,
         nullish document = true ->
         let r := handleMessage invoke channel (Json document) b w in
         snd r = w
         /\ eventHandlers (fst r) = eventHandlers b
         /\ List.length (console (fst r))
            = (List.length (console b)
               + List.length (handlers_of channel b))%nat)
  /\ (forall document,
         nullish document = false ->
         let r := handleMessage invoke channel (Json document) b w in
         snd r = fold_left
                   (fun w handler =>
                      snd (invoke handler (get document "data") document w))
                   (handlers_of channel b) w
         /\ eventHandlers (fst r) = eventHandlers b
         /\ carried_out (fst r) = carried_out b).
Proof.
  split; [|split].
  - reflexivity.
  - intros document Hn r. subst r. unfold handleMessage. cbn [JSON_parse].
    unfold member. rewrite Hn.
    destruct (handle_none H W channel (Error "") (handlers_of channel b) b w)
      as (H1 & H2 & _ & H4).
    repeat split; assumption.
  - intros document Hn r. subst r. unfold handleMessage. cbn [JSON_parse].
    destruct (handle_each H W invoke channel document (handlers_of channel b)
                          Hn b w) as (H1 & H2 & H3 & _).
    repeat split; assumption.
Qed.

Lemma every_handler_of_the_channel_is_called_witness :
  let invoke := fun (handler : nat) (data message : value) (w : list nat) =>
                  (if (handler =? 2)%nat
                   then inl (Error "handler failed") else inr tt,
                   (w ++ [handler])%list) in
  let b := mk true true [("order.created", [1; 2; 3]%nat)] true [] 0 [] in
  let document := VObj [("id", VStr "m1"); ("data", VNum 7)] in
  handleMessage invoke "order.created" (Malformed "{") b []
  = (log "[MessageBroker] Message parsing error for order.created:" b, [])
  /\ (let r := handleMessage invoke "order.created" (Json VNull) b [] in
      snd r = []
      /\ eventHandlers (fst r) = eventHandlers b
      /\ List.length (console (fst r))
         = (List.length (console b)
            + List.length (handlers_of "order.created" b))%nat)
  /\ (let r := handleMessage invoke "order.created" (Json document) b [] in
      snd r = fold_left
                (fun w handler =>
                   snd (invoke handler (get document "data") document w))
                (handlers_of "order.created" b) []
      /\ eventHandlers (fst r) = eventHandlers b
      /\ carried_out (fst r) = carried_out b).
Proof.
  intros invoke b document.
  destruct (every_handler_of_the_channel_is_called
              nat (list nat) invoke "order.created" b []) as (H1 & H2 & H3).
  split; [apply H1 | split; [apply H2 | apply H3]]; reflexivity.
Defined.

(** X6.  What is published arrives: when the sender is connected and
    Redis accepts, [publish] asks Redis once, for the channel and the
    JSON text of an envelope with a fresh id, the time and the data; a
    broker that receives this text calls every handler of the channel
    with the data as JSON carries it (a property that is [undefined] is
    gone, [undefined] itself arrives as [undefined]) and with the
    envelope. *)
Theorem a_handler_gets_what_was_published (H W : Type)
        (invoke : H -> value -> value -> W -> (error + unit) * W)
        (channel : string) (data : value) (env : Env) (sender receiver : t H)
        (w : W) :
  let id := random env (draws sender) in
  let message := JSON_stringify (envelope id (now env) data) in
  isConnected sender = true ->
  refuses env (Publish channel message) = false ->
  let data' := match data with
               | VUndefined => VUndefined
               | _ => jsonify data
               end in
  let message' :=
    VObj (("id", VStr id) :: ("timestamp", VStr (toISOString (now env)))
          :: match data with
             | VUndefined => []
             | _ => [("data", jsonify data)]
             end) in
  fst (publish channel data env sender) = inr tt
  /\ carried_out (snd (publish channel data env sender))
     = (carried_out sender ++ [Publish channel message])%list
  /\ snd (handleMessage invoke channel message receiver w)
     = fold_left (fun w handler => snd (invoke handler data' message' w))
                 (handlers_of channel receiver) w.
Proof.
  intros id message Hc Hp data' message'.
  split; [|split].
  - unfold publish. rewrite Hc. cbn [negb generateId].
    fold id. fold message. rewrite Hp. reflexivity.
  - unfold publish. rewrite Hc. cbn [negb generateId].
    fold id. fold message. rewrite Hp. reflexivity.
  - subst message. unfold JSON_stringify.
    unfold handleMessage. cbn [JSON_parse].
    destruct (handle_each H W invoke channel
                (jsonify (envelope id (now env) data))
                (handlers_of channel receiver)) with (b := receiver) (w := w)
      as (H1 & _).
    { rewrite envelope_arrives. reflexivity. }
    rewrite H1. unfold each_in_turn. rewrite envelope_data.
    rewrite envelope_arrives. reflexivity.
Qed.


Lemma a_handler_gets_what_was_published_witness :
  let invoke := fun (handler : nat) (data message : value) (w : list value) =>
                  (@inr error unit tt, (w ++ [data])%list) in
  let channel := "order.created" in
  let data := VObj [("orderId", VNum 1); ("coupon", VUndefined)] in
  let env := mkEnv 1000 (fun _ => "k3j9x0q1z") (fun _ => false) in
  let sender := mk (H:=nat) true true [] true [] 0 [] in
  let receiver := mk true true [("order.created", [1; 2]%nat)] true [] 0 [] in
  let w := @nil value in
  let id := random env (draws sender) in
  let message := JSON_stringify (envelope id (now env) data) in
  let data' := match data with
               | VUndefined => VUndefined
               | _ => jsonify data
               end in
  let message' :=
    VObj (("id", VStr id) :: ("timestamp", VStr (toISOString (now env)))
          :: match data with
             | VUndefined => []
             | _ => [("data", jsonify data)]
             end) in
  fst (publish channel data env sender) = inr tt
  /\ carried_out (snd (publish channel data env sender))
     = (carried_out sender ++ [Publish channel message])%list
  /\ snd (handleMessage invoke channel message receiver w)
     = fold_left (fun w handler => snd (invoke handler data' message' w))
                 (handlers_of channel receiver) w.
Proof.
  intros invoke channel data env sender receiver w.
  apply (a_handler_gets_what_was_published
           nat (list value) invoke channel data env sender receiver w);
    reflexivity.
Defined.

(** ** Subscribing and unsubscribing *)

Section Subscriptions.

Variable H : Type.
Variable same : H -> H -> bool.
Hypothesis same_spec : forall x y, same x y = true <-> x = y.

Implicit Types (b : t H) (m : list (string * list H)).

Lemma Map_set_absent {V : Type} k (v : V) (m : list (string * V)) :
  assoc k m = None -> Map_set k v m = (m ++ [(k, v)])%list.
Proof.
  induction m as [|[k' v'] rest IH]; cbn [assoc Map_set app]; [reflexivity|].
  destruct (k' =? k); [discriminate|]. intros Hn. rewrite IH; auto.
Qed.

Lemma Map_set_twice {V : Type} k (v v' : V) (m : list (string * V)) :
  Map_set k v (Map_set k v' m) = Map_set k v m.
Proof.
  induction m as [|[k' x] rest IH]; cbn [Map_set].
  - rewrite String.eqb_refl. reflexivity.
  - destruct (k' =? k) eqn:Hk; cbn [Map_set].
    + rewrite String.eqb_refl. reflexivity.
    + rewrite Hk, IH. reflexivity.
Qed.

Lemma Map_set_same {V : Type} k (v : V) (m : list (string * V)) :
  assoc k m = Some v -> Map_set k v m = m.
Proof.
  induction m as [|[k' x] rest IH]; cbn [assoc Map_set]; [discriminate|].
  destruct (String.eqb_spec k' k) as [->|Hk].
  - intros [= ->]. reflexivity.
  - intros Hs. rewrite IH; auto.
Qed.

Lemma assoc_Map_set {V : Type} k (v : V) (m : list (string * V)) :
  assoc k (Map_set k v m) = Some v.
Proof.
  induction m as [|[k' x] rest IH]; cbn [Map_set assoc].
  - rewrite String.eqb_refl. reflexivity.
  - destruct (k' =? k) eqn:Hk; cbn [assoc].
    + rewrite String.eqb_refl. reflexivity.
    + rewrite Hk. exact IH.
Qed.

Lemma Map_delete_absent {V : Type} k (m : list (string * V)) :
  assoc k m = None -> Map_delete k m = m.
Proof.
  unfold Map_delete.
  induction m as [|[k' x] rest IH]; cbn [assoc filter fst]; [reflexivity|].
  destruct (k' =? k); [discriminate|]. cbn [negb]. intros Hn.
  rewrite IH; auto.
Qed.

Lemma Map_delete_added {V : Type} k (v : V) (m : list (string * V)) :
  assoc k m = None -> Map_delete k (m ++ [(k, v)]) = m.
Proof.
  intros Hn. unfold Map_delete. rewrite filter_app. cbn [filter fst].
  rewrite String.eqb_refl. cbn [negb]. rewrite app_nil_r.
  apply Map_delete_absent, Hn.
Qed.

Lemma remove_first_added handler (l : list H) :
  ~ In handler l -> remove_first same handler (l ++ [handler]) = l.
Proof.
  induction l as [|x rest IH]; cbn [app remove_first In]; intros Hn.
  - destruct (same handler handler) eqn:Hs; [reflexivity|].
    assert (same handler handler = true) by (apply same_spec; reflexivity).
    congruence.
  - destruct (same x handler) eqn:Hs.
    + apply same_spec in Hs. tauto.
    + rewrite IH; tauto.
Qed.

End Subscriptions.

(** X7.  [unsubscribe] undoes [subscribe]: on a connected broker, for a
    handler that is not yet among the handlers of the channel (whose
    list is not an empty one left behind), when Redis accepts,
    subscribing adds the handler after the others, and unsubscribing it
    again leaves the handlers of every channel as they were before.
    Redis is asked to subscribe and to unsubscribe when the channel had
    no handler, and is asked nothing when it had one. *)
Theorem unsubscribe_undoes_subscribe (H : Type) (same : H -> H -> bool)
        (channel : string) (handler : H) (env : Env) (b : t H) :
  (forall x y, same x y = true <-> x = y) ->
  isConnected b = true ->
  refuses env (Subscribe channel) = false ->
  refuses env (Unsubscribe channel) = false ->
  assoc channel (eventHandlers b) <> Some [] ->
  ~ In handler (handlers_of channel b) ->
  let subscribed := subscribe channel handler env b in
  let unsubscribed := unsubscribe same channel handler env (snd subscribed) in
  fst subscribed = inr tt
  /\ handlers_of channel (snd subscribed)
     = (handlers_of channel b ++ [handler])%list
  /\ fst unsubscribed = inr tt
  /\ eventHandlers (snd unsubscribed) = eventHandlers b
  /\ carried_out (snd unsubscribed)
     = (carried_out b
        ++ if Map_has channel (eventHandlers b) then []
           else [Subscribe channel; Unsubscribe channel])%list.
Proof.
  intros Hsame Hc Hs Hu Hne Hin subscribed unsubscribed.
  subst unsubscribed subscribed. unfold subscribe. rewrite Hc. cbn [negb].
  unfold handlers_of in Hin |- *. unfold Map_has.
  destruct (assoc channel (eventHandlers b)) as [l|] eqn:Ha.
  - (* the channel has handlers *)
    cbn [snd fst]. unfold push, handlers_of. rewrite Ha.
    cbn [set_eventHandlers eventHandlers].
    rewrite assoc_Map_set. split; [reflexivity|]. split; [reflexivity|].
    unfold unsubscribe. cbn [eventHandlers set_eventHandlers].
    rewrite assoc_Map_set, (remove_first_added H same Hsame handler l Hin).
    rewrite Map_set_twice, (Map_set_same _ _ _ Ha).
    destruct l as [|x rest]; [congruence|].
    cbn. rewrite app_nil_r. auto.
  - (* the channel is new *)
    rewrite Hs. cbn [snd fst]. unfold push, handlers_of.
    cbn [set_eventHandlers eventHandlers did log].
    rewrite assoc_Map_set, Map_set_twice.
    rewrite assoc_Map_set. split; [reflexivity|]. split; [reflexivity|].
    unfold unsubscribe. cbn [eventHandlers set_eventHandlers].
    rewrite assoc_Map_set. cbn [app remove_first].
    assert (Hh : same handler handler = true) by (apply Hsame; reflexivity).
    rewrite Hh, Hu. cbn [fst snd eventHandlers set_eventHandlers did log
                         carried_out].
    rewrite Map_set_twice, (Map_set_absent _ _ _ Ha), (Map_delete_added _ _ _ Ha).
    rewrite <- app_assoc. auto.
Qed.

Lemma unsubscribe_undoes_subscribe_witness :
  let channel := "order.created" in
  let handler := 7%nat in
  let env := mkEnv 1000 (fun _ => "k3j9x0q1z") (fun _ => false) in
  let b := mk true true [("user.created", [1%nat])] true [] 0 [] in
  let subscribed := subscribe channel handler env b in
  let unsubscribed := unsubscribe Nat.eqb channel handler env (snd subscribed) in
  fst subscribed = inr tt
  /\ handlers_of channel (snd subscribed)
     = (handlers_of channel b ++ [handler])%list
  /\ fst unsubscribed = inr tt
  /\ eventHandlers (snd unsubscribed) = eventHandlers b
  /\ carried_out (snd unsubscribed)
     = (carried_out b
        ++ if Map_has channel (eventHandlers b) then []
           else [Subscribe channel; Unsubscribe channel])%list.
Proof.
  intros channel handler env b.
  apply (unsubscribe_undoes_subscribe nat Nat.eqb channel handler env b).
  - intros x y. apply Nat.eqb_eq.
  - reflexivity.
  - reflexivity.
  - reflexivity.
  - discriminate.
  - intros [].
Defined.

(** X8.  A subscription that Redis refuses leaves the channel behind
    with an empty list of handlers: the call throws and its handler is
    not kept, and the next [subscribe] to that channel succeeds without
    asking Redis at all, so its handler is kept for a channel that Redis
    never delivers. *)
Theorem a_refused_subscription_is_not_asked_again (H : Type)
        (channel : string) (first second : H) (env env' : Env) (b : t H) :
  isConnected b = true ->
  Map_has channel (eventHandlers b) = false ->
  refuses env (Subscribe channel) = true ->
  let failed := subscribe channel first env b in
  let later := subscribe channel second env' (snd failed) in
  (exists e, fst failed = inl e)
  /\ handlers_of channel (snd failed) = []
  /\ fst later = inr tt
  /\ handlers_of channel (snd later) = [second]
  /\ carried_out (snd later) = carried_out b.
Proof.
  intros Hc Hn Hr failed later.
  assert (Hf : failed
               = (inl (Error "subscribe failed"),
                  set_eventHandlers (Map_set channel [] (eventHandlers b)) b)).
  { subst failed. unfold subscribe. rewrite Hc, Hn, Hr. reflexivity. }
  subst later. rewrite Hf. cbn [fst snd].
  split; [eauto|].
  split; [unfold handlers_of; cbn [eventHandlers set_eventHandlers];
          rewrite assoc_Map_set; reflexivity|].
  unfold subscribe. cbn [isConnected set_eventHandlers eventHandlers].
  rewrite Hc. cbn [negb]. unfold Map_has. rewrite assoc_Map_set.
  cbn [fst snd]. unfold push, handlers_of.
  cbn [eventHandlers set_eventHandlers carried_out].
  rewrite !assoc_Map_set. cbn. auto.
Qed.

Lemma a_refused_subscription_is_not_asked_again_witness :
  let channel := "order.created" in
  let env := mkEnv 1000 (fun _ => "k3j9x0q1z")
                   (fun c => match c with
                             | Subscribe _ => true
                             | _ => false
                             end) in
  let env' := mkEnv 2000 (fun _ => "k3j9x0q1z") (fun _ => false) in
  let b := mk (H:=nat) true true [] true [] 0 [] in
  let failed := subscribe channel 1%nat env b in
  let later := subscribe channel 2%nat env' (snd failed) in
  (exists e, fst failed = inl e)
  /\ handlers_of channel (snd failed) = []
  /\ fst later = inr tt
  /\ handlers_of channel (snd later) = [2%nat]
  /\ carried_out (snd later) = carried_out b.
Proof.
  intros channel env env' b.
  apply (a_refused_subscription_is_not_asked_again
           nat channel 1%nat 2%nat env env' b);
    reflexivity.
Defined.

(** ** The life of a broker *)

Section Life.

Variable H : Type.
Variable same : H -> H -> bool.

(** What a service calls on its broker. *)
Inductive Use : Type :=
| UseConnect
| UsePublish (channel : string) (data : value)
| UseSubscribe (channel : string) (handler : H)
| UseUnsubscribe (channel : string) (handler : H)
| UseDisconnect
| UseIsHealthy.

Definition use (u : Use) (env : Env) (b : t H) : t H :=
  match u with
  | UseConnect => snd (connect env b)
  | UsePublish channel data => snd (publish channel data env b)
  | UseSubscribe channel handler => snd (subscribe channel handler env b)
  | UseUnsubscribe channel handler =>
      snd (unsubscribe same channel handler env b)
  | UseDisconnect => snd (disconnect env b)
  | UseIsHealthy => snd (isHealthy env b)
  end.

(** The broker after the calls, each under the environment it finds and
    each run to its end before the next. *)
Definition uses (l : list (Use * Env)) (b : t H) : t H :=
  fold_left (fun b x => use (fst x) (snd x) b) l b.

(** The commands that [publish], [subscribe] and [isHealthy] send. *)
Definition guarded (c : Command) : Prop :=
  match c with
  | Publish _ _ | Subscribe _ | Ping => True
  | _ => False
  end.

Definition both_connected (l : list Command) : Prop :=
  In (Connect Publisher) l /\ In (Connect Subscriber) l.

(** What a call adds to the commands carried out. *)
Definition adds (b b' : t H) : Prop :=
  exists added,
    carried_out b' = (carried_out b ++ added)%list
    /\ (forall c, In c added -> guarded c -> isConnected b = true)
    /\ (isConnected b' = true ->
        isConnected b = true \/ both_connected added).

Lemma use_adds u env b : adds b (use u env b).
Proof.
  unfold adds.
  destruct u as [|channel data|channel handler|channel handler| |];
    cbn [use].
  - unfold connect.
    destruct (refuses env (Connect Publisher)).
    + exists []. cbn. rewrite app_nil_r. intuition.
    + destruct (refuses env (Connect Subscriber)).
      * exists [Connect Publisher]. cbn.
        split; [reflexivity|]. split; [|auto].
        intros c [<-|[]] [].
      * exists [Connect Publisher; Connect Subscriber]. cbn.
        rewrite <- app_assoc. split; [reflexivity|]. split.
        -- intros c [<-|[<-|[]]] [].
        -- intros _. right. unfold both_connected. cbn. auto.
  - unfold publish. destruct (isConnected b) eqn:Hc; cbn [negb].
    + cbn [generateId]. destruct (refuses env _).
      * exists []. cbn. rewrite app_nil_r. intuition.
      * eexists [_]. cbn. split; [reflexivity|]. auto.
    + exists []. cbn. rewrite app_nil_r, Hc. intuition.
  - unfold subscribe. destruct (isConnected b) eqn:Hc; cbn [negb].
    + destruct (Map_has channel (eventHandlers b)).
      * exists []. cbn. rewrite app_nil_r. intuition.
      * destruct (refuses env _).
        -- exists []. cbn. rewrite app_nil_r. intuition.
        -- eexists [_]. cbn. split; [reflexivity|]. auto.
    + exists []. cbn. rewrite app_nil_r, Hc. intuition.
  - unfold unsubscribe.
    destruct (assoc channel (eventHandlers b)) as [handlers|].
    + destruct (remove_first same handler handlers).
      * destruct (refuses env _).
        -- exists []. cbn. rewrite app_nil_r. intuition.
        -- exists [Unsubscribe channel]. cbn.
           split; [reflexivity|]. split; [|auto].
           intros c [<-|[]] [].
      * exists []. cbn. rewrite app_nil_r. intuition.
    + exists []. cbn. rewrite app_nil_r. intuition.
  - unfold disconnect.
    destruct (publisher b) eqn:Hp; cbn [andb].
    + destruct (refuses env (Quit Publisher)).
      * exists []. cbn. rewrite app_nil_r. intuition.
      * cbn [did subscriber]. destruct (subscriber b); cbn [andb].
        -- destruct (refuses env (Quit Subscriber)).
           ++ exists [Quit Publisher]. cbn.
              split; [reflexivity|]. split; [|auto].
              intros c [<-|[]] [].
           ++ exists [Quit Publisher; Quit Subscriber]. cbn.
              rewrite <- app_assoc. split; [reflexivity|].
              split; [|discriminate].
              intros c [<-|[<-|[]]] [].
        -- exists [Quit Publisher]. cbn.
           split; [reflexivity|]. split; [|discriminate].
           intros c [<-|[]] [].
    + destruct (subscriber b); cbn [andb].
      * destruct (refuses env (Quit Subscriber)).
        -- exists []. cbn. rewrite app_nil_r. intuition.
        -- exists [Quit Subscriber]. cbn.
           split; [reflexivity|]. split; [|discriminate].
           intros c [<-|[]] [].
      * exists []. cbn. rewrite app_nil_r. split; [reflexivity|].
        split; [intros c []|discriminate].
  - unfold isHealthy. destruct (isConnected b) eqn:Hc; cbn [negb].
    + destruct (publisher b); cbn [negb].
      * destruct (refuses env Ping).
        -- exists []. cbn. rewrite app_nil_r. intuition.
        -- exists [Ping]. cbn. split; [reflexivity|]. auto.
      * exists []. cbn. rewrite app_nil_r. intuition.
    + exists []. cbn. rewrite app_nil_r, Hc. intuition.
Qed.

(** What every broker satisfies that started disconnected. *)
Definition guarded_after_connecting (b : t H) : Prop :=
  (isConnected b = true -> both_connected (carried_out b))
  /\ (forall before c after,
         carried_out b = (before ++ c :: after)%list ->
         guarded c -> both_connected before).

Lemma both_connected_app l l' : both_connected l -> both_connected (l ++ l').
Proof. unfold both_connected. intros [? ?]. split; apply in_or_app; auto. Qed.

Lemma adds_guarded b b' :
  adds b b' -> guarded_after_connecting b -> guarded_after_connecting b'.
Proof.
  intros (added & Hadd & Hg & Hc) [Hconn Hbefore]. split.
  - intros Hc'. rewrite Hadd. destruct (Hc Hc') as [Hb|[Hp Hs]].
    + apply both_connected_app, Hconn, Hb.
    + split; apply in_or_app; auto.
  - intros before c after Heq Hgc. rewrite Hadd in Heq.
    apply app_eq_app in Heq. destruct Heq as [l [[H1 H2]|[H1 H2]]].
    + destruct l as [|x l].
      * cbn in H2. rewrite app_nil_r in H1. subst before.
        apply Hconn, (Hg c); [rewrite <- H2; left; reflexivity | exact Hgc].
      * cbn in H2. injection H2 as <- H2.
        apply (Hbefore before c l); [exact H1 | exact Hgc].
    + subst before. apply both_connected_app.
      apply Hconn, (Hg c); [|exact Hgc].
      rewrite H2. apply in_or_app. right. left. reflexivity.
Qed.

Lemma uses_guarded l :
  forall b, guarded_after_connecting b -> guarded_after_connecting (uses l b).
Proof.
  unfold uses. induction l as [|[u env] l IH]; intros b Hb; [exact Hb|].
  cbn [fold_left fst snd]. apply IH, (adds_guarded b); [apply use_adds | exact Hb].
Qed.

End Life.

Arguments UseConnect {H}.
Arguments UsePublish {H} _ _.
Arguments UseSubscribe {H} _ _.
Arguments UseUnsubscribe {H} _ _.
Arguments UseDisconnect {H}.
Arguments UseIsHealthy {H}.
Arguments use {H} _ _ _ _.
Arguments uses {H} _ _ _.

(** X9.  A broker asks Redis to publish, to subscribe or to ping only
    after connecting: in the commands carried out for a broker since its
    constructor, through any calls of [connect], [publish], [subscribe],
    [unsubscribe], [disconnect] and [isHealthy] made one after the
    other, every publish, subscribe and ping comes after a connect of
    the publisher and a connect of the subscriber. *)
Theorem a_broker_asks_only_after_connecting (H : Type) (same : H -> H -> bool)
        (l : list (Use H * Env)) (before after : list Command) (c : Command) :
  carried_out (uses same l new) = (before ++ c :: after)%list ->
  (exists channel message, c = Publish channel message)
  \/ (exists channel, c = Subscribe channel)
  \/ c = Ping ->
  In (Connect Publisher) before /\ In (Connect Subscriber) before.
Proof.
  intros Heq Hc.
  destruct (uses_guarded H same l new) as [_ Hb].
  { split; [discriminate|]. intros [|? ?] ? ? [=]. }
  apply (Hb before c after Heq).
  destruct Hc as [(channel & message & ->)|[(channel & ->)| ->]]; exact I.
Qed.

Lemma a_broker_asks_only_after_connecting_witness :
  In (Connect Publisher) [Connect Publisher; Connect Subscriber]
  /\ In (Connect Subscriber) [Connect Publisher; Connect Subscriber].
Proof.
  pose (env := mkEnv 1000 (fun _ => "k3j9x0q1z") (fun _ => false)).
  apply (a_broker_asks_only_after_connecting
           nat Nat.eqb
           [ (UseConnect, env); (UsePublish "order.created" (VNum 1), env) ]
           [Connect Publisher; Connect Subscriber]
           []
           (Publish "order.created"
                    (JSON_stringify (envelope "k3j9x0q1z" 1000 (VNum 1))))).
  - vm_compute. reflexivity.
  - left. exists "order.created".
    exists (JSON_stringify (envelope "k3j9x0q1z" 1000 (VNum 1))).
    reflexivity.
Defined.

End MessageBrokerFacts.


(* ================================================================== *)
(** * Facts about the event store *)
(* ================================================================== *)

Module EventStoreFacts.

Import Js EventStore.
Open Scope string_scope.

(** ** What a computation leaves as it is *)

Section Frame.

(** A relation between the store before and the store after, that holds
    when nothing happens and composes. *)
Variable P : Store -> Store -> Prop.
Hypothesis P_refl : forall s, P s s.
Hypothesis P_trans : forall a b c, P a b -> P b c -> P a c.

Definition keeps {A : Type} (m : M A) : Prop :=
  forall h s, P s (snd (m h s)).

Lemma keeps_ret {A : Type} (a : A) : keeps (ret a).
Proof. intros h s. apply P_refl. Qed.

Lemma keeps_throw {A : Type} (e : error) : keeps (@throw A e).
Proof. intros h s. apply P_refl. Qed.

Lemma keeps_lift {A : Type} (r : error + A) : keeps (lift r).
Proof. intros h s. apply P_refl. Qed.

Lemma keeps_host : keeps host.
Proof. intros h s. apply P_refl. Qed.

Lemma keeps_store : keeps store.
Proof. intros h s. apply P_refl. Qed.

Lemma keeps_sent (q : Statement) : keeps (sent q).
Proof. intros h s. unfold sent. destruct (refuses h q); apply P_refl. Qed.

Lemma keeps_bind {A B : Type} (m : M A) (k : A -> M B) :
  keeps m -> (forall a, keeps (k a)) -> keeps (bind m k).
Proof.
  intros Hm Hk h s. unfold bind. specialize (Hm h s).
  destruct (m h s) as [[e|a] s']; cbn in *; [assumption|].
  eapply P_trans; [eassumption | apply Hk].
Qed.

Lemma keeps_try_catch {A : Type} (m : M A) (handler : error -> M A) :
  keeps m -> (forall e, keeps (handler e)) -> keeps (try_catch m handler).
Proof.
  intros Hm Hh h s. unfold try_catch. specialize (Hm h s).
  destruct (m h s) as [[e|a] s']; cbn in *; [|assumption].
  eapply P_trans; [eassumption | apply Hh].
Qed.

Lemma keeps_for_each {A : Type} (l : list A) (body : A -> M unit) :
  (forall x, In x l -> keeps (body x)) -> keeps (for_each l body).
Proof.
  induction l as [|x rest IH]; intros Hb; cbn [for_each].
  - apply keeps_ret.
  - apply keeps_bind.
    + apply Hb. left. reflexivity.
    + intros _. apply IH. intros y Hy. apply Hb. right. exact Hy.
Qed.

Lemma keeps_if {A : Type} (b : bool) (m1 m2 : M A) :
  keeps m1 -> keeps m2 -> keeps (if b then m1 else m2).
Proof. destruct b; auto. Qed.

End Frame.

(** The relations that are kept. *)

(** The table of events and its sequence are as they were. *)
Definition same_events (s s' : Store) : Prop :=
  events s' = events s /\ last_sequence s' = last_sequence s.

(** Both tables are as they were. *)
Definition same_tables (s s' : Store) : Prop :=
  events s' = events s /\ last_sequence s' = last_sequence s
  /\ projections s' = projections s.

Lemma same_events_refl s : same_events s s.
Proof. split; reflexivity. Qed.

Lemma same_events_trans a b c :
  same_events a b -> same_events b c -> same_events a c.
Proof. unfold same_events. intros [] []. split; congruence. Qed.

Lemma same_tables_refl s : same_tables s s.
Proof. repeat split; reflexivity. Qed.

Lemma same_tables_trans a b c :
  same_tables a b -> same_tables b c -> same_tables a c.
Proof. unfold same_tables. intros (?&?&?) (?&?&?). repeat split; congruence. Qed.

Lemma same_tables_events s s' : same_tables s s' -> same_events s s'.
Proof. intros (?&?&?). split; assumption. Qed.

(** A projection whose fold writes to no table. *)
Definition reads_only (p : Projection) : Prop :=
  forall eventType eventData aggregateId,
    keeps same_tables (project p eventType eventData aggregateId).

Definition all_read_only (registry : Registry) : Prop :=
  forall entry, In entry registry -> reads_only (snd entry).

Ltac frame_with R T known :=
  repeat first [ match goal with |- forall _, _ => intro end
               | known
               | apply (keeps_ret _ R) | apply (keeps_throw _ R)
               | apply (keeps_lift _ R) | apply (keeps_host _ R)
               | apply (keeps_store _ R) | apply (keeps_sent _ R)
               | apply (keeps_bind _ T) | apply (keeps_try_catch _ T)
               | apply keeps_if | assumption ].

Ltac frame R T := frame_with R T ltac:(fail).

Ltac frame_tables := frame same_tables_refl same_tables_trans.
Ltac frame_events := frame same_events_refl same_events_trans.

Lemma console_log_tables line : keeps same_tables (console_log line).
Proof. intros h s. repeat split. Qed.

Lemma uuidv4_tables : keeps same_tables uuidv4.
Proof. intros h s. repeat split. Qed.

Lemma publish_tables channel data : keeps same_tables (publish channel data).
Proof. intros h s. unfold publish. destruct (broker_up h); repeat split. Qed.

Lemma keeps_tables_events {A : Type} (m : M A) :
  keeps same_tables m -> keeps same_events m.
Proof. intros H h s. apply same_tables_events, H. Qed.

Lemma getProjection_tables projectionName aggregateId :
  keeps same_tables (getProjection projectionName aggregateId).
Proof.
  unfold getProjection, select_projection, console_error.
  frame_tables; apply console_log_tables.
Qed.

Lemma user_summary_reads_only : reads_only user_summary.
Proof.
  intros eventType eventData aggregateId. cbn [project user_summary].
  frame_tables; apply getProjection_tables.
Qed.

Lemma order_summary_reads_only : reads_only order_summary.
Proof.
  intros eventType eventData aggregateId. cbn [project order_summary].
  frame_tables; apply getProjection_tables.
Qed.

Lemma analytics_reads_only : reads_only analytics.
Proof.
  intros eventType eventData aggregateId. cbn [project analytics].
  frame_tables; apply getProjection_tables.
Qed.

Lemma setupProjections_read_only : all_read_only setupProjections.
Proof.
  intros entry [<-|[<-|[<-|[]]]]; cbn [snd].
  - apply user_summary_reads_only.
  - apply order_summary_reads_only.
  - apply analytics_reads_only.
Qed.

Lemma saveProjection_events projectionName aggregateId data eventId :
  keeps same_events (saveProjection projectionName aggregateId data eventId).
Proof.
  unfold saveProjection, upsert_projection, console_error.
  frame_events.
Qed.

Lemma updateProjection_events eventType eventData eventId aggregateId entry :
  reads_only (snd entry) ->
  keeps same_events
        (updateProjection eventType eventData eventId aggregateId entry).
Proof.
  destruct entry as [projectionName projection]. cbn [snd]. intros Hro.
  unfold updateProjection, console_error.
  frame_events;
    first [ apply keeps_tables_events, Hro | apply saveProjection_events ].
Qed.

Lemma updateProjections_events registry eventType eventData eventId
      aggregateId aggregateType :
  all_read_only registry ->
  keeps same_events
        (updateProjections registry eventType eventData eventId aggregateId
                           aggregateType).
Proof.
  intros Hro. unfold updateProjections.
  apply (keeps_for_each _ same_events_refl same_events_trans).
  intros entry Hin. apply updateProjection_events, Hro, Hin.
Qed.

(** ** Running a computation step by step *)

Lemma bind_returned {A B : Type} (m : M A) (k : A -> M B) h s a s' :
  m h s = (inr a, s') -> bind m k h s = k a h s'.
Proof. intros H. unfold bind. rewrite H. reflexivity. Qed.

Lemma bind_thrown {A B : Type} (m : M A) (k : A -> M B) h s e s' :
  m h s = (inl e, s') -> bind m k h s = (inl e, s').
Proof. intros H. unfold bind. rewrite H. reflexivity. Qed.

Lemma try_returned {A : Type} (m : M A) (handler : error -> M A) h s a s' :
  m h s = (inr a, s') -> try_catch m handler h s = (inr a, s').
Proof. intros H. unfold try_catch. rewrite H. reflexivity. Qed.

Lemma try_thrown {A : Type} (m : M A) (handler : error -> M A) h s e s' :
  m h s = (inl e, s') -> try_catch m handler h s = handler e h s'.
Proof. intros H. unfold try_catch. rewrite H. reflexivity. Qed.

Lemma lift_run {A : Type} (r : error + A) h s : lift r h s = (r, s).
Proof. reflexivity. Qed.

(** ** What [storeEvent] does to the table of events *)

(** The version that the version query and the [+ 1] give. *)
Definition next_version (aggregateId aggregateType : string)
  (rows : list EventRow) : Z :=
  coalesce (maximum (versions_of aggregateId aggregateType rows)) 0 + 1.

(** The row that a call appends to the store [s] under the host [h]. *)
Definition appended_row (eventType : string) (h : Host) (s : Store)
  (id : uuid) (aggregateId : string) (version : Z) (data md : value)
  : EventRow :=
  mkEventRow id aggregateId (extractAggregateType eventType) eventType
             version data md (now h) (last_sequence s + 1).

Lemma storeEvent_read_tables eventType eventData :
  keeps same_tables (storeEvent_read eventType eventData).
Proof.
  unfold storeEvent_read, select_max_version. frame_tables.
Qed.

Lemma storeEvent_read_returns eventType eventData h s p s0 :
  storeEvent_read eventType eventData h s = (inr p, s0) ->
  extractAggregateId eventType eventData = inr (aggregateId p)
  /\ aggregateType p = extractAggregateType eventType
  /\ nextVersion p
     = next_version (aggregateId p) (aggregateType p) (events s)
  /\ eventId p = uuids s
  /\ refuses h (SelectMaxVersion (aggregateId p) (aggregateType p)) = false.
Proof.
  unfold storeEvent_read, select_max_version.
  unfold bind, uuidv4, lift, sent, store, ret.
  destruct (extractAggregateId eventType eventData) as [e|a]; [discriminate|].
  destruct (refuses h (SelectMaxVersion a (extractAggregateType eventType)))
    eqn:Href; [discriminate|].
  intros [= <- <-]. cbn. auto.
Qed.

Lemma insert_event_cases id a t eventType version eventData md h s :
  (exists e, insert_event id a t eventType version eventData md h s
             = (inl e, s))
  \/ (exists data,
         eventData = Some data
         /\ refuses h (InsertEvent a t eventType version eventData md) = false
         /\ insert_event id a t eventType version eventData md h s
            = (inr tt,
               mkStore (events s
                        ++ [mkEventRow id a t eventType version data md
                                       (now h) (last_sequence s + 1)])
                       (projections s) (last_sequence s + 1) (uuids s)
                       (published s) (console s))).
Proof.
  unfold insert_event, bind, sent, throw.
  destruct (refuses h _); [left; eauto|].
  destruct eventData as [data|]; [right; eauto | left; eauto].
Qed.

Lemma after_insert_events registry eventType eventData p line :
  all_read_only registry ->
  keeps same_events
    (console_log line ;;
     updateProjections registry eventType eventData (eventId p)
                       (aggregateId p) (aggregateType p) ;;
     publish "event.stored"
       (object [ Key "eventId" (VStr (string_of_nat (eventId p)));
                 Key "eventType" (VStr eventType);
                 Key "aggregateId" (VStr (aggregateId p));
                 Key "aggregateType" (VStr (aggregateType p));
                 Key "version" (VNum (nextVersion p)) ])).
Proof.
  intros Hro. frame_events.
  - apply updateProjections_events, Hro.
  - apply keeps_tables_events, publish_tables.
Qed.

Lemma storeEvent_write_events registry eventType eventData metadata p h s :
  all_read_only registry ->
  let s' := snd (storeEvent_write registry eventType eventData metadata p h s)
  in
  same_events s s'
  \/ exists data md,
       stringify eventData = Some data
       /\ events s'
          = (events s ++ [mkEventRow (eventId p) (aggregateId p)
                                     (aggregateType p) eventType
                                     (nextVersion p) data md (now h)
                                     (last_sequence s + 1)])%list
       /\ last_sequence s' = last_sequence s + 1.
Proof.
  intros Hro s'. subst s'. unfold storeEvent_write.
  destruct (member metadata "id") as [e|correlationId] eqn:Hm.
  { rewrite (bind_thrown _ _ h s e s) by reflexivity.
    left. apply same_events_refl. }
  rewrite (bind_returned _ _ h s correlationId s) by reflexivity.
  match goal with
  | |- context [insert_event ?i ?a ?t ?ty ?v ?d ?m] =>
      destruct (insert_event_cases i a t ty v d m h s)
        as [[e He]|(data & Hd & _ & Hi)]
  end.
  - rewrite (bind_thrown _ _ _ _ _ _ He).
    left. apply same_events_refl.
  - rewrite (bind_returned _ _ _ _ _ _ Hi).
    right. exists data. eexists. split; [exact Hd|].
    match type of Hi with
    | _ = (_, ?s1) =>
        epose proof (after_insert_events registry eventType eventData p _
                                         Hro h s1) as Hk
    end.
    unfold same_events in Hk. destruct Hk as [Hk1 Hk2].
    rewrite Hk1, Hk2. split; reflexivity.
Qed.

Lemma storeEvent_events registry eventType eventData metadata h s :
  all_read_only registry ->
  let s' := snd (storeEvent registry eventType eventData metadata h s) in
  same_events s s'
  \/ exists id a data md,
       extractAggregateId eventType eventData = inr a
       /\ stringify eventData = Some data
       /\ events s'
          = (events s
             ++ [appended_row eventType h s id a
                   (next_version a (extractAggregateType eventType) (events s))
                   data md])%list
       /\ last_sequence s' = last_sequence s + 1.
Proof.
  intros Hro. unfold storeEvent.
  set (md := match metadata with VUndefined => VObj [] | _ => metadata end).
  unfold try_catch.
  assert (Hbody :
    let s1 := snd ((p <- storeEvent_read eventType eventData ;;
                    storeEvent_write registry eventType eventData md p) h s) in
    same_events s s1
    \/ exists id a data md,
         extractAggregateId eventType eventData = inr a
         /\ stringify eventData = Some data
         /\ events s1
            = (events s
               ++ [appended_row eventType h s id a
                     (next_version a (extractAggregateType eventType)
                                   (events s))
                     data md])%list
         /\ last_sequence s1 = last_sequence s + 1).
  { unfold bind at 1.
    pose proof (storeEvent_read_tables eventType eventData h s) as Hr.
    destruct (storeEvent_read eventType eventData h s) as [[e|p] s0] eqn:Hread;
      cbn [snd] in *.
    - left. apply same_tables_events, Hr.
    - destruct (storeEvent_read_returns _ _ _ _ _ _ Hread)
        as (Ha & Ht & Hv & _ & _).
      destruct Hr as (He & Hs & _).
      destruct (storeEvent_write_events registry eventType eventData md p h s0
                                        Hro) as [[H1 H2]|(data & mdj & Hd & H1 & H2)].
      + left. split; congruence.
      + right. exists (eventId p), (aggregateId p), data, mdj.
        unfold appended_row. rewrite H1, H2, He, Hs, Hv, Ht.
        repeat split; auto. }
  cbn zeta in Hbody.
  destruct ((p <- storeEvent_read eventType eventData ;;
             storeEvent_write registry eventType eventData md p) h s)
    as [[e|[]] s1]; cbn [snd] in *; exact Hbody.
Qed.

(** ** Calls of [storeEvent] one after the other *)

(** A call: the host as the call finds it, and the arguments. *)
Record Call : Type := mkCall {
  c_host : Host;
  c_eventType : string;
  c_eventData : value;
  c_metadata : value
}.

(** The store after the calls have run, each to its end before the next
    starts. *)
Fixpoint run (registry : Registry) (calls : list Call) (s : Store) : Store :=
  match calls with
  | [] => s
  | c :: rest =>
      run registry rest
          (snd (storeEvent registry (c_eventType c) (c_eventData c)
                           (c_metadata c) (c_host c) s))
  end.

(** The store of a service that starts on an empty database. *)
Definition fresh : Store := mkStore [] [] 0 0%nat [] [].

(** A host at time [t]: the database refuses nothing, the broker is up,
    the time zone is UTC and [Date.parse] reads no string. *)
Definition host_at (t : Z) : Host :=
  mkHost t (fun _ => None) (fun ms => string_of_Z (ms / 86400000))
         (fun _ => false) true.

(** The versions of every aggregate are 1, 2, ..., N, in the order of
    the rows. *)
Definition contiguous (rows : list EventRow) : Prop :=
  forall aggregateId aggregateType,
    versions_of aggregateId aggregateType rows
    = map Z.of_nat
          (seq 1 (List.length (versions_of aggregateId aggregateType rows))).

Lemma maximum_snoc (l : list Z) (x : Z) :
  maximum (l ++ [x])
  = Some match maximum l with
         | Some m => Z.max m x
         | None => x
         end.
Proof.
  induction l as [|y rest IH]; cbn [maximum app]; [reflexivity|].
  rewrite IH. destruct (maximum rest) as [m|]; f_equal; lia.
Qed.

Lemma maximum_one_to (n : nat) :
  coalesce (maximum (map Z.of_nat (seq 1 n))) 0 = Z.of_nat n.
Proof.
  induction n as [|n IH]; [reflexivity|].
  rewrite seq_S, map_app. cbn [map]. rewrite maximum_snoc.
  destruct (maximum (map Z.of_nat (seq 1 n))) as [m|]; cbn [coalesce] in *; lia.
Qed.

Lemma versions_of_snoc aggregateId aggregateType rows row :
  versions_of aggregateId aggregateType (rows ++ [row])
  = (versions_of aggregateId aggregateType rows
     ++ if of_aggregate aggregateId aggregateType row
        then [e_event_version row] else [])%list.
Proof.
  unfold versions_of. rewrite filter_app, map_app. cbn [filter].
  destruct (of_aggregate aggregateId aggregateType row); reflexivity.
Qed.

Lemma of_aggregate_true aggregateId aggregateType row :
  of_aggregate aggregateId aggregateType row = true ->
  e_aggregate_id row = aggregateId /\ e_aggregate_type row = aggregateType.
Proof.
  unfold of_aggregate. rewrite andb_true_iff, !String.eqb_eq. auto.
Qed.

Lemma contiguous_snoc rows row :
  contiguous rows ->
  e_event_version row
  = next_version (e_aggregate_id row) (e_aggregate_type row) rows ->
  contiguous (rows ++ [row]).
Proof.
  intros Hc Hv a t. rewrite versions_of_snoc.
  destruct (of_aggregate a t row) eqn:Hof.
  - apply of_aggregate_true in Hof. destruct Hof as [<- <-].
    rewrite length_app. cbn [List.length]. rewrite Nat.add_1_r, seq_S, map_app.
    rewrite <- Hc. cbn [map]. rewrite Hv. unfold next_version.
    set (vs := versions_of (e_aggregate_id row) (e_aggregate_type row) rows).
    replace (maximum vs)
      with (maximum (map Z.of_nat (seq 1 (List.length vs))))
      by (unfold vs; rewrite <- Hc; reflexivity).
    rewrite maximum_one_to. do 2 f_equal. lia.
  - rewrite app_nil_r. apply Hc.
Qed.

Lemma storeEvent_contiguous registry eventType eventData metadata h s :
  all_read_only registry ->
  contiguous (events s) ->
  contiguous
    (events (snd (storeEvent registry eventType eventData metadata h s))).
Proof.
  intros Hro Hc.
  destruct (storeEvent_events registry eventType eventData metadata h s Hro)
    as [[He _]|(id & a & data & md & _ & _ & He & _)]; rewrite He.
  - exact Hc.
  - apply contiguous_snoc; [exact Hc | reflexivity].
Qed.

Lemma run_contiguous registry calls :
  all_read_only registry ->
  forall s, contiguous (events s) -> contiguous (events (run registry calls s)).
Proof.
  intros Hro. induction calls as [|c rest IH]; intros s Hc; cbn [run].
  - exact Hc.
  - apply IH, storeEvent_contiguous; assumption.
Qed.

(** Three events for two orders, stored on an empty database. *)
Definition three_orders : list Call :=
  [ mkCall (host_at 1000) "order.created"
           (VObj [("orderId", VNum 1); ("timestamp", VStr "t1")]) VUndefined;
    mkCall (host_at 2000) "order.created"
           (VObj [("orderId", VNum 2); ("timestamp", VStr "t2")]) VUndefined;
    mkCall (host_at 3000) "order.status_changed"
           (VObj [("orderId", VNum 1); ("status", VStr "confirmed");
                  ("timestamp", VStr "t3")]) VUndefined ].

(** ** Two calls of [storeEvent] that overlap *)

Lemma insert_event_accepted id a t eventType version data md h s :
  refuses h (InsertEvent a t eventType version (Some data) md) = false ->
  insert_event id a t eventType version (Some data) md h s
  = (inr tt,
     mkStore (events s
              ++ [mkEventRow id a t eventType version data md (now h)
                             (last_sequence s + 1)])
             (projections s) (last_sequence s + 1) (uuids s) (published s)
             (console s)).
Proof.
  intros Href. unfold insert_event, bind, sent. rewrite Href. reflexivity.
Qed.

Lemma storeEvent_write_appends registry eventType eventData metadata p h s
      correlationId data :
  all_read_only registry ->
  member metadata "id" = inr correlationId ->
  stringify eventData = Some data ->
  let md := jsonify (object [ Spread metadata;
                              Key "source" (VStr "message-broker");
                              Key "correlationId" correlationId ]) in
  refuses h (InsertEvent (aggregateId p) (aggregateType p) eventType
                         (nextVersion p) (Some data) md) = false ->
  events (snd (storeEvent_write registry eventType eventData metadata p h s))
  = (events s
     ++ [mkEventRow (eventId p) (aggregateId p) (aggregateType p) eventType
                    (nextVersion p) data md (now h) (last_sequence s + 1)])%list.
Proof.
  intros Hro Hm Hd md Href. unfold storeEvent_write. rewrite Hm, Hd.
  rewrite (bind_returned _ _ h s correlationId s) by reflexivity.
  rewrite (bind_returned _ _ _ _ _ _
             (insert_event_accepted _ _ _ _ _ _ _ _ _ Href)).
  match goal with
  | |- context [mkStore ?ev ?pr ?sq ?uu ?pu ?co] =>
      epose proof (after_insert_events registry eventType eventData p _ Hro h
                     (mkStore ev pr sq uu pu co)) as Hk
  end.
  destruct Hk as [Hk _]. rewrite Hk. reflexivity.
Qed.

Lemma storeEvent_never_throws registry eventType eventData metadata h s :
  fst (storeEvent registry eventType eventData metadata h s) = inr tt.
Proof.
  unfold storeEvent, try_catch.
  destruct (bind _ _ h s) as [[e|[]] s']; reflexivity.
Qed.

(** A call that starts and resumes with no other step in between is a
    call of [storeEvent]. *)
Lemma start_then_resume registry eventType eventData metadata h s :
  overlap registry [Start h eventType eventData metadata; Resume h 0] (s, [])
  = (snd (storeEvent registry eventType eventData metadata h s), []).
Proof.
  unfold overlap, storeEvent. cbn [fold_left step app].
  unfold try_catch, bind.
  destruct (storeEvent_read eventType eventData h s) as [[e|p] s0];
    cbn [step nth_error app]; [reflexivity|].
  cbn [f_eventType f_eventData f_metadata f_pending firstn skipn app].
  unfold try_catch.
  destruct (storeEvent_write _ _ _ _ p h s0) as [[e|[]] s1]; reflexivity.
Qed.

(** The versions of every aggregate are at least 1, and every number
    from 1 to the highest of them is among them. *)
Definition gapless (rows : list EventRow) : Prop :=
  forall aggregateId aggregateType,
    let versions := versions_of aggregateId aggregateType rows in
    (forall v, In v versions -> 1 <= v)%Z
    /\ (forall v, (1 <= v <= coalesce (maximum versions) 0)%Z ->
                  In v versions).

(** A call in flight has read a version that is at most one above the
    highest of its aggregate. *)
Definition in_range (rows : list EventRow) (f : InFlight) : Prop :=
  (1 <= nextVersion (f_pending f)
   <= coalesce (maximum (versions_of (aggregateId (f_pending f))
                                     (aggregateType (f_pending f)) rows)) 0
      + 1)%Z.

Lemma maximum_bounds (l : list Z) :
  (forall v, In v l -> 1 <= v)%Z ->
  (0 <= coalesce (maximum l) 0)%Z
  /\ (forall v, In v l -> v <= coalesce (maximum l) 0)%Z.
Proof.
  induction l as [|x rest IH]; intros Hpos; cbn [maximum coalesce].
  - split; [lia | intros v []].
  - destruct IH as [IH0 IHle]; [intros v Hv; apply Hpos; right; exact Hv|].
    assert (1 <= x)%Z by (apply Hpos; left; reflexivity).
    destruct (maximum rest) as [m|]; cbn [coalesce] in *.
    + split; [lia|]. intros v [<-|Hv]; [lia|]. specialize (IHle v Hv). lia.
    + split; [lia|]. intros v [<-|Hv]; [lia|]. specialize (IHle v Hv). lia.
Qed.

Lemma gapless_snoc rows row :
  gapless rows ->
  (1 <= e_event_version row
   <= coalesce (maximum (versions_of (e_aggregate_id row)
                                     (e_aggregate_type row) rows)) 0 + 1)%Z ->
  gapless (rows ++ [row]).
Proof.
  intros Hg Hrange a t. cbn zeta. rewrite versions_of_snoc.
  destruct (Hg a t) as [Hpos Hall]. cbn zeta in Hpos, Hall.
  destruct (of_aggregate a t row) eqn:Hof.
  - apply of_aggregate_true in Hof. destruct Hof as [<- <-].
    set (vs := versions_of (e_aggregate_id row) (e_aggregate_type row) rows)
      in *.
    split.
    + intros v Hv. apply in_app_iff in Hv. destruct Hv as [Hv|[<-|[]]];
        [apply Hpos; exact Hv | lia].
    + intros v Hv. rewrite maximum_snoc in Hv. cbn [coalesce] in Hv.
      apply in_app_iff.
      destruct (maximum_bounds vs Hpos) as [H0 _].
      destruct (maximum vs) as [m|] eqn:Hm; cbn [coalesce] in *.
      * destruct (Z_le_gt_dec v m) as [Hle|Hgt];
          [left; apply Hall; lia | right; left; lia].
      * right. left. lia.
  - rewrite app_nil_r. split; assumption.
Qed.

Lemma in_range_snoc rows row f :
  (forall v, In v (versions_of (aggregateId (f_pending f))
                               (aggregateType (f_pending f)) rows) ->
             1 <= v)%Z ->
  (1 <= e_event_version row)%Z ->
  in_range rows f -> in_range (rows ++ [row]) f.
Proof.
  unfold in_range. intros Hpos Hrow Hr. rewrite versions_of_snoc.
  destruct (of_aggregate _ _ row); [|rewrite app_nil_r; exact Hr].
  rewrite maximum_snoc. cbn [coalesce].
  destruct (maximum_bounds _ Hpos) as [H0 _].
  destruct (maximum _) as [m|]; cbn [coalesce] in *; lia.
Qed.

Lemma in_without {A : Type} (k : nat) (l : list A) (x : A) :
  In x (firstn k l ++ skipn (S k) l) -> In x l.
Proof.
  revert l. induction k as [|k IH]; intros [|y l]; cbn; auto.
  intros [->|H]; [left; reflexivity | right; apply IH; exact H].
Qed.

(** The [catch] of [storeEvent] writes a line and leaves the events. *)
Lemma caught_events (m : M unit) h s :
  events (snd (try_catch m storeEvent_catch h s)) = events (snd (m h s)).
Proof.
  unfold try_catch. destruct (m h s) as [[e|[]] s1]; reflexivity.
Qed.

Lemma step_gapless registry st s flights :
  all_read_only registry ->
  gapless (events s) ->
  Forall (in_range (events s)) flights ->
  gapless (events (fst (step registry st (s, flights))))
  /\ Forall (in_range (events (fst (step registry st (s, flights)))))
            (snd (step registry st (s, flights))).
Proof.
  intros Hro Hg Hfl. destruct st as [h eventType eventData metadata|h k];
    cbn [step].
  - pose proof (storeEvent_read_tables eventType eventData h s) as Hkeep.
    destruct (storeEvent_read eventType eventData h s) as [[e|p] s0] eqn:Hread;
      cbn [fst snd] in *; destruct Hkeep as (He & _ & _).
    + change (events (snd (storeEvent_catch e h s0))) with (events s0).
      rewrite He. split; assumption.
    + rewrite He. split; [exact Hg|].
      apply Forall_app. split; [exact Hfl|]. constructor; [|constructor].
      destruct (storeEvent_read_returns _ _ _ _ _ _ Hread)
        as (_ & _ & Hv & _ & _).
      unfold in_range. cbn [f_pending]. rewrite Hv. unfold next_version.
      destruct (Hg (aggregateId p) (aggregateType p)) as [Hpos _].
      destruct (maximum_bounds _ Hpos) as [H0 _]. lia.
  - destruct (nth_error flights k) as [f|] eqn:Hk; cbn [fst snd];
      [|split; assumption].
    assert (Hf : in_range (events s) f).
    { rewrite Forall_forall in Hfl. apply Hfl. eapply nth_error_In, Hk. }
    assert (Hrest : Forall (in_range (events s))
                           (firstn k flights ++ skipn (S k) flights)%list).
    { rewrite Forall_forall in *. intros x Hx. apply Hfl.
      eapply in_without, Hx. }
    pose proof (storeEvent_write_events registry (f_eventType f)
                  (f_eventData f) (f_metadata f) (f_pending f) h s Hro)
      as Hw.
    cbn zeta in Hw. rewrite caught_events.
    destruct Hw as [[He _]|(data & md & _ & He & _)]; rewrite He.
    + split; assumption.
    + split.
      * apply gapless_snoc; [exact Hg | exact Hf].
      * rewrite Forall_forall in *. intros x Hx.
        apply in_range_snoc; [| |apply Hrest; exact Hx].
        -- apply (Hg (aggregateId (f_pending x)) (aggregateType (f_pending x))).
        -- cbn. unfold in_range in Hf. lia.
Qed.

Lemma overlap_gapless registry steps :
  all_read_only registry ->
  forall s flights,
    gapless (events s) ->
    Forall (in_range (events s)) flights ->
    gapless (events (fst (overlap registry steps (s, flights)))).
Proof.
  intros Hro. unfold overlap.
  induction steps as [|st rest IH]; intros s flights Hg Hfl; cbn [fold_left].
  - exact Hg.
  - destruct (step_gapless registry st s flights Hro Hg Hfl) as [Hg' Hfl'].
    destruct (step registry st (s, flights)) as [s' flights'].
    apply IH; assumption.
Qed.

(** The payload of the event [order.created] of order 1. *)
Definition order_1 : value :=
  VObj [("orderId", VNum 1); ("timestamp", VStr "t1")].

(** C2, refuted.  Two calls for order 1 on an empty database both read
    the version before either inserts, so both compute version 1.  The
    first inserts.  The second then inserts too, although version 1 of
    ("order-1", "Order") is taken: the insert throws nothing, the call
    returns without an error, and the aggregate has two events of
    version 1. *)
Lemma claimed_version_is_inserted_again :
  let h := host_at 1000 in
  let a := mkPending 0%nat "order-1" "Order" 1 in
  let b := mkPending 1%nat "order-1" "Order" 1 in
  let s1 := mkStore [] [] 0 1%nat [] [] in
  let s2 := mkStore [] [] 0 2%nat [] [] in
  let s3 := snd (storeEvent_write setupProjections "order.created" order_1
                                  (VObj []) a h s2) in
  let r := storeEvent_write setupProjections "order.created" order_1
                            (VObj []) b h s3 in
  storeEvent_read "order.created" order_1 h fresh = (inr a, s1)
  /\ storeEvent_read "order.created" order_1 h s1 = (inr b, s2)
  /\ versions_of "order-1" "Order" (events s3) = [1]%Z
  /\ fst r = inr tt
  /\ versions_of "order-1" "Order" (events (snd r)) = [1; 1]%Z
  /\ overlap setupProjections
             [ Start h "order.created" order_1 VUndefined;
               Start h "order.created" order_1 VUndefined;
               Resume h 0; Resume h 0 ]
             (fresh, [])
     = (snd r, []).
Proof.
  vm_compute. repeat split.
Qed.

(** C2, amended.  [storeEvent] never throws: whatever goes wrong inside
    is caught and written to the console, so its caller sees neither a
    conflict nor any other error.  The insert carries the version that
    was read before; when the database does not refuse the statement the
    row is added at the end of the table whatever versions the aggregate
    already has, also when that version is taken.  A call adds one row
    or none: nothing is tried again.  However calls overlap, the
    versions of an aggregate stay without a gap: every number from 1 to
    the highest is there, possibly more than once. *)
Theorem no_conflict_reaches_the_caller :
  (forall registry eventType eventData metadata h s,
      fst (storeEvent registry eventType eventData metadata h s) = inr tt)
  /\ (forall eventType eventData metadata p h s correlationId data,
        member metadata "id" = inr correlationId ->
        stringify eventData = Some data ->
        let md := jsonify (object [ Spread metadata;
                                    Key "source" (VStr "message-broker");
                                    Key "correlationId" correlationId ]) in
        refuses h (InsertEvent (aggregateId p) (aggregateType p) eventType
                               (nextVersion p) (Some data) md) = false ->
        events (snd (storeEvent_write setupProjections eventType eventData
                                      metadata p h s))
        = (events s
           ++ [mkEventRow (eventId p) (aggregateId p) (aggregateType p)
                          eventType (nextVersion p) data md (now h)
                          (last_sequence s + 1)])%list)
  /\ (forall eventType eventData metadata h s,
        let s' := snd (storeEvent setupProjections eventType eventData
                                  metadata h s) in
        events s' = events s
        \/ exists row, events s' = (events s ++ [row])%list)
  /\ (forall steps s,
        gapless (events s) ->
        gapless (events (fst (overlap setupProjections steps (s, []))))).
Proof.
  split; [|split; [|split]].
  - apply storeEvent_never_throws.
  - intros eventType eventData metadata p h s correlationId data Hm Hd md Href.
    apply storeEvent_write_appends; auto using setupProjections_read_only.
  - intros eventType eventData metadata h s s'. subst s'.
    destruct (storeEvent_events setupProjections eventType eventData metadata
                                h s setupProjections_read_only)
      as [[He _]|(id & a & data & md & _ & _ & He & _)].
    + left. exact He.
    + right. eexists. exact He.
  - intros steps s Hg.
    apply overlap_gapless;
      [exact setupProjections_read_only | exact Hg | constructor].
Qed.

(** The second insert of version 1 of order 1. *)
Lemma no_conflict_reaches_the_caller_witness :
  let h := host_at 1000 in
  let p := mkPending 3%nat "order-1" "Order" 1 in
  let s := snd (storeEvent setupProjections "order.created" order_1 VUndefined
                           h fresh) in
  versions_of "order-1" "Order" (events s) = [1]%Z
  /\ versions_of "order-1" "Order"
       (events (snd (storeEvent_write setupProjections "order.created" order_1
                                      (VObj []) p h s)))
     = [1; 1]%Z.
Proof.
  intros h p s. split; [reflexivity|].
  rewrite (proj1 (proj2 no_conflict_reaches_the_caller) "order.created"
                 order_1 (VObj []) p h s VUndefined order_1);
    reflexivity.
Defined.

(** ** The rows of the projections that a step leaves alone *)

(** The rows whose key (projection name, aggregate) is chosen by [f]. *)
Definition rows_where (f : string -> string -> bool)
  (rows : list ProjectionRow) : list ProjectionRow :=
  filter (fun r => f (p_projection_name r) (p_aggregate_id r)) rows.

(** The rows chosen by [f] are as they were. *)
Definition untouched (f : string -> string -> bool) (s s' : Store) : Prop :=
  rows_where f (projections s') = rows_where f (projections s).

Lemma untouched_refl f s : untouched f s s.
Proof. reflexivity. Qed.

Lemma untouched_trans f a b c :
  untouched f a b -> untouched f b c -> untouched f a c.
Proof. unfold untouched. congruence. Qed.

Lemma keeps_tables_untouched {A : Type} f (m : M A) :
  keeps same_tables m -> keeps (untouched f) m.
Proof.
  intros H h s. destruct (H h s) as (He & Hs & Hp).
  unfold untouched. rewrite Hp. reflexivity.
Qed.

Lemma of_projection_true projectionName aggregateId r :
  of_projection projectionName aggregateId r = true ->
  p_projection_name r = projectionName /\ p_aggregate_id r = aggregateId.
Proof.
  unfold of_projection. rewrite andb_true_iff, !String.eqb_eq. auto.
Qed.

Lemma rows_where_upsert f row rows :
  f (p_projection_name row) (p_aggregate_id row) = false ->
  rows_where f (upsert row rows) = rows_where f rows.
Proof.
  intros Hf. induction rows as [|r rest IH]; cbn [upsert rows_where filter].
  - rewrite Hf. reflexivity.
  - destruct (of_projection _ _ r) eqn:Hkey.
    + apply of_projection_true in Hkey. destruct Hkey as [Hn Ha].
      cbn [rows_where filter p_projection_name p_aggregate_id].
      rewrite Hn, Ha, Hf. reflexivity.
    + cbn [rows_where filter]. fold (rows_where f (upsert row rest)).
      fold (rows_where f rest). rewrite IH. reflexivity.
Qed.

Ltac frame_untouched f := frame (untouched_refl f) (untouched_trans f).

Lemma saveProjection_untouched f projectionName aggregateId data eventId :
  f projectionName aggregateId = false ->
  keeps (untouched f)
        (saveProjection projectionName aggregateId data eventId).
Proof.
  intros Hf. unfold saveProjection, upsert_projection, console_error.
  frame_untouched f;
    try (apply keeps_tables_untouched;
         first [apply uuidv4_tables | apply console_log_tables]).
  intros h s. unfold untouched.
  cbn [snd projections]. apply rows_where_upsert. exact Hf.
Qed.

Lemma updateProjection_untouched f eventType eventData eventId aggregateId
      entry :
  reads_only (snd entry) ->
  f (fst entry) aggregateId = false ->
  keeps (untouched f)
        (updateProjection eventType eventData eventId aggregateId entry).
Proof.
  destruct entry as [projectionName projection]. cbn [fst snd]. intros Hro Hf.
  unfold updateProjection, console_error.
  frame_with (untouched_refl f) (untouched_trans f)
    ltac:(first [ apply keeps_tables_untouched, Hro
                | apply saveProjection_untouched, Hf ]).
Qed.

Lemma updateProjections_untouched f registry eventType eventData eventId
      aggregateId aggregateType :
  all_read_only registry ->
  (forall entry, In entry registry -> f (fst entry) aggregateId = false) ->
  keeps (untouched f)
        (updateProjections registry eventType eventData eventId aggregateId
                           aggregateType).
Proof.
  intros Hro Hf. unfold updateProjections.
  apply (keeps_for_each _ (untouched_refl f) (untouched_trans f)).
  intros entry Hin. apply updateProjection_untouched; auto.
Qed.

Lemma storeEvent_write_untouched f registry eventType eventData metadata p :
  all_read_only registry ->
  (forall entry, In entry registry -> f (fst entry) (aggregateId p) = false) ->
  keeps (untouched f)
        (storeEvent_write registry eventType eventData metadata p).
Proof.
  intros Hro Hf. unfold storeEvent_write.
  frame_with (untouched_refl f) (untouched_trans f)
    ltac:(first [ apply updateProjections_untouched; assumption
                | apply keeps_tables_untouched;
                  first [apply console_log_tables | apply publish_tables] ]).
  unfold insert_event.
  frame_with (untouched_refl f) (untouched_trans f) ltac:(fail).
  destruct (stringify eventData); [|apply (keeps_throw _ (untouched_refl f))].
  intros h s. reflexivity.
Qed.

Lemma storeEvent_untouched f registry eventType eventData metadata h s :
  all_read_only registry ->
  (forall entry a,
      In entry registry ->
      extractAggregateId eventType eventData = inr a ->
      f (fst entry) a = false) ->
  untouched f s (snd (storeEvent registry eventType eventData metadata h s)).
Proof.
  intros Hro Hf. unfold storeEvent.
  set (md := match metadata with VUndefined => VObj [] | _ => metadata end).
  apply (keeps_try_catch _ (untouched_trans f));
    [|intros e; apply keeps_tables_untouched, console_log_tables].
  intros h0 s0. unfold bind.
  pose proof (storeEvent_read_tables eventType eventData h0 s0) as Hr.
  destruct (storeEvent_read eventType eventData h0 s0) as [[e|p] s1] eqn:Hread;
    cbn [snd] in *.
  - unfold untouched. destruct Hr as (_ & _ & ->). reflexivity.
  - destruct (storeEvent_read_returns _ _ _ _ _ _ Hread) as (Ha & _).
    apply (untouched_trans f _ s1).
    + unfold untouched. destruct Hr as (_ & _ & ->). reflexivity.
    + apply storeEvent_write_untouched; [exact Hro|].
      intros entry Hin. apply (Hf entry _ Hin Ha).
Qed.

(** No aggregate that the resolver gives is called "global". *)
Lemma extractAggregateId_not_global eventType eventData a :
  extractAggregateId eventType eventData = inr a -> a <> "global".
Proof.
  unfold extractAggregateId, extractors. cbn [assoc].
  repeat match goal with
         | |- context [if ?b then _ else _] => destruct b
         end;
    try (destruct (member eventData _); [discriminate|]);
    intros [= <-]; cbn; discriminate.
Qed.

(** ** The tables that [createTables] makes *)

Lemma assoc_In {A : Type} k (l : list (string * A)) v :
  assoc k l = Some v -> In (k, v) l.
Proof.
  induction l as [|[k' v'] rest IH]; cbn [assoc]; [discriminate|].
  destruct (String.eqb_spec k' k) as [->|_].
  - intros [= ->]. left. reflexivity.
  - intros Hs. right. auto.
Qed.

(** [createTables] gives the table of the projections a primary key on
    [id] and a plain index on (projection_name, aggregate_id): no unique
    index for the conflict target of the upsert. *)
Lemma createTables_no_arbiter :
  arbiter createTables "projections" ["projection_name"; "aggregate_id"]
  = false.
Proof. reflexivity. Qed.

Lemma created_refuses h projectionName aggregateId data eventId :
  created h ->
  refuses h (UpsertProjection projectionName aggregateId data eventId) = true.
Proof. intros Hc. apply Hc, createTables_no_arbiter. Qed.

(** A host at time [t] whose database holds the tables of
    [createTables] and is there: it refuses the statements that need
    what the tables lack, and no other; the broker is up. *)
Definition service_at (t : Z) : Host :=
  mkHost t (fun _ => None) (fun ms => string_of_Z (ms / 86400000))
         (fun q =>
            match q with
            | UpsertProjection _ _ _ _ =>
                negb (arbiter createTables "projections"
                              ["projection_name"; "aggregate_id"])
            | _ => false
            end)
         true.

Lemma service_at_created t : created (service_at t).
Proof. intros _ projectionName aggregateId data eventId. reflexivity. Qed.

(** The line that the [catch] of [saveProjection] writes. *)
Definition save_error : string := "[EventStore] Save projection error:".

(** On these tables [saveProjection] draws an identifier, has its
    statement refused, writes the error to the console and returns. *)
Lemma saveProjection_created projectionName aggregateId data eventId h s :
  created h ->
  saveProjection projectionName aggregateId data eventId h s
  = (inr tt,
     mkStore (events s) (projections s) (last_sequence s) (S (uuids s))
             (published s) (console s ++ [save_error])).
Proof.
  intros Hc.
  unfold saveProjection, upsert_projection, try_catch, bind, uuidv4, sent.
  cbv beta iota. rewrite (created_refuses h _ _ _ _ Hc). reflexivity.
Qed.

Section Created.

(** A host whose database holds the tables of [createTables]. *)
Variable h : Host.
Hypothesis tables : created h.

(** What a computation leaves as it is under this host. *)
Definition keeps_here (P : Store -> Store -> Prop) {A : Type} (m : M A)
  : Prop :=
  forall s, P s (snd (m h s)).

Lemma keeps_everywhere P {A : Type} (m : M A) : keeps P m -> keeps_here P m.
Proof. intros H s. apply H. Qed.

Lemma keeps_here_bind {A B : Type} (m : M A) (k : A -> M B) :
  keeps_here same_tables m -> (forall a, keeps_here same_tables (k a)) ->
  keeps_here same_tables (bind m k).
Proof.
  intros Hm Hk s. unfold bind. specialize (Hm s).
  destruct (m h s) as [[e|a] s']; cbn [snd] in *; [assumption|].
  eapply same_tables_trans; [eassumption | apply Hk].
Qed.

Lemma keeps_here_try_catch {A : Type} (m : M A) (handler : error -> M A) :
  keeps_here same_tables m -> (forall e, keeps_here same_tables (handler e)) ->
  keeps_here same_tables (try_catch m handler).
Proof.
  intros Hm Hh s. unfold try_catch. specialize (Hm s).
  destruct (m h s) as [[e|a] s']; cbn [snd] in *; [|assumption].
  eapply same_tables_trans; [eassumption | apply Hh].
Qed.

Lemma saveProjection_here projectionName aggregateId data eventId :
  keeps_here same_tables
             (saveProjection projectionName aggregateId data eventId).
Proof.
  intros s. rewrite (saveProjection_created _ _ _ _ h s tables).
  repeat split.
Qed.

Ltac frame_here known :=
  repeat first [ match goal with |- forall _, _ => intro end
               | known
               | apply saveProjection_here
               | apply keeps_here_bind | apply keeps_here_try_catch
               | apply keeps_everywhere;
                 first [ apply (keeps_ret _ same_tables_refl)
                       | apply (keeps_throw _ same_tables_refl)
                       | apply (keeps_lift _ same_tables_refl)
                       | apply (keeps_sent _ same_tables_refl)
                       | apply (keeps_store _ same_tables_refl)
                       | apply console_log_tables
                       | apply publish_tables
                       | apply uuidv4_tables ]
               | match goal with
                 | |- keeps_here _ (if ?b then _ else _) => destruct b
                 end
               | assumption ].

Lemma updateProjection_here eventType eventData eventId aggregateId entry :
  reads_only (snd entry) ->
  keeps_here same_tables
             (updateProjection eventType eventData eventId aggregateId entry).
Proof.
  destruct entry as [projectionName projection]. cbn [snd]. intros Hro.
  unfold updateProjection, console_error.
  frame_here ltac:(apply keeps_everywhere, Hro).
Qed.

Lemma updateProjections_here registry eventType eventData eventId aggregateId
      aggregateType :
  all_read_only registry ->
  keeps_here same_tables
             (updateProjections registry eventType eventData eventId
                                aggregateId aggregateType).
Proof.
  unfold updateProjections. induction registry as [|entry rest IH];
    intros Hro; cbn [for_each].
  - frame_here ltac:(fail).
  - apply keeps_here_bind.
    + apply updateProjection_here, Hro. left. reflexivity.
    + intros _. apply IH. intros e He. apply Hro. right. exact He.
Qed.

Lemma replay_events_here projectionName projection rows :
  reads_only projection ->
  forall count,
    keeps_here same_tables
               (replay_events projectionName projection rows count).
Proof.
  intros Hro. induction rows as [|event rest IH]; intros count;
    cbn [replay_events].
  - frame_here ltac:(fail).
  - frame_here ltac:(first [apply keeps_everywhere, Hro | apply IH]).
Qed.

(** The replay route changes no table. *)
Lemma replay_here registry projectionName fromSequence :
  all_read_only registry ->
  keeps_here same_tables (replay registry projectionName fromSequence).
Proof.
  intros Hro. unfold replay, select_events, console_error.
  destruct (assoc projectionName registry) as [projection|] eqn:Ha.
  - assert (Hp : reads_only projection)
      by (apply assoc_In in Ha; apply (Hro _ Ha)).
    frame_here ltac:(apply replay_events_here, Hp).
  - frame_here ltac:(fail).
Qed.

(** What [storeEvent] does after its insert changes no table. *)
Lemma storeEvent_write_projections registry eventType eventData metadata p s :
  all_read_only registry ->
  projections (snd (storeEvent_write registry eventType eventData metadata p
                                     h s))
  = projections s.
Proof.
  intros Hro. unfold storeEvent_write.
  destruct (member metadata "id") as [e|correlationId]; [reflexivity|].
  rewrite (bind_returned _ _ h s correlationId s) by reflexivity.
  match goal with
  | |- context [insert_event ?i ?a ?t ?ty ?v ?d ?m] =>
      destruct (insert_event_cases i a t ty v d m h s)
        as [[e He]|(data & _ & _ & Hi)]
  end.
  - rewrite (bind_thrown _ _ _ _ _ _ He). reflexivity.
  - rewrite (bind_returned _ _ _ _ _ _ Hi).
    match goal with
    | |- projections (snd (?m h ?s1)) = _ =>
        assert (Hk : keeps_here same_tables m)
    end.
    { frame_here ltac:(apply updateProjections_here, Hro). }
    match goal with
    | |- projections (snd (_ h ?s1)) = _ => destruct (Hk s1) as (_ & _ & ->)
    end.
    reflexivity.
Qed.

(** [storeEvent] leaves the table of the projections as it is. *)
Lemma storeEvent_projections registry eventType eventData metadata s :
  all_read_only registry ->
  projections (snd (storeEvent registry eventType eventData metadata h s))
  = projections s.
Proof.
  intros Hro. unfold storeEvent, try_catch, bind.
  pose proof (storeEvent_read_tables eventType eventData h s) as Hr.
  destruct (storeEvent_read eventType eventData h s) as [[e|p] s0];
    cbn [snd] in Hr; destruct Hr as (_ & _ & Hr).
  - cbn. exact Hr.
  - match goal with
    | |- context [storeEvent_write ?r ?ty ?d ?md p h s0] =>
        pose proof (storeEvent_write_projections r ty d md p s0 Hro) as Hw;
        destruct (storeEvent_write r ty d md p h s0) as [[e|[]] s1]
    end; cbn [snd] in *; cbn; congruence.
Qed.

End Created.

(** The host of a step. *)
Definition step_host (st : Step) : Host :=
  match st with
  | Start h _ _ _ => h
  | Resume h _ => h
  end.

Lemma step_projections registry st s flights :
  all_read_only registry ->
  created (step_host st) ->
  projections (fst (step registry st (s, flights))) = projections s.
Proof.
  intros Hro Hc. destruct st as [h eventType eventData metadata|h k];
    cbn [step step_host] in *.
  - pose proof (storeEvent_read_tables eventType eventData h s) as Hr.
    destruct (storeEvent_read eventType eventData h s) as [[e|p] s0];
      cbn [fst snd] in *; destruct Hr as (_ & _ & Hr); exact Hr.
  - destruct (nth_error flights k) as [f|]; cbn [fst]; [|reflexivity].
    unfold try_catch.
    pose proof (storeEvent_write_projections h Hc registry (f_eventType f)
                  (f_eventData f) (f_metadata f) (f_pending f) s Hro) as Hw.
    destruct (storeEvent_write _ _ _ _ _ h s) as [[e|[]] s1];
      cbn [snd] in *; exact Hw.
Qed.

Lemma overlap_projections registry steps :
  all_read_only registry ->
  Forall (fun st => created (step_host st)) steps ->
  forall x,
    projections (fst (overlap registry steps x)) = projections (fst x).
Proof.
  intros Hro. unfold overlap.
  induction 1 as [|st rest Hst Hrest IH]; intros [s flights]; cbn [fold_left].
  - reflexivity.
  - rewrite IH. apply step_projections; assumption.
Qed.


(** The stores that the service reaches from an empty database with the
    tables of [createTables]: by a call of [storeEvent], by calls that
    overlap, or by a replay. *)
Inductive reached : Store -> Prop :=
| reached_fresh : reached fresh
| reached_storeEvent h eventType eventData metadata s :
    created h ->
    reached s ->
    reached (snd (storeEvent setupProjections eventType eventData metadata
                             h s))
| reached_overlap steps s :
    Forall (fun st => created (step_host st)) steps ->
    reached s ->
    reached (fst (overlap setupProjections steps (s, [])))
| reached_replay h projectionName fromSequence s :
    created h ->
    reached s ->
    reached (snd (replay setupProjections projectionName fromSequence h s)).

(** None of them holds a snapshot. *)
Lemma reached_no_snapshot s : reached s -> projections s = [].
Proof.
  induction 1 as [|h eventType eventData metadata s Hc _ IH
                  |steps s Hc _ IH
                  |h projectionName fromSequence s Hc _ IH].
  - reflexivity.
  - rewrite (storeEvent_projections h Hc); [exact IH|].
    exact setupProjections_read_only.
  - rewrite (overlap_projections setupProjections steps
               setupProjections_read_only Hc).
    exact IH.
  - destruct (replay_here h Hc setupProjections projectionName fromSequence
                          setupProjections_read_only s) as (_ & _ & ->).
    exact IH.
Qed.


(** ** The versions of an aggregate *)

(** The version that follows the versions [l] of an aggregate: the
    highest plus one, and 1 when there is none. *)
Definition following (l : list Z) : Z :=
  match maximum l with
  | Some highest => highest + 1
  | None => 1
  end.

Lemma next_version_following aggregateId aggregateType rows :
  next_version aggregateId aggregateType rows
  = following (versions_of aggregateId aggregateType rows).
Proof.
  unfold next_version, following. destruct (maximum _); reflexivity.
Qed.

(** The metadata that [storeEvent] stores with an event. *)
Definition stored_metadata (metadata correlationId : value) : value :=
  jsonify (object [ Spread metadata;
                    Key "source" (VStr "message-broker");
                    Key "correlationId" correlationId ]).

(** A call of [storeEvent] whose two statements on the table of events
    the database executes: the row it appends. *)
Lemma storeEvent_appends registry eventType eventData metadata h s a
      correlationId data :
  all_read_only registry ->
  let metadata' := match metadata with
                   | VUndefined => VObj []
                   | _ => metadata
                   end in
  let t := extractAggregateType eventType in
  let version := next_version a t (events s) in
  extractAggregateId eventType eventData = inr a ->
  stringify eventData = Some data ->
  member metadata' "id" = inr correlationId ->
  refuses h (SelectMaxVersion a t) = false ->
  refuses h (InsertEvent a t eventType version (Some data)
                         (stored_metadata metadata' correlationId))
  = false ->
  events (snd (storeEvent registry eventType eventData metadata h s))
  = (events s
     ++ [mkEventRow (uuids s) a t eventType version data
                    (stored_metadata metadata' correlationId)
                    (now h) (last_sequence s + 1)])%list.
Proof.
  intros Hro metadata' t version Ha Hd Hid Hq Hi. unfold storeEvent.
  fold metadata'. rewrite caught_events.
  assert (Hread :
    storeEvent_read eventType eventData h s
    = (inr (mkPending (uuids s) a t version),
       mkStore (events s) (projections s) (last_sequence s) (S (uuids s))
               (published s) (console s))).
  { unfold storeEvent_read, select_max_version, bind, uuidv4, lift, sent,
      store, ret. rewrite Ha. fold t. rewrite Hq. reflexivity. }
  rewrite (bind_returned _ _ _ _ _ _ Hread).
  rewrite (storeEvent_write_appends registry eventType eventData metadata' _
             h _ correlationId data Hro Hid Hd) by exact Hi.
  reflexivity.
Qed.

(** The payload of a login of user 7. *)
Definition login_7 : value :=
  VObj [("userId", VNum 7); ("timestamp", VStr "t1")].

(** C1, refuted.  Two messages [user.login] of user 7 arrive at an empty
    log one behind the other.  The handler of the first awaits its
    version query when the second starts, so both calls of [storeEvent]
    read that the aggregate has no event and both insert version 1: the
    aggregate ("user-7", "User") has two events, and their versions are
    1 and 1, not 1 and 2. *)
Lemma two_logins_get_the_same_version :
  let h := service_at 1000 in
  let x := overlap setupProjections
                   [ Start h "user.login" login_7 VUndefined;
                     Start h "user.login" login_7 VUndefined;
                     Resume h 0; Resume h 0 ]
                   (fresh, []) in
  snd x = []
  /\ map e_event_type (events (fst x)) = ["user.login"; "user.login"]
  /\ versions_of "user-7" "User" (events (fst x)) = [1; 1]%Z
  /\ versions_of "user-7" "User" (events (fst x))
     <> map Z.of_nat (seq 1 2).
Proof.
  vm_compute. repeat split. discriminate.
Qed.

(** C1, amended.  An append takes the version that follows the versions
    its aggregate has when the version query runs, the highest plus one
    and 1 when there is none, and stores it in a new last row of the
    table.  So when the database executes the version query and the
    insert of a call of [storeEvent] whose type names no inherited
    member, whose payload is JSON with safe integers and resolves to an
    aggregate, the table gains exactly the row of that aggregate with
    that version, and the versions of the aggregate gain that version at
    their end.  No call does anything else to the table than adding one
    such row.  When every call runs to its end before the next starts,
    the versions of every aggregate are 1, 2, ..., N, each once, in the
    order of the rows.  When calls overlap, a version can be stored more
    than once, and the versions of every aggregate still have no gap:
    every number from 1 to the highest is among them. *)
Theorem an_append_takes_the_following_version :
  (forall eventType eventData metadata h s a correlationId data,
      let metadata' := match metadata with
                       | VUndefined => VObj []
                       | _ => metadata
                       end in
      let t := extractAggregateType eventType in
      let version := following (versions_of a t (events s)) in
      let s' := snd (storeEvent setupProjections eventType eventData metadata
                                h s) in
      ~ In eventType inherited ->
      safe eventData = true ->
      extractAggregateId eventType eventData = inr a ->
      stringify eventData = Some data ->
      member metadata' "id" = inr correlationId ->
      refuses h (SelectMaxVersion a t) = false ->
      refuses h (InsertEvent a t eventType version (Some data)
                             (stored_metadata metadata' correlationId))
      = false ->
      events s'
      = (events s
         ++ [mkEventRow (uuids s) a t eventType version data
                        (stored_metadata metadata' correlationId)
                        (now h) (last_sequence s + 1)])%list
      /\ versions_of a t (events s')
         = (versions_of a t (events s) ++ [version])%list)
  /\ (forall eventType eventData metadata h s,
        let s' := snd (storeEvent setupProjections eventType eventData
                                  metadata h s) in
        events s' = events s
        \/ exists row,
             events s' = (events s ++ [row])%list
             /\ extractAggregateId eventType eventData
                = inr (e_aggregate_id row)
             /\ e_aggregate_type row = extractAggregateType eventType
             /\ e_event_version row
                = following (versions_of (e_aggregate_id row)
                                         (e_aggregate_type row) (events s)))
  /\ (forall calls s,
        contiguous (events s) ->
        forall aggregateId aggregateType,
          versions_of aggregateId aggregateType
                      (events (run setupProjections calls s))
          = map Z.of_nat
                (seq 1 (List.length
                          (versions_of aggregateId aggregateType
                             (events (run setupProjections calls s))))))
  /\ (forall steps s,
        gapless (events s) ->
        gapless (events (fst (overlap setupProjections steps (s, []))))).
Proof.
  split; [|split; [|split]].
  - intros eventType eventData metadata h s a correlationId data metadata' t
           version s' _ _ Ha Hd Hid Hq Hi.
    assert (He :
      events s'
      = (events s
         ++ [mkEventRow (uuids s) a t eventType version data
                        (stored_metadata metadata' correlationId)
                        (now h) (last_sequence s + 1)])%list).
    { subst s' version. rewrite <- next_version_following in *.
      apply storeEvent_appends;
        auto using setupProjections_read_only. }
    split; [exact He|].
    rewrite He, versions_of_snoc. unfold of_aggregate.
    cbn [e_aggregate_id e_aggregate_type e_event_version].
    rewrite !String.eqb_refl. reflexivity.
  - intros eventType eventData metadata h s s'. subst s'.
    destruct (storeEvent_events setupProjections eventType eventData metadata
                                h s setupProjections_read_only)
      as [[He _]|(id & a & data & md & Ha & _ & He & _)].
    + left. exact He.
    + right. eexists. split; [exact He|]. cbn. repeat split; auto.
      apply next_version_following.
  - intros calls s Hc.
    apply (run_contiguous setupProjections calls setupProjections_read_only s
                          Hc).
  - intros steps s Hg.
    apply overlap_gapless;
      [exact setupProjections_read_only | exact Hg | constructor].
Qed.

(** The second event of order 1, on the tables of [createTables]: after
    the creation of order 1 and of order 2, the change of status of
    order 1 gets version 2. *)
Lemma an_append_takes_the_following_version_witness :
  let created_1 := VObj [("orderId", VNum 1); ("timestamp", VStr "t1")] in
  let created_2 := VObj [("orderId", VNum 2); ("timestamp", VStr "t2")] in
  let changed_1 := VObj [("orderId", VNum 1); ("status", VStr "confirmed");
                         ("timestamp", VStr "t3")] in
  let s := run setupProjections
               [ mkCall (service_at 1000) "order.created" created_1 VUndefined;
                 mkCall (service_at 2000) "order.created" created_2 VUndefined ]
               fresh in
  let s' := snd (storeEvent setupProjections "order.status_changed" changed_1
                            VUndefined (service_at 3000) s) in
  versions_of "order-1" "Order" (events s) = [1]%Z
  /\ versions_of "order-2" "Order" (events s) = [1]%Z
  /\ versions_of "order-1" "Order" (events s') = [1; 2]%Z
  /\ versions_of "order-2" "Order" (events s') = [1]%Z.
Proof.
  intros created_1 created_2 changed_1 s s'.
  destruct (proj1 an_append_takes_the_following_version
                  "order.status_changed" changed_1 VUndefined
                  (service_at 3000) s "order-1" VUndefined changed_1)
    as [_ Hv].
  - cbn. intuition discriminate.
  - reflexivity.
  - reflexivity.
  - reflexivity.
  - reflexivity.
  - reflexivity.
  - reflexivity.
  - fold s' in Hv.
    split; [vm_compute; reflexivity|].
    split; [vm_compute; reflexivity|].
    split; [|vm_compute; reflexivity].
    etransitivity; [exact Hv|]. vm_compute. reflexivity.
Defined.

(** ** Listing the snapshots of a projection *)

(** The rows of a projection. *)
Definition rows_of (projectionName : string) (s : Store)
  : list ProjectionRow :=
  filter (fun r => p_projection_name r =? projectionName) (projections s).









(** ** What a fold depends on *)

(** What a snapshot says: the aggregate, the data, the version and the
    event it was last made from. *)
Definition snapshot : Type := string * value * Z * uuid.

Definition content (r : ProjectionRow) : snapshot :=
  (p_aggregate_id r, p_data r, p_version r, p_last_event_id r).

Definition snapshot_aggregate (c : snapshot) : string := fst (fst (fst c)).
Definition snapshot_data (c : snapshot) : value := snd (fst (fst c)).
Definition snapshot_version (c : snapshot) : Z := snd (fst c).
Definition snapshot_event (c : snapshot) : uuid := snd c.

(** The snapshots of a projection, in the order of the rows. *)
Definition view (projectionName : string) (s : Store) : list snapshot :=
  map content (rows_of projectionName s).

(** The snapshot of an aggregate in a projection. *)
Definition snapshot_of (projectionName aggregateId : string) (s : Store)
  : option snapshot :=
  find (fun c => snapshot_aggregate c =? aggregateId) (view projectionName s).

(** Two hosts whose databases refuse the same statements. *)
Definition agree (h1 h2 : Host) : Prop :=
  forall q, refuses h1 q = refuses h2 q.

Lemma same_tables_view projectionName s s' :
  same_tables s s' -> view projectionName s' = view projectionName s.
Proof. intros (_ & _ & Hp). unfold view, rows_of. rewrite Hp. reflexivity. Qed.

Lemma same_tables_rows_of projectionName s s' :
  same_tables s s' -> rows_of projectionName s' = rows_of projectionName s.
Proof. intros (_ & _ & Hp). unfold rows_of. rewrite Hp. reflexivity. Qed.

(** Two stores with the same snapshots of a projection. *)
Definition same_view (projectionName : string) (s1 s2 : Store) : Prop :=
  view projectionName s1 = view projectionName s2.

(** Two stores, whatever they hold. *)
Definition any_store (s1 s2 : Store) : Prop := True.

Lemma same_view_tables projectionName s1 s2 s1' s2' :
  same_view projectionName s1 s2 ->
  same_tables s1 s1' -> same_tables s2 s2' ->
  same_view projectionName s1' s2'.
Proof.
  unfold same_view. intros Hv H1 H2.
  rewrite (same_tables_view _ _ _ H1), (same_tables_view _ _ _ H2). exact Hv.
Qed.

Lemma any_store_tables s1 s2 s1' s2' :
  any_store s1 s2 -> same_tables s1 s1' -> same_tables s2 s2' ->
  any_store s1' s2'.
Proof. intros; exact I. Qed.

Section Local.

(** The hosts and the stores that are compared; reading the tables does
    not take two stores out of [V]. *)
Variable H : Host -> Host -> Prop.
Variable V : Store -> Store -> Prop.
Hypothesis V_tables :
  forall s1 s2 s1' s2',
    V s1 s2 -> same_tables s1 s1' -> same_tables s2 s2' -> V s1' s2'.

(** What the computation returns or throws is the same on two hosts that
    [H] relates and two stores that [V] relates. *)
Definition local {A : Type} (m : M A) : Prop :=
  forall h1 h2 s1 s2, H h1 h2 -> V s1 s2 -> fst (m h1 s1) = fst (m h2 s2).

Lemma local_ret {A : Type} (a : A) : local (ret a).
Proof. intros h1 h2 s1 s2 _ _. reflexivity. Qed.

Lemma local_throw {A : Type} (e : error) : local (@throw A e).
Proof. intros h1 h2 s1 s2 _ _. reflexivity. Qed.

Lemma local_lift {A : Type} (r : error + A) : local (lift r).
Proof. intros h1 h2 s1 s2 _ _. reflexivity. Qed.

Lemma local_if {A : Type} (b : bool) (m1 m2 : M A) :
  local m1 -> local m2 -> local (if b then m1 else m2).
Proof. destruct b; auto. Qed.

Lemma local_bind {A B : Type} (m : M A) (k : A -> M B) :
  local m -> keeps same_tables m -> (forall a, local (k a)) ->
  local (bind m k).
Proof.
  intros Hm Hk Hl h1 h2 s1 s2 Hh Hv. unfold bind.
  pose proof (Hm h1 h2 s1 s2 Hh Hv) as Hr.
  pose proof (V_tables _ _ _ _ Hv (Hk h1 s1) (Hk h2 s2)) as Hv'.
  destruct (m h1 s1) as [r1 s1'], (m h2 s2) as [r2 s2']. cbn [fst snd] in *.
  subst r2. destruct r1 as [e|a]; [reflexivity|].
  apply Hl; assumption.
Qed.

(** The continuation of a lifted result runs on what was lifted. *)
Lemma local_bind_lift {A B : Type} (r : error + A) (k : A -> M B) :
  (forall a, r = inr a -> local (k a)) -> local (bind (lift r) k).
Proof.
  intros Hl h1 h2 s1 s2 Hh Hv. unfold bind, lift.
  destruct r as [e|a]; [reflexivity|]. apply Hl; auto.
Qed.

Lemma local_host : (forall h1 h2, H h1 h2 -> h1 = h2) -> local host.
Proof. intros Heq h1 h2 s1 s2 Hh _. cbn. f_equal. apply Heq, Hh. Qed.

(** Reading the host for a value that is the same on related hosts. *)
Lemma local_host_ret {A : Type} (f : Host -> A) :
  (forall h1 h2, H h1 h2 -> f h1 = f h2) ->
  local (bind host (fun h => ret (f h))).
Proof. intros Hf h1 h2 s1 s2 Hh _. cbn. f_equal. apply Hf, Hh. Qed.

(** Two computations that return the same, followed by the same
    continuation. *)
Lemma bind_determined {A B : Type} (m1 m2 : M A) (k : A -> M B) h1 h2 s1 s2 :
  fst (m1 h1 s1) = fst (m2 h2 s2) ->
  V (snd (m1 h1 s1)) (snd (m2 h2 s2)) ->
  H h1 h2 ->
  (forall a, local (k a)) ->
  fst (bind m1 k h1 s1) = fst (bind m2 k h2 s2).
Proof.
  intros Hr Hv Hh Hl. unfold bind.
  destruct (m1 h1 s1) as [r1 s1'], (m2 h2 s2) as [r2 s2']. cbn [fst snd] in *.
  subst r2. destruct r1 as [e|a]; [reflexivity|]. apply Hl; assumption.
Qed.

End Local.

(** The data that [getProjection] finds is read off the snapshots. *)
Lemma select_projection_view n aggregateId rows :
  map p_data (filter (of_projection n aggregateId) rows)
  = map snapshot_data
        (filter (fun c => snapshot_aggregate c =? aggregateId)
                (map content (filter (fun r => p_projection_name r =? n) rows))).
Proof.
  induction rows as [|r rest IH]; [reflexivity|].
  cbn [filter]. unfold of_projection at 1.
  destruct (p_projection_name r =? n); cbn [andb map filter].
  - change (snapshot_aggregate (content r)) with (p_aggregate_id r).
    destruct (p_aggregate_id r =? aggregateId); cbn [map]; rewrite IH;
      reflexivity.
  - exact IH.
Qed.

Lemma getProjection_local (H : Host -> Host -> Prop) n aggregateId :
  (forall h1 h2, H h1 h2 -> agree h1 h2) ->
  local H (same_view n) (getProjection n aggregateId).
Proof.
  intros Hsub h1 h2 s1 s2 Hh Hv.
  unfold getProjection, try_catch, select_projection, bind, sent, store, ret,
    console_error, console_log.
  rewrite <- (Hsub h1 h2 Hh). destruct (refuses h1 _); [reflexivity|].
  cbn [fst]. rewrite !select_projection_view.
  unfold same_view, view, rows_of in Hv. rewrite Hv. reflexivity.
Qed.

Ltac localize H V VT known :=
  repeat first [ match goal with |- forall _, _ => intro end
               | known
               | apply (local_ret H V) | apply (local_throw H V)
               | apply (local_lift H V) | apply (local_bind H V VT)
               | apply local_if
               | apply getProjection_tables
               | apply (keeps_lift _ same_tables_refl)
               | apply (keeps_host _ same_tables_refl)
               | assumption ].

Lemma agree_refl h1 h2 : h1 = h2 -> agree h1 h2.
Proof. intros -> q. reflexivity. Qed.

Lemma user_summary_local eventType eventData aggregateId :
  local eq (same_view "user-summary")
        (project user_summary eventType eventData aggregateId).
Proof.
  cbn [project user_summary].
  localize (@eq Host) (same_view "user-summary")
           (same_view_tables "user-summary")
    ltac:(first [ apply (getProjection_local eq "user-summary" _ agree_refl)
                | apply local_host; auto ]).
Qed.

Lemma order_summary_local eventType eventData aggregateId :
  local eq (same_view "order-summary")
        (project order_summary eventType eventData aggregateId).
Proof.
  cbn [project order_summary].
  localize (@eq Host) (same_view "order-summary")
           (same_view_tables "order-summary")
    ltac:(first [ apply (getProjection_local eq "order-summary" _ agree_refl)
                | apply local_host; auto ]).
Qed.

Lemma analytics_local eventType eventData aggregateId :
  local eq (same_view "analytics")
        (project analytics eventType eventData aggregateId).
Proof.
  cbn [project analytics].
  localize (@eq Host) (same_view "analytics") (same_view_tables "analytics")
    ltac:(first [ apply (getProjection_local eq "analytics" _ agree_refl)
                | apply local_host; auto ]).
Qed.

(** A registry in which every fold reads the snapshots of its own
    projection only. *)
Definition all_local (registry : Registry) : Prop :=
  forall entry eventType eventData aggregateId,
    In entry registry ->
    local eq (same_view (fst entry))
          (project (snd entry) eventType eventData aggregateId).

Lemma setupProjections_local : all_local setupProjections.
Proof.
  intros entry eventType eventData aggregateId [<-|[<-|[<-|[]]]]; cbn [fst snd].
  - apply user_summary_local.
  - apply order_summary_local.
  - apply analytics_local.
Qed.

Lemma setupProjections_names : NoDup (map fst setupProjections).
Proof.
  cbn. repeat constructor; cbn; intuition discriminate.
Qed.

(** ** What a step does to the snapshots of its projection *)

(** The upsert, told on snapshots. *)
Fixpoint vupsert (aggregateId : string) (data : value) (eventId : uuid)
  (v : list snapshot) : list snapshot :=
  match v with
  | [] => [(aggregateId, data, 1%Z, eventId)]
  | c :: rest =>
      if snapshot_aggregate c =? aggregateId
      then (snapshot_aggregate c, data, (snapshot_version c + 1)%Z, eventId)
           :: rest
      else c :: vupsert aggregateId data eventId rest
  end.

Lemma view_upsert projectionName row rows :
  p_projection_name row = projectionName ->
  p_version row = 1%Z ->
  map content
      (filter (fun r => p_projection_name r =? projectionName)
              (upsert row rows))
  = vupsert (p_aggregate_id row) (p_data row) (p_last_event_id row)
            (map content
                 (filter (fun r => p_projection_name r =? projectionName)
                         rows)).
Proof.
  intros Hn Hv. induction rows as [|r rest IH]; cbn [upsert filter map vupsert].
  - rewrite Hn, String.eqb_refl. cbn [map]. unfold content. rewrite Hv.
    reflexivity.
  - unfold of_projection at 1. rewrite Hn.
    destruct (p_projection_name r =? projectionName) eqn:Hrn; cbn [andb].
    + cbn [map vupsert].
      change (snapshot_aggregate (content r)) with (p_aggregate_id r).
      destruct (p_aggregate_id r =? p_aggregate_id row) eqn:Hra.
      * cbn [filter p_projection_name]. rewrite Hrn. reflexivity.
      * cbn [filter]. rewrite Hrn. cbn [map]. rewrite IH. reflexivity.
    + cbn [filter]. rewrite Hrn. exact IH.
Qed.

Lemma saveProjection_view projectionName aggregateId data eventId h s :
  view projectionName
       (snd (saveProjection projectionName aggregateId data eventId h s))
  = if refuses h (UpsertProjection projectionName aggregateId (jsonify data)
                                   eventId)
    then view projectionName s
    else vupsert aggregateId (jsonify data) eventId (view projectionName s).
Proof.
  unfold saveProjection, try_catch, upsert_projection, bind, uuidv4, sent,
    console_error, console_log.
  destruct (refuses h _); [reflexivity|].
  cbn [snd]. unfold view, rows_of. cbn [projections].
  apply (view_upsert projectionName
           (mkProjectionRow (uuids s) projectionName aggregateId
                            (jsonify data) 1 eventId (now h)));
    reflexivity.
Qed.

Lemma saveProjection_returns projectionName aggregateId data eventId h s :
  fst (saveProjection projectionName aggregateId data eventId h s) = inr tt.
Proof.
  unfold saveProjection, try_catch, upsert_projection, bind, uuidv4, sent,
    console_error, console_log.
  destruct (refuses h _); reflexivity.
Qed.

Lemma updateProjection_returns eventType eventData eventId aggregateId entry
      h s :
  fst (updateProjection eventType eventData eventId aggregateId entry h s)
  = inr tt.
Proof.
  destruct entry as [projectionName projection]. unfold updateProjection.
  destruct (includes _ _); [|reflexivity].
  unfold try_catch, bind.
  destruct (project projection eventType eventData aggregateId h s)
    as [[e|data] s1]; [reflexivity|].
  destruct (truthy data); [|reflexivity].
  pose proof (saveProjection_returns projectionName aggregateId data eventId
                                     h s1) as Hs.
  destruct (saveProjection _ _ _ _ h s1) as [[e|[]] s2]; cbn [fst] in Hs;
    [discriminate | reflexivity].
Qed.

(** The step of a projection, told on its snapshots: nothing changes
    when the fold throws or gives a falsy value, and what it gives is
    upserted otherwise, unless the database refuses. *)
Lemma updateProjection_view eventType eventData eventId aggregateId
      projectionName projection h s :
  reads_only projection ->
  view projectionName
       (snd (updateProjection eventType eventData eventId aggregateId
                              (projectionName, projection) h s))
  = if includes (eventTypes projection) eventType then
      match fst (project projection eventType eventData aggregateId h s) with
      | inr data =>
          if truthy data
             && negb (refuses h (UpsertProjection projectionName aggregateId
                                                  (jsonify data) eventId))
          then vupsert aggregateId (jsonify data) eventId
                       (view projectionName s)
          else view projectionName s
      | inl _ => view projectionName s
      end
    else view projectionName s.
Proof.
  intros Hro. unfold updateProjection.
  destruct (includes _ _); [|reflexivity].
  unfold try_catch, bind.
  pose proof (same_tables_view projectionName _ _
                (Hro eventType eventData aggregateId h s)) as Hv.
  destruct (project projection eventType eventData aggregateId h s)
    as [[e|data] s1]; cbn [fst snd] in *; [exact Hv|].
  destruct (truthy data); cbn [andb]; [|exact Hv].
  pose proof (saveProjection_view projectionName aggregateId data eventId h s1)
    as Hs.
  pose proof (saveProjection_returns projectionName aggregateId data eventId
                                     h s1) as Hr.
  destruct (saveProjection _ _ _ _ h s1) as [[e|[]] s2]; cbn [fst snd] in *;
    [discriminate|].
  rewrite Hs, Hv. destruct (refuses h _); reflexivity.
Qed.

(** The step of a projection that throws or gives a falsy value writes
    to no table. *)
Lemma updateProjection_idle eventType eventData eventId aggregateId
      projectionName projection h s :
  reads_only projection ->
  match fst (project projection eventType eventData aggregateId h s) with
  | inr data => truthy data = false
  | inl _ => True
  end ->
  same_tables s
    (snd (updateProjection eventType eventData eventId aggregateId
                           (projectionName, projection) h s)).
Proof.
  intros Hro Hidle. unfold updateProjection.
  destruct (includes _ _); [|apply same_tables_refl].
  unfold try_catch, bind.
  pose proof (Hro eventType eventData aggregateId h s) as Hs.
  destruct (project projection eventType eventData aggregateId h s)
    as [[e|data] s1]; cbn [fst snd] in *; [exact Hs|].
  rewrite Hidle. exact Hs.
Qed.

(** The loop of [updateProjections], seen from one of its entries: the
    steps of the other entries leave the rows of this one alone. *)
Lemma updateProjections_split registry eventType eventData eventId aggregateId
      aggregateType projectionName projection h :
  NoDup (map fst registry) ->
  all_read_only registry ->
  In (projectionName, projection) registry ->
  forall s,
  exists s1,
    rows_of projectionName s1 = rows_of projectionName s
    /\ rows_of projectionName
         (snd (updateProjections registry eventType eventData eventId
                                 aggregateId aggregateType h s))
       = rows_of projectionName
           (snd (updateProjection eventType eventData eventId aggregateId
                                  (projectionName, projection) h s1)).
Proof.
  unfold updateProjections.
  pose (f := fun (m : string) (_ : string) => m =? projectionName).
  induction registry as [|entry rest IH]; intros Hnd Hro Hin s; [destruct Hin|].
  cbn [map] in Hnd. apply NoDup_cons_iff in Hnd. destruct Hnd as [Hfresh Hnd].
  assert (Hro' : all_read_only rest).
  { intros e He. apply Hro. right. exact He. }
  cbn [for_each]. unfold bind at 1.
  pose proof (updateProjection_returns eventType eventData eventId aggregateId
                                       entry h s) as Hret.
  destruct (updateProjection eventType eventData eventId aggregateId entry h s)
    as [[e|[]] s'] eqn:Hstep; cbn [fst] in Hret; [discriminate|].
  destruct Hin as [->|Hin].
  - exists s. split; [reflexivity|]. rewrite Hstep. cbn [snd].
    apply (keeps_for_each (untouched f) (untouched_refl f) (untouched_trans f)).
    intros e He. apply updateProjection_untouched; [apply Hro'; exact He|].
    unfold f. apply String.eqb_neq. intros Heq. apply Hfresh.
    cbn [fst]. rewrite <- Heq. apply in_map. exact He.
  - destruct (IH Hnd Hro' Hin s') as (s1 & H1 & H2).
    exists s1. split; [|exact H2]. rewrite H1.
    assert (Hu : untouched f s s').
    { replace s' with
        (snd (updateProjection eventType eventData eventId aggregateId entry
                               h s)) by (rewrite Hstep; reflexivity).
      apply updateProjection_untouched; [apply Hro; left; reflexivity|].
      unfold f. apply String.eqb_neq. intros Heq. apply Hfresh.
      rewrite Heq. apply (in_map fst _ _ Hin). }
    exact Hu.
Qed.

Lemma for_each_returns {A : Type} (l : list A) (body : A -> M unit) :
  (forall x h s, fst (body x h s) = inr tt) ->
  forall h s, fst (for_each l body h s) = inr tt.
Proof.
  intros Hb. induction l as [|x rest IH]; intros h s; cbn [for_each].
  - reflexivity.
  - unfold bind. specialize (Hb x h s).
    destruct (body x h s) as [[e|[]] s1]; cbn [fst] in Hb; [discriminate|].
    apply IH.
Qed.

Lemma updateProjections_returns registry eventType eventData eventId
      aggregateId aggregateType h s :
  fst (updateProjections registry eventType eventData eventId aggregateId
                         aggregateType h s) = inr tt.
Proof.
  unfold updateProjections. apply for_each_returns.
  intros entry h0 s0. apply updateProjection_returns.
Qed.

(** Each projection is updated as if it were the only one. *)
Lemma updateProjections_alone registry eventType eventData eventId aggregateId
      aggregateType projectionName projection h s :
  NoDup (map fst registry) ->
  all_read_only registry ->
  all_local registry ->
  In (projectionName, projection) registry ->
  view projectionName
       (snd (updateProjections registry eventType eventData eventId
                               aggregateId aggregateType h s))
  = view projectionName
         (snd (updateProjection eventType eventData eventId aggregateId
                                (projectionName, projection) h s)).
Proof.
  intros Hnd Hro Hloc Hin.
  destruct (updateProjections_split registry eventType eventData eventId
              aggregateId aggregateType projectionName projection h Hnd Hro
              Hin s) as (s1 & H1 & H2).
  assert (Hv : view projectionName s1 = view projectionName s).
  { unfold view. rewrite H1. reflexivity. }
  unfold view at 1. rewrite H2. fold (view projectionName
    (snd (updateProjection eventType eventData eventId aggregateId
                           (projectionName, projection) h s1))).
  pose proof (Hro _ Hin) as Hp. cbn [snd] in Hp.
  rewrite !updateProjection_view by exact Hp.
  pose proof (Hloc _ eventType eventData aggregateId Hin h h s1 s eq_refl Hv)
    as Hl.
  cbn [fst snd] in Hl. rewrite Hl, Hv. reflexivity.
Qed.

(** C5.  In a registry whose names differ and whose folds write to no
    table and read the snapshots of their own projection only (the
    registry of the service is one): [updateProjections] never throws,
    whatever the folds and the database do; it leaves the events as they
    are; and the snapshots of each projection are afterwards what the
    step of that projection alone makes of them, whether the steps of
    the others succeed or fail.  The row of the event is in the table as
    soon as the insert is accepted, whatever happens to the projections
    afterwards. *)
Theorem a_failing_projection_fails_alone (registry : Registry) :
  NoDup (map fst registry) ->
  all_read_only registry ->
  all_local registry ->
  (forall eventType eventData eventId aggregateId aggregateType h s,
      let s' := snd (updateProjections registry eventType eventData eventId
                                       aggregateId aggregateType h s) in
      fst (updateProjections registry eventType eventData eventId aggregateId
                             aggregateType h s) = inr tt
      /\ events s' = events s
      /\ forall projectionName projection,
           In (projectionName, projection) registry ->
           view projectionName s'
           = view projectionName
               (snd (updateProjection eventType eventData eventId aggregateId
                                      (projectionName, projection) h s)))
  /\ (forall eventType eventData metadata p h s correlationId data,
        member metadata "id" = inr correlationId ->
        stringify eventData = Some data ->
        let md := jsonify (object [ Spread metadata;
                                    Key "source" (VStr "message-broker");
                                    Key "correlationId" correlationId ]) in
        refuses h (InsertEvent (aggregateId p) (aggregateType p) eventType
                               (nextVersion p) (Some data) md) = false ->
        events (snd (storeEvent_write registry eventType eventData metadata
                                      p h s))
        = (events s
           ++ [mkEventRow (eventId p) (aggregateId p) (aggregateType p)
                          eventType (nextVersion p) data md (now h)
                          (last_sequence s + 1)])%list).
Proof.
  intros Hnd Hro Hloc. split.
  - intros eventType eventData eventId aggregateId aggregateType h s s'.
    split; [apply updateProjections_returns|]. split.
    + apply (updateProjections_events registry eventType eventData eventId
               aggregateId aggregateType Hro h s).
    + intros projectionName projection Hin.
      apply updateProjections_alone; assumption.
  - intros eventType eventData metadata p h s correlationId data Hm Hd md Href.
    apply storeEvent_write_appends; assumption.
Qed.

(** A host whose database refuses to save the snapshots of
    "user-summary". *)
Definition host_without_user_summary : Host :=
  mkHost 1000 (fun _ => None) (fun ms => string_of_Z (ms / 86400000))
         (fun q => match q with
                   | UpsertProjection projectionName _ _ _ =>
                       projectionName =? "user-summary"
                   | _ => false
                   end)
         true.

(** The first user on that host: the snapshot of "user-summary" is not
    saved, that of "analytics" is. *)
Lemma a_failing_projection_fails_alone_witness :
  let data := VObj [("userId", VNum 1); ("timestamp", VStr "t1")] in
  let s' := snd (updateProjections setupProjections "user.created" data 0%nat
                                   "user-1" "User" host_without_user_summary
                                   fresh) in
  view "user-summary" s' = []
  /\ view "analytics" s'
     = view "analytics"
         (snd (updateProjection "user.created" data 0%nat "user-1"
                                ("analytics", analytics)
                                host_without_user_summary fresh))
  /\ map snapshot_aggregate (view "analytics" s') = ["user-1"].
Proof.
  intros data s'. split; [reflexivity|]. split; [|reflexivity].
  apply (proj1 (a_failing_projection_fails_alone setupProjections
                  setupProjections_names setupProjections_read_only
                  setupProjections_local)).
  right. right. left. reflexivity.
Defined.

(** ** What the folds of the service give *)

(** What a computation returns, when it returns. *)
Definition gives {A : Type} (Q : A -> Prop) (m : M A) : Prop :=
  forall h s a, fst (m h s) = inr a -> Q a.

Lemma gives_ret {A : Type} (Q : A -> Prop) (a : A) : Q a -> gives Q (ret a).
Proof. intros Hq h s a' [= <-]. exact Hq. Qed.

Lemma gives_bind {A B : Type} (Q : B -> Prop) (m : M A) (k : A -> M B) :
  (forall a, gives Q (k a)) -> gives Q (bind m k).
Proof.
  intros Hk h s b. unfold bind.
  destruct (m h s) as [[e|a] s1]; [discriminate|]. apply Hk.
Qed.

Lemma gives_if {A : Type} (Q : A -> Prop) (b : bool) (m1 m2 : M A) :
  gives Q m1 -> gives Q m2 -> gives Q (if b then m1 else m2).
Proof. destruct b; auto. Qed.

(** A fold of the service gives an object or [undefined]. *)
Definition object_or_undefined (v : value) : Prop :=
  v = VUndefined \/ exists props, v = VObj props.

Lemma folds_give_object_or_undefined entry eventType eventData aggregateId :
  In entry setupProjections ->
  gives object_or_undefined
        (project (snd entry) eventType eventData aggregateId).
Proof.
  intros [<-|[<-|[<-|[]]]]; cbn [snd project user_summary order_summary analytics];
    repeat first [ match goal with |- forall _, _ => intro end
                 | apply gives_bind | apply gives_if
                 | apply gives_ret; first [ left; reflexivity
                                          | right; eexists; reflexivity ] ].
Qed.

Lemma find_vupsert aggregateId data eventId v :
  find (fun c => snapshot_aggregate c =? aggregateId)
       (vupsert aggregateId data eventId v)
  = Some (aggregateId, data,
          match find (fun c => snapshot_aggregate c =? aggregateId) v with
          | Some c => (snapshot_version c + 1)%Z
          | None => 1%Z
          end,
          eventId).
Proof.
  induction v as [|c rest IH]; cbn [vupsert find].
  - cbn [snapshot_aggregate fst]. rewrite String.eqb_refl. reflexivity.
  - destruct (snapshot_aggregate c =? aggregateId) eqn:Hc.
    + cbn [find snapshot_aggregate fst]. rewrite Hc.
      apply String.eqb_eq in Hc. rewrite Hc. reflexivity.
    + cbn [find]. rewrite Hc. exact IH.
Qed.

(** What the statement of [saveProjection] would do on a table that had
    a unique index on (projection_name, aggregate_id), which the table
    of [createTables] has not: for an event and a projection of the
    service that lists its type, with [data] what the fold gives on the
    store as the event finds it, a database that does not refuse the
    upsert leaves the snapshot of (projection, aggregate of the event)
    with that data, the identifier of the event as last event, and a
    version one above the version it had, 1 when there was none.  When
    the fold gives [null] or [undefined], or throws, or when the
    database refuses the statement, the rows stay as they were. *)
Lemma an_accepted_upsert_writes_the_snapshot :
  forall projectionName projection eventType eventData eventId aggregateId
         aggregateType h s,
    In (projectionName, projection) setupProjections ->
    includes (eventTypes projection) eventType = true ->
    let s' := snd (updateProjections setupProjections eventType eventData
                                     eventId aggregateId aggregateType h s) in
    match fst (project projection eventType eventData aggregateId h s) with
    | inr data =>
        if nullish data then
          rows_of projectionName s' = rows_of projectionName s
        else
          (refuses h (UpsertProjection projectionName aggregateId
                                       (jsonify data) eventId) = false ->
           snapshot_of projectionName aggregateId s'
           = Some (aggregateId, jsonify data,
                   match snapshot_of projectionName aggregateId s with
                   | Some before => (snapshot_version before + 1)%Z
                   | None => 1%Z
                   end,
                   eventId))
          /\ (refuses h (UpsertProjection projectionName aggregateId
                                          (jsonify data) eventId) = true ->
              view projectionName s' = view projectionName s)
    | inl _ => rows_of projectionName s' = rows_of projectionName s
    end.
Proof.
  intros projectionName projection eventType eventData eventId aggregateId
         aggregateType h s Hin Hty s'.
  pose proof (setupProjections_read_only _ Hin) as Hro. cbn [snd] in Hro.
  assert (Hidle :
    match fst (project projection eventType eventData aggregateId h s) with
    | inr data => truthy data = false
    | inl _ => True
    end -> rows_of projectionName s' = rows_of projectionName s).
  { intros Hi.
    destruct (updateProjections_split setupProjections eventType eventData
                eventId aggregateId aggregateType projectionName projection h
                setupProjections_names setupProjections_read_only Hin s)
      as (s1 & H1 & H2).
    subst s'. rewrite H2, <- H1. apply same_tables_rows_of.
    apply updateProjection_idle; [exact Hro|].
    assert (Hv : view projectionName s1 = view projectionName s)
      by (unfold view; rewrite H1; reflexivity).
    pose proof (setupProjections_local _ eventType eventData aggregateId Hin
                                       h h s1 s eq_refl Hv) as Hl.
    cbn [fst snd] in Hl. rewrite Hl. exact Hi. }
  pose proof (folds_give_object_or_undefined _ eventType eventData aggregateId
                                             Hin h s) as Hgives.
  cbn [snd] in Hgives.
  destruct (fst (project projection eventType eventData aggregateId h s))
    as [e|data] eqn:Hfold.
  - apply Hidle. exact I.
  - destruct (Hgives data eq_refl) as [->|[props ->]]; cbn [nullish].
    + apply Hidle. reflexivity.
    + assert (Hview :
        view projectionName s'
        = if negb (refuses h (UpsertProjection projectionName aggregateId
                                               (jsonify (VObj props)) eventId))
          then vupsert aggregateId (jsonify (VObj props)) eventId
                       (view projectionName s)
          else view projectionName s).
      { subst s'.
        rewrite (updateProjections_alone setupProjections eventType eventData
                   eventId aggregateId aggregateType projectionName projection
                   h s setupProjections_names setupProjections_read_only
                   setupProjections_local Hin).
        rewrite updateProjection_view by exact Hro.
        rewrite Hty, Hfold. reflexivity. }
      split; intros Href; rewrite Href in Hview; cbn [negb] in Hview.
      * unfold snapshot_of. rewrite Hview. apply find_vupsert.
      * exact Hview.
Qed.

(** C6.  On the tables that [createTables] makes, no snapshot is ever
    written.  The statement of [saveProjection] names (projection_name,
    aggregate_id) as its conflict target, the table has no unique index
    on that pair, and the database refuses the statement every time;
    [saveProjection] catches the error, writes it to the console and
    returns.  So for every event and every projection of the service
    that lists its type, whatever the fold gives (also an object, for
    which the snapshot should be written with its version and the
    identifier of the event), both tables are after [updateProjections]
    exactly as they were before, and the snapshot of the aggregate is
    the one it was, none when there was none; and every store that the
    service reaches from an empty database has no snapshot at all. *)
Theorem no_snapshot_is_written :
  forall h,
    created h ->
    (forall projectionName aggregateId data eventId s,
        saveProjection projectionName aggregateId data eventId h s
        = (inr tt,
           mkStore (events s) (projections s) (last_sequence s) (S (uuids s))
                   (published s) (console s ++ [save_error])))
    /\ (forall projectionName projection eventType eventData eventId
               aggregateId aggregateType s,
          In (projectionName, projection) setupProjections ->
          includes (eventTypes projection) eventType = true ->
          let s' := snd (updateProjections setupProjections eventType
                                           eventData eventId aggregateId
                                           aggregateType h s) in
          projections s' = projections s
          /\ events s' = events s
          /\ snapshot_of projectionName aggregateId s'
             = snapshot_of projectionName aggregateId s)
    /\ (forall eventType eventData metadata s,
          reached s ->
          let s' := snd (storeEvent setupProjections eventType eventData
                                    metadata h s) in
          projections s' = []
          /\ forall projectionName aggregateId,
               snapshot_of projectionName aggregateId s' = None).
Proof.
  intros h Hc. split; [|split].
  - intros projectionName aggregateId data eventId s.
    apply saveProjection_created, Hc.
  - intros projectionName projection eventType eventData eventId aggregateId
           aggregateType s _ _ s'. subst s'.
    destruct (updateProjections_here h Hc setupProjections eventType eventData
                eventId aggregateId aggregateType setupProjections_read_only s)
      as (He & _ & Hp).
    split; [exact Hp|]. split; [exact He|].
    unfold snapshot_of, view, rows_of. rewrite Hp. reflexivity.
  - intros eventType eventData metadata s Hs s'.
    assert (Hp : projections s' = []).
    { apply reached_no_snapshot. subst s'.
      apply reached_storeEvent; assumption. }
    split; [exact Hp|]. intros projectionName aggregateId.
    unfold snapshot_of, view, rows_of. rewrite Hp. reflexivity.
Qed.

(** Order 1 is created on an empty database with the tables of
    [createTables]: the fold of "order-summary" gives an object for the
    event, and the table of the projections is empty afterwards. *)
Lemma no_snapshot_is_written_witness :
  let h := service_at 1000 in
  let s' := snd (updateProjections setupProjections "order.created" order_1
                                   0%nat "order-1" "Order" h fresh) in
  fst (project order_summary "order.created" order_1 "order-1" h fresh)
  = inr (VObj [("orderId", VNum 1); ("userId", VUndefined);
               ("totalAmount", VUndefined); ("status", VStr "pending");
               ("items", VUndefined); ("createdAt", VStr "t1");
               ("statusHistory",
                VArr [VObj [("status", VStr "pending");
                            ("timestamp", VStr "t1")]])])
  /\ projections s' = []
  /\ snapshot_of "order-summary" "order-1" s' = None
  /\ console s' = [save_error; save_error].
Proof.
  intros h s'.
  destruct (no_snapshot_is_written h (service_at_created 1000))
    as (_ & Hupdate & _).
  destruct (Hupdate "order-summary" order_summary "order.created" order_1
                    0%nat "order-1" "Order" fresh)
    as (Hp & _ & Hs).
  - right. left. reflexivity.
  - reflexivity.
  - fold s' in Hp, Hs.
    split; [vm_compute; reflexivity|].
    split; [exact Hp|]. split; [exact Hs|]. vm_compute. reflexivity.
Defined.

(** ** What the result of a fold depends on *)

(** Two hosts, whatever they are. *)
Definition any_host (h1 h2 : Host) : Prop := True.

Lemma order_summary_determined eventType eventData a1 a2 h1 h2 s1 s2 :
  fst (getProjection "order-summary" a1 h1 s1)
  = fst (getProjection "order-summary" a2 h2 s2) ->
  fst (project order_summary eventType eventData a1 h1 s1)
  = fst (project order_summary eventType eventData a2 h2 s2).
Proof.
  intros Hread. cbn [project order_summary].
  apply (bind_determined any_host any_store _ _ _ h1 h2 s1 s2 Hread I I).
  localize any_host any_store any_store_tables ltac:(fail).
Qed.

Lemma user_summary_determined eventType eventData a1 a2 h1 h2 s1 s2 :
  fst (getProjection "user-summary" a1 h1 s1)
  = fst (getProjection "user-summary" a2 h2 s2) ->
  (eventType = "user.created" ->
   truthy (get eventData "timestamp") = true \/ now h1 = now h2) ->
  fst (project user_summary eventType eventData a1 h1 s1)
  = fst (project user_summary eventType eventData a2 h2 s2).
Proof.
  intros Hread Hclock. cbn [project user_summary].
  destruct (String.eqb_spec eventType "user.created") as [Hty|Hty].
  - specialize (Hclock Hty).
    pose (H := fun h1 h2 : Host =>
                 truthy (get eventData "timestamp") = true
                 \/ now h1 = now h2).
    apply (bind_determined H any_store _ _ _ h1 h2 s1 s2 Hread I Hclock).
    intros existing.
    do 4 (apply (local_bind H any_store any_store_tables);
          [ apply local_lift
          | apply (keeps_lift _ same_tables_refl)
          | intro ]).
    apply local_bind_lift. intros timestamp Hts.
    apply local_host_ret. intros h h' [Htruthy|Hnow].
    + unfold member in Hts. destruct (nullish eventData); [discriminate|].
      injection Hts as <-. unfold or. rewrite Htruthy. reflexivity.
    + rewrite Hnow. reflexivity.
  - apply (bind_determined any_host any_store _ _ _ h1 h2 s1 s2 Hread I I).
    localize any_host any_store any_store_tables ltac:(fail).
Qed.

Lemma analytics_determined eventType eventData a1 a2 h1 h2 s1 s2 :
  fst (getProjection "analytics" "global" h1 s1)
  = fst (getProjection "analytics" "global" h2 s2) ->
  now h1 = now h2 ->
  toDateString h1 (now h1) = toDateString h2 (now h2) ->
  (forall v, dateString h1 (new_Date h1 v) = dateString h2 (new_Date h2 v)) ->
  fst (project analytics eventType eventData a1 h1 s1)
  = fst (project analytics eventType eventData a2 h2 s2).
Proof.
  intros Hread Hnow Htoday Hdate. cbn [project analytics].
  pose (H := fun h h' : Host =>
               now h = now h'
               /\ toDateString h (now h) = toDateString h' (now h')
               /\ forall v, dateString h (new_Date h v)
                            = dateString h' (new_Date h' v)).
  apply (bind_determined H any_store _ _ _ h1 h2 s1 s2 Hread I);
    [repeat split; assumption|].
  intros stored h h' s s' (Hn & Ht & Hd) _.
  unfold bind, host, lift, ret. cbn [fst snd dateString].
  destruct (member eventData "timestamp") as [e|timestamp]; [reflexivity|].
  rewrite Ht, (Hd timestamp), Hn.
  repeat match goal with
         | |- context [if ?b then _ else _] => destruct b
         end;
    try reflexivity;
    destruct (member eventData "amount"); reflexivity.
Qed.

(** C10.  The fold of "analytics" reads the snapshot kept under
    ("analytics", "global"): on one host, two stores in which that read
    gives the same make it give the same, whatever the aggregate of the
    event.  [updateProjections] saves what a fold gives under the
    aggregate of the event: a call for an aggregate other than "global"
    leaves the row ("analytics", "global") as it is, and so does every
    call of [storeEvent], because the resolver never gives "global". *)
Theorem analytics_global_is_never_written :
  (forall eventType eventData a1 a2 h s1 s2,
      fst (getProjection "analytics" "global" h s1)
      = fst (getProjection "analytics" "global" h s2) ->
      fst (project analytics eventType eventData a1 h s1)
      = fst (project analytics eventType eventData a2 h s2))
  /\ (forall eventType eventData eventId aggregateId aggregateType h s,
        aggregateId <> "global" ->
        let s' := snd (updateProjections setupProjections eventType eventData
                                         eventId aggregateId aggregateType h s)
        in
        filter (of_projection "analytics" "global") (projections s')
        = filter (of_projection "analytics" "global") (projections s))
  /\ (forall eventType eventData metadata h s,
        let s' := snd (storeEvent setupProjections eventType eventData
                                  metadata h s) in
        filter (of_projection "analytics" "global") (projections s')
        = filter (of_projection "analytics" "global") (projections s)).
Proof.
  pose (f := fun n a : string => (n =? "analytics") && (a =? "global")).
  split; [|split].
  - intros eventType eventData a1 a2 h s1 s2 Hread.
    apply analytics_determined; auto.
  - intros eventType eventData eventId aggregateId aggregateType h s Hne s'.
    apply (updateProjections_untouched f setupProjections eventType eventData
             eventId aggregateId aggregateType setupProjections_read_only).
    intros entry _. unfold f.
    destruct (String.eqb_spec aggregateId "global"); [contradiction|].
    apply andb_false_r.
  - intros eventType eventData metadata h s s'.
    apply (storeEvent_untouched f setupProjections eventType eventData
             metadata h s setupProjections_read_only).
    intros entry a _ Ha. unfold f.
    apply extractAggregateId_not_global in Ha.
    destruct (String.eqb_spec a "global"); [contradiction|].
    apply andb_false_r.
Qed.

(** The first user, stored on an empty database: analytics has a row for
    "user-1" and none for "global". *)
Lemma analytics_global_is_never_written_witness :
  let data := VObj [("userId", VNum 1); ("timestamp", VStr "t1")] in
  let s' := snd (updateProjections setupProjections "user.created" data 0%nat
                                   "user-1" "User" (host_at 1000) fresh) in
  filter (of_projection "analytics" "global") (projections s') = []
  /\ map p_aggregate_id
         (filter (fun r => p_projection_name r =? "analytics") (projections s'))
     = ["user-1"].
Proof.
  intros data s'. split; [|reflexivity].
  apply (proj1 (proj2 analytics_global_is_never_written) "user.created" data
               0%nat "user-1" "User" (host_at 1000) fresh).
  discriminate.
Defined.

(** The payload of the event [user.created] of user 1, and of a login. *)
Definition user_1 : value :=
  VObj [("userId", VNum 1); ("email", VStr "a@b.c"); ("timestamp", VStr "t1")].

Definition login_1 : value :=
  VObj [("userId", VNum 1); ("timestamp", VStr "t2")].

(** A host whose database refuses every statement. *)
Definition host_down (t : Z) : Host :=
  mkHost t (fun _ => None) (fun ms => string_of_Z (ms / 86400000))
         (fun _ => true) true.

(** C8, refuted.  The fold of "analytics" gives, for the same event, the
    same aggregate and the same store (without a snapshot), one result
    when the clock reads 1000 and another when it reads 2000.  The fold
    of "user-summary" reads the database itself: for the same login
    event, while the snapshot of the user has one login counted, it
    continues from that snapshot when the database answers, starts from
    nothing when the database refuses the read, and then writes a line
    to the console. *)
Lemma a_fold_reads_the_clock_and_the_database :
  (exists v1 v2,
      fst (project analytics "user.created" user_1 "user-1" (host_at 1000)
                   fresh) = inr v1
      /\ fst (project analytics "user.created" user_1 "user-1" (host_at 2000)
                      fresh) = inr v2
      /\ get v1 "lastUpdated" = VStr "1970-01-01T00:00:01.000Z"
      /\ get v2 "lastUpdated" = VStr "1970-01-01T00:00:02.000Z")
  /\ (let s := run setupProjections
                   [ mkCall (host_at 1000) "user.created" user_1 VUndefined;
                     mkCall (host_at 2000) "user.login" login_1 VUndefined ]
                   fresh in
      exists v1 v2,
        fst (project user_summary "user.login" login_1 "user-1" (host_at 3000)
                     s) = inr v1
        /\ fst (project user_summary "user.login" login_1 "user-1"
                        (host_down 3000) s) = inr v2
        /\ get v1 "loginCount" = VNum 2
        /\ get v2 "loginCount" = VNum 1
        /\ console (snd (project user_summary "user.login" login_1 "user-1"
                                 (host_at 3000) s))
           = console s
        /\ console (snd (project user_summary "user.login" login_1 "user-1"
                                 (host_down 3000) s))
           = (console s ++ ["[EventStore] Get projection error:"])%list).
Proof.
  split.
  - do 2 eexists. repeat split; reflexivity.
  - intros s. do 2 eexists.
    split; [vm_compute; reflexivity|]. split; [vm_compute; reflexivity|].
    repeat split; reflexivity.
Qed.

(** C8, amended.  A fold of the service writes to no table.  It reads
    the database once, through [getProjection], and what it returns or
    throws is a function of the event type, the payload and what that
    read gives (the snapshot of its projection for the aggregate of the
    event, or for "global" in the case of "analytics"; [null] when there
    is none or the read fails), and besides: of nothing for
    "order-summary"; of the clock for "user-summary", on [user.created]
    with a payload that has no timestamp; of the clock and the date
    functions of the host for "analytics". *)
Theorem what_a_fold_depends_on :
  (forall entry, In entry setupProjections -> reads_only (snd entry))
  /\ (forall eventType eventData a1 a2 h1 h2 s1 s2,
        fst (getProjection "order-summary" a1 h1 s1)
        = fst (getProjection "order-summary" a2 h2 s2) ->
        fst (project order_summary eventType eventData a1 h1 s1)
        = fst (project order_summary eventType eventData a2 h2 s2))
  /\ (forall eventType eventData a1 a2 h1 h2 s1 s2,
        fst (getProjection "user-summary" a1 h1 s1)
        = fst (getProjection "user-summary" a2 h2 s2) ->
        (eventType = "user.created" ->
         truthy (get eventData "timestamp") = true \/ now h1 = now h2) ->
        fst (project user_summary eventType eventData a1 h1 s1)
        = fst (project user_summary eventType eventData a2 h2 s2))
  /\ (forall eventType eventData a1 a2 h1 h2 s1 s2,
        fst (getProjection "analytics" "global" h1 s1)
        = fst (getProjection "analytics" "global" h2 s2) ->
        now h1 = now h2 ->
        toDateString h1 (now h1) = toDateString h2 (now h2) ->
        (forall v,
            dateString h1 (new_Date h1 v) = dateString h2 (new_Date h2 v)) ->
        fst (project analytics eventType eventData a1 h1 s1)
        = fst (project analytics eventType eventData a2 h2 s2)).
Proof.
  split; [exact setupProjections_read_only|].
  split; [exact order_summary_determined|].
  split; [exact user_summary_determined | exact analytics_determined].
Qed.

(** The fold of "order-summary" on two hosts with different clocks and
    two stores that hold the same snapshot of order 1. *)
Lemma what_a_fold_depends_on_witness :
  let s := run setupProjections three_orders fresh in
  let data := VObj [("orderId", VNum 1); ("timestamp", VStr "t4")] in
  fst (project order_summary "order.cancelled" data "order-1" (host_at 4000) s)
  = fst (project order_summary "order.cancelled" data "order-1" (host_at 5000)
                 (mkStore [] (rows_of "order-summary" s) 0 0%nat [] [])).
Proof.
  intros s data.
  apply (proj1 (proj2 what_a_fold_depends_on)). vm_compute. reflexivity.
Defined.

(** ** What [storeEvent] does to the snapshots *)

Lemma updateProjection_view_congr eventType eventData eventId aggregateId
      projectionName projection h s1 s2 :
  reads_only projection ->
  local eq (same_view projectionName)
        (project projection eventType eventData aggregateId) ->
  same_view projectionName s1 s2 ->
  view projectionName
       (snd (updateProjection eventType eventData eventId aggregateId
                              (projectionName, projection) h s1))
  = view projectionName
         (snd (updateProjection eventType eventData eventId aggregateId
                                (projectionName, projection) h s2)).
Proof.
  intros Hro Hloc Hv. rewrite !updateProjection_view by exact Hro.
  rewrite (Hloc h h s1 s2 eq_refl Hv). unfold same_view in Hv. rewrite Hv.
  reflexivity.
Qed.

Section Effect.

Variable registry : Registry.
Hypothesis names : NoDup (map fst registry).
Hypothesis read_only : all_read_only registry.
Hypothesis locality : all_local registry.

(** From the insert on: either no table changes, or the row of the event
    is added and each projection takes its own step. *)
Lemma storeEvent_write_effect eventType eventData metadata p h s :
  let s' := snd (storeEvent_write registry eventType eventData metadata p h s)
  in
  same_tables s s'
  \/ exists data md,
       stringify eventData = Some data
       /\ events s'
          = (events s ++ [mkEventRow (eventId p) (aggregateId p)
                                     (aggregateType p) eventType
                                     (nextVersion p) data md (now h)
                                     (last_sequence s + 1)])%list
       /\ last_sequence s' = (last_sequence s + 1)%Z
       /\ forall projectionName projection,
            In (projectionName, projection) registry ->
            view projectionName s'
            = view projectionName
                (snd (updateProjection eventType eventData (eventId p)
                                       (aggregateId p)
                                       (projectionName, projection) h s)).
Proof.
  intros s'. subst s'. unfold storeEvent_write.
  destruct (member metadata "id") as [e|correlationId] eqn:Hm.
  { rewrite (bind_thrown _ _ h s e s) by reflexivity.
    left. apply same_tables_refl. }
  rewrite (bind_returned _ _ h s correlationId s) by reflexivity.
  match goal with
  | |- context [insert_event ?i ?a ?t ?ty ?v ?d ?m] =>
      destruct (insert_event_cases i a t ty v d m h s)
        as [[e He]|(data & Hd & _ & Hi)]
  end.
  { rewrite (bind_thrown _ _ _ _ _ _ He). left. apply same_tables_refl. }
  rewrite (bind_returned _ _ _ _ _ _ Hi).
  right. exists data. eexists. split; [exact Hd|].
  match type of Hi with
  | _ = (_, ?s1) => set (si := s1) in *
  end.
  match goal with
  | |- context [snd (?k h si)] => remember (snd (k h si)) as sf eqn:Hsf
  end.
  unfold bind at 1 in Hsf.
  destruct (console_log _ h si) as [[e|[]] sc] eqn:Hlog;
    [unfold console_log in Hlog; discriminate|].
  assert (Hsc : same_tables si sc).
  { replace sc with (snd (console_log
      ("[EventStore] Stored event: " ++ eventType ++ " for "
       ++ aggregateType p ++ ":" ++ aggregateId p) h si))
      by (rewrite Hlog; reflexivity).
    apply console_log_tables. }
  unfold bind at 1 in Hsf.
  pose proof (updateProjections_returns registry eventType eventData
                (eventId p) (aggregateId p) (aggregateType p) h sc) as Hret.
  pose proof (updateProjections_events registry eventType eventData
                (eventId p) (aggregateId p) (aggregateType p) read_only h sc)
    as Hev.
  pose proof (fun n pr Hin =>
                updateProjections_alone registry eventType eventData
                  (eventId p) (aggregateId p) (aggregateType p) n pr h sc
                  names read_only locality Hin) as Halone.
  destruct (updateProjections registry eventType eventData (eventId p)
              (aggregateId p) (aggregateType p) h sc) as [[e|[]] su];
    cbn [fst snd] in *; [discriminate|].
  match type of Hsf with
  | _ = snd (publish ?c ?d h su) =>
      pose proof (publish_tables c d h su) as Hpub
  end.
  rewrite <- Hsf in Hpub.
  destruct Hsc as (Hsc1 & Hsc2 & Hsc3), Hev as [Hev1 Hev2],
           Hpub as (Hp1 & Hp2 & Hp3).
  split; [|split].
  - rewrite Hp1, Hev1, Hsc1. reflexivity.
  - rewrite Hp2, Hev2, Hsc2. reflexivity.
  - intros n pr Hin. unfold view, rows_of. rewrite Hp3.
    fold (rows_of n su). fold (view n su). rewrite (Halone n pr Hin).
    apply updateProjection_view_congr.
    + apply (read_only _ Hin).
    + apply (locality _ eventType eventData (aggregateId p) Hin).
    + unfold same_view, view, rows_of. rewrite Hsc3. reflexivity.
Qed.

(** A whole call: either no table changes, or the row of the event is
    added, with the identifier the call drew first, and each projection
    takes its own step. *)
Lemma storeEvent_effect eventType eventData metadata h s :
  let s' := snd (storeEvent registry eventType eventData metadata h s) in
  same_tables s s'
  \/ exists a data md,
       extractAggregateId eventType eventData = inr a
       /\ stringify eventData = Some data
       /\ events s'
          = (events s
             ++ [appended_row eventType h s (uuids s) a
                   (next_version a (extractAggregateType eventType) (events s))
                   data md])%list
       /\ last_sequence s' = (last_sequence s + 1)%Z
       /\ forall projectionName projection,
            In (projectionName, projection) registry ->
            view projectionName s'
            = view projectionName
                (snd (updateProjection eventType eventData (uuids s) a
                                       (projectionName, projection) h s)).
Proof.
  intros s'. subst s'. unfold storeEvent.
  set (md := match metadata with VUndefined => VObj [] | _ => metadata end).
  assert (Hbody :
    let s1 := snd ((p <- storeEvent_read eventType eventData ;;
                    storeEvent_write registry eventType eventData md p) h s) in
    same_tables s s1
    \/ exists a data md,
         extractAggregateId eventType eventData = inr a
         /\ stringify eventData = Some data
         /\ events s1
            = (events s
               ++ [appended_row eventType h s (uuids s) a
                     (next_version a (extractAggregateType eventType)
                                   (events s))
                     data md])%list
         /\ last_sequence s1 = (last_sequence s + 1)%Z
         /\ forall projectionName projection,
              In (projectionName, projection) registry ->
              view projectionName s1
              = view projectionName
                  (snd (updateProjection eventType eventData (uuids s) a
                                         (projectionName, projection) h s))).
  { unfold bind at 1.
    pose proof (storeEvent_read_tables eventType eventData h s) as Hr.
    destruct (storeEvent_read eventType eventData h s) as [[e|p] s0] eqn:Hread;
      cbn [snd] in *; [left; exact Hr|].
    destruct (storeEvent_read_returns _ _ _ _ _ _ Hread)
      as (Ha & Ht & Hv & Hid & _).
    destruct (storeEvent_write_effect eventType eventData md p h s0)
      as [Hsame|(data & mdj & Hd & H1 & H2 & H3)].
    - left. eapply same_tables_trans; eassumption.
    - right. exists (aggregateId p), data, mdj.
      destruct Hr as (He & Hs & Hp).
      unfold appended_row. rewrite H1, H2, He, Hs, Hv, Ht, Hid.
      repeat split; auto.
      intros n pr Hin. rewrite (H3 n pr Hin), Hid.
      apply updateProjection_view_congr.
      + apply (read_only _ Hin).
      + apply (locality _ eventType eventData (aggregateId p) Hin).
      + unfold same_view, view, rows_of. rewrite Hp. reflexivity. }
  cbn zeta in Hbody. unfold try_catch.
  destruct ((p <- storeEvent_read eventType eventData ;;
             storeEvent_write registry eventType eventData md p) h s)
    as [[e|[]] s1]; cbn [snd] in *; exact Hbody.
Qed.

End Effect.

(** ** The order of the events *)

Definition le_sequence (a b : EventRow) : Prop :=
  (e_sequence_number a <= e_sequence_number b)%Z.

(** The rows of the events stand in the order of their sequence numbers,
    which lie between 1 and the last number given. *)
Definition sequenced (s : Store) : Prop :=
  StronglySorted le_sequence (events s)
  /\ Forall (fun e => (1 <= e_sequence_number e <= last_sequence s)%Z)
            (events s)
  /\ (0 <= last_sequence s)%Z.

Lemma sequenced_fresh : sequenced fresh.
Proof. repeat split; cbn; try constructor; lia. Qed.

Lemma StronglySorted_snoc {A : Type} (R : A -> A -> Prop) l y :
  StronglySorted R l -> Forall (fun x => R x y) l ->
  StronglySorted R (l ++ [y]).
Proof.
  induction 1 as [|x l Hs IH Hx]; intros Hy; cbn [app].
  - repeat constructor.
  - inversion Hy; subst. constructor; [auto|].
    apply Forall_app. split; [exact Hx | constructor; [assumption|constructor]].
Qed.

Lemma StronglySorted_filter {A : Type} (R : A -> A -> Prop) f l :
  StronglySorted R l -> StronglySorted R (filter f l).
Proof.
  induction 1 as [|x l Hs IH Hx]; cbn [filter]; [constructor|].
  destruct (f x); [|exact IH]. constructor; [exact IH|].
  rewrite Forall_forall in *. intros y Hy. apply Hx.
  apply filter_In in Hy. tauto.
Qed.

Lemma order_by_sequence_sorted l :
  StronglySorted le_sequence l -> order_by_sequence l = l.
Proof.
  induction 1 as [|x l Hs IH Hx]; [reflexivity|].
  unfold order_by_sequence in *. cbn [fold_right]. rewrite IH.
  destruct l as [|y rest]; [reflexivity|]. cbn [insert_by_sequence].
  inversion Hx as [|? ? Hxy _]; subst. unfold le_sequence in Hxy.
  destruct (Z.leb_spec (e_sequence_number x) (e_sequence_number y));
    [reflexivity | lia].
Qed.

Lemma storeEvent_sequenced registry eventType eventData metadata h s :
  all_read_only registry ->
  sequenced s ->
  sequenced (snd (storeEvent registry eventType eventData metadata h s)).
Proof.
  intros Hro (Hsorted & Hrange & Hpos).
  destruct (storeEvent_events registry eventType eventData metadata h s Hro)
    as [[He Hs]|(id & a & data & md & _ & _ & He & Hs)];
    unfold sequenced; rewrite He, Hs.
  - repeat split; assumption.
  - repeat split; [| |lia].
    + apply StronglySorted_snoc; [exact Hsorted|].
      rewrite Forall_forall in *. intros x Hx. specialize (Hrange x Hx).
      unfold le_sequence, appended_row. cbn. lia.
    + apply Forall_app. split.
      * rewrite Forall_forall in *. intros x Hx. specialize (Hrange x Hx). lia.
      * constructor; [|constructor]. unfold appended_row. cbn. lia.
Qed.

Lemma run_app registry l1 l2 s :
  run registry (l1 ++ l2) s = run registry l2 (run registry l1 s).
Proof.
  revert s. induction l1 as [|c rest IH]; intros s; cbn [app run];
    [reflexivity | apply IH].
Qed.

Lemma run_sequenced registry calls :
  all_read_only registry ->
  forall s, sequenced s -> sequenced (run registry calls s).
Proof.
  intros Hro. induction calls as [|c rest IH]; intros s Hs; cbn [run].
  - exact Hs.
  - apply IH, storeEvent_sequenced; assumption.
Qed.

(** The replay of a list of rows that is given in two parts. *)
Lemma replay_events_app projectionName projection l1 l2 :
  forall count h s,
    replay_events projectionName projection (l1 ++ l2) count h s
    = match replay_events projectionName projection l1 count h s with
      | (inr count', s') =>
          replay_events projectionName projection l2 count' h s'
      | (inl e, s') => (inl e, s')
      end.
Proof.
  induction l1 as [|event rest IH]; intros count h s; cbn [app replay_events].
  - reflexivity.
  - unfold bind at 1 3.
    destruct (project projection _ _ _ h s) as [[e|data] s1]; [reflexivity|].
    destruct (truthy data); [|apply IH].
    unfold bind.
    destruct (saveProjection _ _ _ _ h s1) as [[e|[]] s2]; [reflexivity|].
    apply IH.
Qed.

(** ** Replaying a projection whose fold does not read the clock *)

(** A host whose database refuses no statement. *)
Definition quiet (h : Host) : Prop := forall q, refuses h q = false.

Lemma quiet_agree h1 h2 : quiet h1 -> quiet h2 -> agree h1 h2.
Proof. intros H1 H2 q. rewrite H1, H2. reflexivity. Qed.

(** A host whose database executes the two statements of [storeEvent] on
    the table of events, whatever it does with the others. *)
Definition logging (h : Host) : Prop :=
  (forall aggregateId aggregateType,
      refuses h (SelectMaxVersion aggregateId aggregateType) = false)
  /\ (forall aggregateId aggregateType eventType version eventData metadata,
        refuses h (InsertEvent aggregateId aggregateType eventType version
                               eventData metadata) = false).

Lemma quiet_logging h : quiet h -> logging h.
Proof. intros Hq. split; intros; apply Hq. Qed.

Lemma service_at_logging t : logging (service_at t).
Proof. split; intros; reflexivity. Qed.

(** A payload for which the resolver finds an aggregate under a type it
    knows is neither [null] nor [undefined]. *)
Lemma resolved_payload eventType eventData a rule :
  assoc eventType extractors = Some rule ->
  extractAggregateId eventType eventData = inr a ->
  nullish eventData = false.
Proof.
  unfold extractAggregateId. intros ->. destruct rule as [prefix field].
  unfold member. destruct (nullish eventData); [discriminate|reflexivity].
Qed.

Lemma stringify_json eventData data :
  stringify eventData = Some data ->
  jsonify eventData = eventData ->
  data = eventData.
Proof.
  unfold stringify. destruct eventData; try discriminate;
    intros [= <-] Hj; exact Hj.
Qed.

Section Replay.

(** A projection of the service. *)
Variable n : string.
Variable p : Projection.
Hypothesis registered : In (n, p) setupProjections.

(** The events on which its fold does not read the clock. *)
Variable ok : string -> value -> Prop.
Hypothesis clock_free :
  forall eventType eventData aggregateId,
    ok eventType eventData ->
    local agree (same_view n) (project p eventType eventData aggregateId).

(** It lists types that the resolver knows. *)
Hypothesis known_types :
  forall eventType,
    includes (eventTypes p) eventType = true ->
    exists rule, assoc eventType extractors = Some rule.

(** What its snapshots always satisfy, and why its fold then does not
    throw on a payload that is there. *)
Variable Inv : list snapshot -> Prop.
Hypothesis Inv_nil : Inv [].
Hypothesis Inv_step :
  forall eventType eventData aggregateId eventId h s v,
    Inv (view n s) ->
    fst (project p eventType eventData aggregateId h s) = inr v ->
    truthy v = true ->
    Inv (vupsert aggregateId (jsonify v) eventId (view n s)).
Hypothesis safe :
  forall eventType eventData aggregateId h s,
    includes (eventTypes p) eventType = true ->
    nullish eventData = false ->
    quiet h ->
    Inv (view n s) ->
    exists v, fst (project p eventType eventData aggregateId h s) = inr v.

(** The rows that the replay of the projection reads. *)
Definition interesting (e : EventRow) : bool :=
  includes (eventTypes p) (e_event_type e).

(** A call on a host whose database refuses nothing, with a payload that
    is JSON, as [JSON.parse] gives it. *)
Definition sound (c : Call) : Prop :=
  quiet (c_host c)
  /\ jsonify (c_eventData c) = c_eventData c
  /\ ok (c_eventType c) (c_eventData c).

Lemma replay_follows calls :
  Forall sound calls ->
  let s := run setupProjections calls fresh in
  Inv (view n s)
  /\ forall h c count,
       quiet h ->
       view n c = [] ->
       exists count' c',
         replay_events n p (filter interesting (events s)) count h c
         = (inr count', c')
         /\ view n c' = view n s.
Proof.
  induction calls as [|c calls IH] using rev_ind; intros Hsound s.
  - subst s. cbn [run]. split; [exact Inv_nil|].
    intros h c count _ Hc. exists count, c. split; [reflexivity | exact Hc].
  - apply Forall_app in Hsound. destruct Hsound as [Hsound Hc].
    inversion Hc as [|? ? (Hquiet & Hjson & Hok) _]; subst. clear Hc.
    specialize (IH Hsound). cbn zeta in IH. destruct IH as [IHinv IHrep].
    subst s. rewrite run_app. cbn [run].
    set (s0 := run setupProjections calls fresh) in *.
    destruct c as [hc eventType eventData metadata].
    cbn [c_host c_eventType c_eventData c_metadata] in *.
    destruct (storeEvent_effect setupProjections setupProjections_names
                setupProjections_read_only setupProjections_local
                eventType eventData metadata hc s0)
      as [(He & _ & Hp)|(a & data & md & Ha & Hd & He & _ & Hv)].
    + assert (Hview : view n (snd (storeEvent setupProjections eventType
                                     eventData metadata hc s0)) = view n s0).
      { unfold view, rows_of. rewrite Hp. reflexivity. }
      rewrite He, Hview. split; [exact IHinv | exact IHrep].
    + specialize (Hv n p registered).
      pose proof (setupProjections_read_only _ registered) as Hro.
      cbn [snd] in Hro.
      rewrite updateProjection_view in Hv by exact Hro.
      rewrite He, Hv, filter_app. cbn [filter interesting].
      unfold interesting at 2. cbn [appended_row e_event_type].
      destruct (includes (eventTypes p) eventType) eqn:Hinc.
      2:{ rewrite app_nil_r. split; [exact IHinv | exact IHrep]. }
      destruct (known_types eventType Hinc) as [rule Hrule].
      pose proof (resolved_payload _ _ _ _ Hrule Ha) as Hthere.
      pose proof (stringify_json _ _ Hd Hjson) as ->.
      destruct (safe eventType eventData a hc s0 Hinc Hthere Hquiet IHinv)
        as [v Hfold].
      rewrite Hfold, Hquiet. cbn [negb]. rewrite andb_true_r.
      split.
      { destruct (truthy v) eqn:Htruthy; [|exact IHinv].
        eapply Inv_step; eassumption. }
      intros h c count Hq Hcleared.
      destruct (IHrep h c count Hq Hcleared) as (count' & c' & Hrep & Hsame).
      rewrite replay_events_app, Hrep. unfold appended_row.
      cbn [replay_events e_event_type e_event_data e_aggregate_id e_id].
      unfold bind at 1.
      pose proof (clock_free eventType eventData a Hok h hc c' s0
                             (quiet_agree _ _ Hq Hquiet) Hsame) as Hlocal.
      pose proof (same_tables_view n _ _ (Hro eventType eventData a h c'))
        as Hkept.
      destruct (project p eventType eventData a h c') as [r c1].
      cbn [fst snd] in *. rewrite Hfold in Hlocal. subst r.
      destruct (truthy v).
      * unfold bind.
        pose proof (saveProjection_returns n a v (uuids s0) h c1) as Hret.
        pose proof (saveProjection_view n a v (uuids s0) h c1) as Hsaved.
        destruct (saveProjection n a v (uuids s0) h c1) as [[e|[]] c2];
          cbn [fst snd] in *; [discriminate|].
        exists (count' + 1)%Z, c2. split; [reflexivity|].
        rewrite Hsaved, Hq, Hkept, Hsame. reflexivity.
      * exists count', c1. split; [reflexivity|].
        rewrite Hkept, Hsame. reflexivity.
Qed.

Hypothesis looked_up : assoc n setupProjections = Some p.

(** The replay route, from sequence 1, after the calls. *)
Lemma replay_reproduces calls h cleared :
  Forall sound calls ->
  quiet h ->
  let s := run setupProjections calls fresh in
  events cleared = events s ->
  view n cleared = [] ->
  exists count,
    fst (replay setupProjections n (Some 1%Z) h cleared)
    = inr (ReplayCompleted n count)
    /\ view n (snd (replay setupProjections n (Some 1%Z) h cleared))
       = view n s.
Proof.
  intros Hsound Hq s Hev Hcleared.
  destruct (replay_follows calls Hsound) as [_ Hrep]. fold s in Hrep.
  assert (Hseq : sequenced s).
  { apply run_sequenced;
      [exact setupProjections_read_only | exact sequenced_fresh]. }
  destruct Hseq as (Hsorted & Hrange & _).
  assert (Hrows :
    select_events 1 (eventTypes p) h cleared
    = (inr (filter interesting (events s)), cleared)).
  { unfold select_events, bind, sent, store, ret. rewrite Hq, Hev.
    f_equal. f_equal.
    rewrite order_by_sequence_sorted by (apply StronglySorted_filter, Hsorted).
    apply filter_ext_in. intros e He.
    rewrite Forall_forall in Hrange. specialize (Hrange e He).
    unfold interesting.
    destruct (Z.leb_spec 1 (e_sequence_number e)); [reflexivity | lia]. }
  destruct (Hrep h cleared 0%Z Hq Hcleared) as (count & c' & Hrun & Hview).
  exists count. unfold replay. cbn [Z.eqb]. rewrite looked_up.
  unfold try_catch.
  rewrite (bind_returned _ _ _ _ _ _ Hrows).
  rewrite (bind_returned _ _ _ _ _ _ Hrun).
  cbn [ret fst snd]. split; [reflexivity | exact Hview].
Qed.

End Replay.

(** ** The two projections that can be replayed *)

(** What [getProjection] gives: [null], or the data of a snapshot. *)
Lemma getProjection_result projectionName aggregateId h s :
  exists x s',
    getProjection projectionName aggregateId h s = (inr x, s')
    /\ (x = VNull
        \/ exists c, In c (view projectionName s) /\ x = snapshot_data c).
Proof.
  unfold getProjection, try_catch, select_projection, bind, sent, store, ret,
    console_error, console_log.
  destruct (refuses h _); [do 2 eexists; split; [reflexivity | left; reflexivity]|].
  rewrite select_projection_view. fold (rows_of projectionName s).
  fold (view projectionName s).
  destruct (filter _ (view projectionName s)) as [|c rest] eqn:Hf; cbn [map].
  - do 2 eexists. split; [reflexivity | left; reflexivity].
  - do 2 eexists. split; [reflexivity|]. right. exists c. split; [|reflexivity].
    assert (Hin : In c (filter (fun c => snapshot_aggregate c =? aggregateId)
                               (view projectionName s)))
      by (rewrite Hf; left; reflexivity).
    apply filter_In in Hin. tauto.
Qed.

Lemma member_there eventData k :
  nullish eventData = false -> member eventData k = inr (get eventData k).
Proof. intros H. unfold member. rewrite H. reflexivity. Qed.

(** *** "user-summary" *)

(** The events on which the fold of "user-summary" does not read the
    clock: a [user.created] must carry a timestamp. *)
Definition has_timestamp (eventType : string) (eventData : value) : Prop :=
  eventType = "user.created" -> truthy (get eventData "timestamp") = true.

Lemma user_summary_clock_free eventType eventData aggregateId :
  has_timestamp eventType eventData ->
  local agree (same_view "user-summary")
        (project user_summary eventType eventData aggregateId).
Proof.
  intros Hts. cbn [project user_summary].
  apply (local_bind agree _ (same_view_tables "user-summary"));
    [ apply (getProjection_local agree "user-summary" _ (fun _ _ Hh => Hh))
    | apply getProjection_tables
    | intros existing ].
  destruct (String.eqb_spec eventType "user.created") as [Hty|Hty].
  - specialize (Hts Hty).
    do 4 (apply (local_bind agree _ (same_view_tables "user-summary"));
          [ apply local_lift
          | apply (keeps_lift _ same_tables_refl)
          | intro ]).
    apply local_bind_lift. intros timestamp Hm.
    apply local_host_ret. intros h h' _.
    unfold member in Hm. destruct (nullish eventData); [discriminate|].
    injection Hm as <-. unfold or. rewrite Hts. reflexivity.
  - localize agree (same_view "user-summary") (same_view_tables "user-summary")
      ltac:(fail).
Qed.

Lemma user_summary_known_types eventType :
  includes (eventTypes user_summary) eventType = true ->
  exists rule, assoc eventType extractors = Some rule.
Proof.
  cbn [eventTypes user_summary includes existsb]. rewrite !orb_true_iff.
  intros [H|[H|H]]; [| |discriminate];
    apply String.eqb_eq in H; subst; eexists; reflexivity.
Qed.

Lemma user_summary_safe eventType eventData aggregateId h s :
  nullish eventData = false ->
  exists v, fst (project user_summary eventType eventData aggregateId h s)
            = inr v.
Proof.
  intros Hthere. cbn [project user_summary].
  destruct (getProjection_result "user-summary" aggregateId h s)
    as (existing & s' & Hget & _).
  rewrite (bind_returned _ _ _ _ _ _ Hget).
  unfold bind, lift, host, ret. rewrite !(member_there _ _ Hthere).
  destruct (eventType =? "user.created"); [eexists; reflexivity|].
  destruct (eventType =? "user.login"); eexists; reflexivity.
Qed.

(** *** "order-summary" *)

(** Every snapshot has an array under [statusHistory]. *)
Definition has_history (c : snapshot) : Prop :=
  exists l, get (snapshot_data c) "statusHistory" = VArr l.

Lemma get_jsonify_set_prop k l props :
  get (jsonify (VObj (set_prop k (VArr l) props))) k = VArr (map jsonify l).
Proof.
  induction props as [|[k' v'] rest IH]; cbn [set_prop].
  - cbn [jsonify get assoc]. rewrite String.eqb_refl. reflexivity.
  - destruct (k' =? k) eqn:Hk.
    + cbn [jsonify get assoc]. rewrite String.eqb_refl. reflexivity.
    + cbn [jsonify get] in *.
      destruct v'; cbn [assoc]; rewrite ?Hk; exact IH.
Qed.

Lemma order_summary_clock_free eventType eventData aggregateId :
  local agree (same_view "order-summary")
        (project order_summary eventType eventData aggregateId).
Proof.
  cbn [project order_summary].
  localize agree (same_view "order-summary") (same_view_tables "order-summary")
    ltac:(apply (getProjection_local agree "order-summary" _
                   (fun _ _ Hh => Hh))).
Qed.

Lemma order_summary_known_types eventType :
  includes (eventTypes order_summary) eventType = true ->
  exists rule, assoc eventType extractors = Some rule.
Proof.
  cbn [eventTypes order_summary includes existsb]. rewrite !orb_true_iff.
  intros [H|[H|[H|H]]]; [| | |discriminate];
    apply String.eqb_eq in H; subst; eexists; reflexivity.
Qed.

Lemma order_summary_gives_history eventType eventData aggregateId :
  gives (fun v => truthy v = true ->
                  exists l, get (jsonify v) "statusHistory" = VArr l)
        (project order_summary eventType eventData aggregateId).
Proof.
  cbn [project order_summary].
  repeat first [ match goal with |- forall _, _ => intro end
               | apply gives_bind | apply gives_if
               | apply gives_ret ];
    try discriminate;
    unfold object; cbn [fold_left]; eexists; apply get_jsonify_set_prop.
Qed.

Lemma Forall_vupsert aggregateId data eventId v :
  (exists l, get data "statusHistory" = VArr l) ->
  Forall has_history v ->
  Forall has_history (vupsert aggregateId data eventId v).
Proof.
  intros Hd. induction 1 as [|c rest Hc Hrest IH]; cbn [vupsert].
  - constructor; [exact Hd | constructor].
  - destruct (snapshot_aggregate c =? aggregateId).
    + constructor; [exact Hd | exact Hrest].
    + constructor; [exact Hc | exact IH].
Qed.

Lemma order_summary_history_step eventType eventData aggregateId eventId h s v :
  Forall has_history (view "order-summary" s) ->
  fst (project order_summary eventType eventData aggregateId h s) = inr v ->
  truthy v = true ->
  Forall has_history
         (vupsert aggregateId (jsonify v) eventId (view "order-summary" s)).
Proof.
  intros Hinv Hfold Htruthy. apply Forall_vupsert; [|exact Hinv].
  apply (order_summary_gives_history eventType eventData aggregateId h s v
                                     Hfold Htruthy).
Qed.

Lemma order_summary_safe eventType eventData aggregateId h s :
  nullish eventData = false ->
  Forall has_history (view "order-summary" s) ->
  exists v, fst (project order_summary eventType eventData aggregateId h s)
            = inr v.
Proof.
  intros Hthere Hinv. cbn [project order_summary].
  destruct (getProjection_result "order-summary" aggregateId h s)
    as (existing & s' & Hget & Hexisting).
  rewrite (bind_returned _ _ _ _ _ _ Hget).
  assert (Hiter : exists l,
             iterate (or (opt_member existing "statusHistory") (VArr []))
             = inr l).
  { destruct Hexisting as [->|(c & Hc & ->)].
    - eexists. reflexivity.
    - rewrite Forall_forall in Hinv. destruct (Hinv c Hc) as [l Hl].
      unfold opt_member.
      destruct (nullish (snapshot_data c)) eqn:Hn.
      + destruct (snapshot_data c); discriminate.
      + rewrite Hl. eexists. reflexivity. }
  destruct Hiter as [l Hiter].
  unfold bind, lift, ret. rewrite !(member_there _ _ Hthere), Hiter.
  destruct (eventType =? "order.created"); [eexists; reflexivity|].
  destruct (eventType =? "order.status_changed"); [eexists; reflexivity|].
  destruct (eventType =? "order.cancelled"); eexists; reflexivity.
Qed.

(** *** The replay and the calls, compared *)

(** The store with the events of [s] and no snapshot. *)
Definition cleared (s : Store) : Store :=
  mkStore (events s) [] (last_sequence s) (uuids s) (published s) (console s).

(** Any type and payload. *)
Definition any_event (eventType : string) (eventData : value) : Prop := True.

(** What the replay would do on a table that had a unique index on
    (projection_name, aggregate_id), which the table of [createTables]
    has not.  Let events be stored by calls of [storeEvent], one after
    the other, on an empty database that refuses nothing, with payloads
    that are JSON; let the replay run, at any later time, from sequence
    1 on a store that has those events and no snapshot of the
    projection.  For "order-summary" the replay completes and leaves the
    same snapshots as the calls did: the same aggregates in the same
    order, each with the same data, version and last event.  For
    "user-summary" it does as well, when every [user.created] carries a
    timestamp. *)
Lemma replay_after_accepted_upserts :
  (forall calls h store,
      Forall (sound any_event) calls ->
      quiet h ->
      let s := run setupProjections calls fresh in
      events store = events s ->
      view "order-summary" store = [] ->
      exists count,
        fst (replay setupProjections "order-summary" (Some 1%Z) h store)
        = inr (ReplayCompleted "order-summary" count)
        /\ view "order-summary"
                (snd (replay setupProjections "order-summary" (Some 1%Z) h
                             store))
           = view "order-summary" s)
  /\ (forall calls h store,
        Forall (sound has_timestamp) calls ->
        quiet h ->
        let s := run setupProjections calls fresh in
        events store = events s ->
        view "user-summary" store = [] ->
        exists count,
          fst (replay setupProjections "user-summary" (Some 1%Z) h store)
          = inr (ReplayCompleted "user-summary" count)
          /\ view "user-summary"
                  (snd (replay setupProjections "user-summary" (Some 1%Z) h
                               store))
             = view "user-summary" s).
Proof.
  split.
  - intros calls h store Hsound Hq.
    apply (replay_reproduces "order-summary" order_summary
             ltac:(right; left; reflexivity)
             any_event
             (fun ty d a _ => order_summary_clock_free ty d a)
             order_summary_known_types
             (Forall has_history) ltac:(constructor)
             order_summary_history_step
             (fun ty d a h s _ Hthere _ Hinv =>
                order_summary_safe ty d a h s Hthere Hinv)
             eq_refl calls h store Hsound Hq).
  - intros calls h store Hsound Hq.
    apply (replay_reproduces "user-summary" user_summary
             ltac:(left; reflexivity)
             has_timestamp
             user_summary_clock_free
             user_summary_known_types
             (fun _ => True) I
             (fun _ _ _ _ _ _ _ _ _ _ => I)
             (fun ty d a h s _ Hthere _ _ =>
                user_summary_safe ty d a h s Hthere)
             eq_refl calls h store Hsound Hq).
Qed.



(** ** The resolver *)

(** The prefixes of the identifiers, each with the type of its
    aggregates. *)
Definition families : list (string * string) :=
  [ ("user-", "User"); ("order-", "Order"); ("payment-", "Payment");
    ("product-", "Product"); ("notification-", "Notification") ].

Lemma resolved_family eventType eventData a :
  extractAggregateId eventType eventData = inr a ->
  (a = "unknown" /\ extractAggregateType eventType = "Unknown")
  \/ exists prefix rest,
       a = prefix ++ rest
       /\ In (prefix, extractAggregateType eventType) families.
Proof.
  unfold extractAggregateId, extractAggregateType, extractors, typeMap.
  cbn [assoc].
  repeat match goal with
         | |- context [if ?b then _ else _] => destruct b
         end;
    try (intros [= <-]; left; split; reflexivity);
    (destruct (member eventData _) as [e|v]; [discriminate|]);
    match goal with
    | |- inr (?p ++ ?r) = inr _ -> _ =>
        intros [= <-]; right; exists p, r; (split; [reflexivity|])
    end;
    cbn; tauto.
Qed.

(** X10.  The identifier of an aggregate tells its type: when the
    resolver gives two events the same aggregate identifier, it gives
    them the same aggregate type, for event types that name no member
    that every object inherits (for such a name the tables of the
    resolver give what the object inherits, not an entry of theirs).
    (The identifiers of a type start with the prefix of that type, and
    "unknown" belongs to "Unknown".)  No two aggregates of different
    types share their rows in the log. *)
Theorem the_aggregate_id_tells_the_aggregate_type
        eventType1 eventData1 eventType2 eventData2 a :
  ~ In eventType1 inherited ->
  ~ In eventType2 inherited ->
  extractAggregateId eventType1 eventData1 = inr a ->
  extractAggregateId eventType2 eventData2 = inr a ->
  extractAggregateType eventType1 = extractAggregateType eventType2.
Proof.
  intros _ _ H1 H2.
  apply resolved_family in H1. apply resolved_family in H2.
  destruct H1 as [[-> ->]|(p1 & r1 & -> & Hp1)];
    destruct H2 as [[H2 ->]|(p2 & r2 & H2 & Hp2)].
  - reflexivity.
  - cbn in Hp2.
    repeat (destruct Hp2 as [[= <- _]|Hp2]; [discriminate|]). contradiction.
  - cbn in Hp1.
    repeat (destruct Hp1 as [[= <- _]|Hp1]; [discriminate|]). contradiction.
  - cbn in Hp1, Hp2.
    repeat (destruct Hp1 as [[= <- <-]|Hp1];
            [repeat (destruct Hp2 as [[= <- <-]|Hp2];
                     [first [reflexivity | discriminate]|]);
             contradiction|]).
    contradiction.
Qed.

Lemma the_aggregate_id_tells_the_aggregate_type_witness :
  extractAggregateId "order.created" order_1 = inr "order-1"
  /\ extractAggregateId "order.cancelled" order_1 = inr "order-1"
  /\ extractAggregateType "order.created" = "Order"
  /\ extractAggregateType "order.created"
     = extractAggregateType "order.cancelled".
Proof.
  split; [vm_compute; reflexivity|].
  split; [vm_compute; reflexivity|].
  split; [vm_compute; reflexivity|].
  apply (the_aggregate_id_tells_the_aggregate_type
           "order.created" order_1 "order.cancelled" order_1 "order-1").
  - cbn. intuition discriminate.
  - cbn. intuition discriminate.
  - vm_compute. reflexivity.
  - vm_compute. reflexivity.
Defined.

(** ** Events without a payload *)

(** X11.  An event of a type the store listens to whose data is [null]
    or [undefined] is dropped: [storeEvent] returns without throwing,
    writes one line to the console, and neither the log nor the
    projections nor the messages published change (an identifier has
    been drawn, nothing else). *)
Theorem an_event_without_payload_is_dropped
        registry eventType eventData metadata h s :
  In eventType listened ->
  nullish eventData = true ->
  storeEvent registry eventType eventData metadata h s
  = (inr tt,
     mkStore (events s) (projections s) (last_sequence s) (S (uuids s))
             (published s)
             (console s ++ ["[EventStore] Store event error:"])%list).
Proof.
  intros Hin Hn. destruct eventData; try discriminate;
    cbn in Hin;
    repeat (destruct Hin as [<-|Hin]; [reflexivity|]); contradiction.
Qed.

Lemma an_event_without_payload_is_dropped_witness :
  storeEvent setupProjections "user.created" VUndefined VUndefined
             (host_at 1000) fresh
  = (inr tt,
     mkStore (events fresh) (projections fresh) (last_sequence fresh)
             (S (uuids fresh)) (published fresh)
             (console fresh ++ ["[EventStore] Store event error:"])%list).
Proof.
  apply an_event_without_payload_is_dropped; [left|]; reflexivity.
Defined.

(** ** Reading one snapshot *)

Lemma truthy_jsonify v : truthy (jsonify v) = truthy v.
Proof. destruct v; reflexivity. Qed.

(** What [getProjection] gives: the data of the first row of the
    aggregate, and [null] when there is none or the database refuses. *)
Definition stored_data (projectionName aggregateId : string) (h : Host)
  (s : Store) : value :=
  if refuses h (SelectProjection projectionName aggregateId) then VNull
  else match filter (of_projection projectionName aggregateId) (projections s)
       with
       | r :: _ => p_data r
       | [] => VNull
       end.

Lemma getProjection_gives projectionName aggregateId h s :
  fst (getProjection projectionName aggregateId h s)
  = inr (stored_data projectionName aggregateId h s).
Proof.
  unfold getProjection, try_catch, select_projection, bind, sent, store, ret,
    console_error, console_log, stored_data.
  destruct (refuses h _); [reflexivity|].
  destruct (filter _ (projections s)); reflexivity.
Qed.

Lemma get_projection_answers projectionName aggregateId h s :
  fst (get_projection projectionName aggregateId h s)
  = inr (let data := stored_data projectionName aggregateId h s in
         if truthy data then Found projectionName aggregateId data
         else Failed 404 "Projection not found").
Proof.
  unfold get_projection, try_catch, bind.
  pose proof (getProjection_gives projectionName aggregateId h s) as Hg.
  destruct (getProjection projectionName aggregateId h s) as [[e|x] s'];
    cbn [fst] in Hg; [discriminate|].
  injection Hg as ->. cbn zeta.
  destruct (truthy _); reflexivity.
Qed.

(** X12.  The route of one projection answers 404 or 200, never 500
    and never with an exception: 404 "Projection not found" when the
    database refuses the query (the failure is logged and reads as
    absence) and when the aggregate has no row; and when the query is
    not refused and the table holds one row of the aggregate, 200 with
    the name, the aggregate and the data of that row when the data is
    truthy, 404 when it is not.  On the tables that [createTables] makes
    the answer is always the 404, also right after [saveProjection] was
    called for the aggregate: no row is ever written there. *)
Theorem the_projection_route_answers_with_the_snapshot :
  (forall projectionName aggregateId h s,
      refuses h (SelectProjection projectionName aggregateId) = true ->
      fst (get_projection projectionName aggregateId h s)
      = inr (Failed 404 "Projection not found"))
  /\ (forall projectionName aggregateId h s,
         fst (get_projection projectionName aggregateId h s)
         <> inr (Failed 500 "Internal server error")
         /\ forall e, fst (get_projection projectionName aggregateId h s)
                      <> inl e)
  /\ (forall projectionName aggregateId h s,
         filter (of_projection projectionName aggregateId) (projections s) = []
         ->
         fst (get_projection projectionName aggregateId h s)
         = inr (Failed 404 "Projection not found"))
  /\ (forall projectionName aggregateId h s row,
         refuses h (SelectProjection projectionName aggregateId) = false ->
         filter (of_projection projectionName aggregateId) (projections s)
         = [row] ->
         fst (get_projection projectionName aggregateId h s)
         = inr (if truthy (p_data row)
                then Found projectionName aggregateId (p_data row)
                else Failed 404 "Projection not found"))
  /\ (forall projectionName aggregateId data eventId h h' s,
         created h ->
         reached s ->
         let s' := snd (saveProjection projectionName aggregateId data eventId
                                       h s) in
         fst (get_projection projectionName aggregateId h' s)
         = inr (Failed 404 "Projection not found")
         /\ fst (get_projection projectionName aggregateId h' s')
            = inr (Failed 404 "Projection not found")).
Proof.
  split; [|split; [|split; [|split]]].
  - intros n a h s Hr. rewrite get_projection_answers. unfold stored_data.
    rewrite Hr. reflexivity.
  - intros n a h s. rewrite get_projection_answers. cbn zeta.
    destruct (truthy _); split; intros; discriminate.
  - intros n a h s Hnone. rewrite get_projection_answers. unfold stored_data.
    rewrite Hnone. destruct (refuses h _); reflexivity.
  - intros n a h s row Hs Hrow. rewrite get_projection_answers.
    unfold stored_data. rewrite Hs, Hrow. reflexivity.
  - intros n a data eventId h h' s Hc Hs s'. subst s'.
    rewrite (saveProjection_created n a data eventId h s Hc). cbn [snd].
    rewrite !get_projection_answers. unfold stored_data.
    cbn [projections]. rewrite (reached_no_snapshot s Hs). cbn [filter].
    destruct (refuses h' _); split; reflexivity.
Qed.

(** A summary of user 1: on a table that holds it the route answers
    with it; on the tables of [createTables], [saveProjection] is called
    with it and the route answers 404. *)
Lemma the_projection_route_answers_with_the_snapshot_witness :
  let data := VObj [("userId", VNum 1); ("totalOrders", VNum 2)] in
  let kept := mkStore [] [mkProjectionRow 0%nat "user-summary" "user-1" data
                                          1 0%nat 1000] 0 1%nat [] [] in
  fst (get_projection "user-summary" "user-1" (host_down 1000) fresh)
  = inr (Failed 404 "Projection not found")
  /\ fst (get_projection "user-summary" "user-1" (service_at 1000) fresh)
     = inr (Failed 404 "Projection not found")
  /\ fst (get_projection "user-summary" "user-1" (service_at 1000) kept)
     = inr (Found "user-summary" "user-1" data)
  /\ (let s' := snd (saveProjection "user-summary" "user-1" data 0%nat
                                    (service_at 1000) fresh) in
      fst (get_projection "user-summary" "user-1" (service_at 1000) s')
      = inr (Failed 404 "Projection not found")).
Proof.
  intros data kept.
  destruct the_projection_route_answers_with_the_snapshot
    as (H1 & _ & H3 & H4 & H5).
  split; [apply H1; reflexivity|].
  split; [apply H3; reflexivity|].
  split.
  - apply (H4 "user-summary" "user-1" (service_at 1000) kept
              (mkProjectionRow 0%nat "user-summary" "user-1" data 1 0%nat
                               1000));
      reflexivity.
  - apply (H5 "user-summary" "user-1" data 0%nat (service_at 1000)
              (service_at 1000) fresh (service_at_created 1000) reached_fresh).
Defined.

(** No row is kept under ("analytics", "global") after calls of
    [storeEvent] on an empty database. *)
Lemma run_without_global calls :
  forall s,
    filter (of_projection "analytics" "global") (projections s) = [] ->
    filter (of_projection "analytics" "global")
           (projections (run setupProjections calls s)) = [].
Proof.
  pose (f := fun n a : string => (n =? "analytics") && (a =? "global")).
  induction calls as [|c rest IH]; intros s Hs; cbn [run]; [exact Hs|].
  apply IH.
  pose proof (storeEvent_untouched f setupProjections (c_eventType c)
                (c_eventData c) (c_metadata c) (c_host c) s
                setupProjections_read_only) as Hu.
  unfold untouched, rows_where in Hu.
  change (fun r => f (p_projection_name r) (p_aggregate_id r))
    with (of_projection "analytics" "global") in Hu.
  rewrite Hu; [exact Hs|].
  intros entry a _ Ha. unfold f.
  apply extractAggregateId_not_global in Ha.
  destruct (String.eqb_spec a "global"); [contradiction|].
  apply andb_false_r.
Qed.

(** X13.  On a service that started on an empty database, the route
    of one projection answers 404 "Projection not found" for the
    projection "analytics" and the aggregate "global", whatever events
    have been stored, whether or not the database answers. *)
Theorem the_global_analytics_are_not_found calls h :
  fst (get_projection "analytics" "global" h
                      (run setupProjections calls fresh))
  = inr (Failed 404 "Projection not found").
Proof.
  rewrite get_projection_answers. unfold stored_data.
  rewrite (run_without_global calls fresh eq_refl).
  destruct (refuses h _); reflexivity.
Qed.

(** ** What a replay leaves alone *)

(** The log, its sequence and the messages published are as they were. *)
Definition same_log (s s' : Store) : Prop :=
  events s' = events s /\ last_sequence s' = last_sequence s
  /\ published s' = published s.

Lemma same_log_refl s : same_log s s.
Proof. repeat split. Qed.

Lemma same_log_trans a b c : same_log a b -> same_log b c -> same_log a c.
Proof. unfold same_log. intros (?&?&?) (?&?&?). repeat split; congruence. Qed.

Ltac frame_log known := frame_with same_log_refl same_log_trans known.

Lemma console_log_log line : keeps same_log (console_log line).
Proof. intros h s. repeat split. Qed.

Lemma getProjection_log projectionName aggregateId :
  keeps same_log (getProjection projectionName aggregateId).
Proof.
  unfold getProjection, select_projection, console_error.
  frame_log ltac:(apply console_log_log).
Qed.

Lemma saveProjection_log projectionName aggregateId data eventId :
  keeps same_log (saveProjection projectionName aggregateId data eventId).
Proof.
  unfold saveProjection, upsert_projection, console_error, uuidv4.
  frame_log ltac:(apply console_log_log); intros h s; repeat split.
Qed.

Lemma setupProjections_log entry eventType eventData aggregateId :
  In entry setupProjections ->
  keeps same_log (project (snd entry) eventType eventData aggregateId).
Proof.
  intros [<-|[<-|[<-|[]]]]; cbn [snd project user_summary order_summary analytics];
    frame_log ltac:(apply getProjection_log).
Qed.

Lemma replay_events_log projectionName projection rows :
  (forall eventType eventData aggregateId,
      keeps same_log (project projection eventType eventData aggregateId)) ->
  forall count,
    keeps same_log (replay_events projectionName projection rows count).
Proof.
  intros Hp. induction rows as [|event rest IH]; intros count;
    cbn [replay_events].
  - frame_log ltac:(fail).
  - frame_log ltac:(first [apply Hp | apply saveProjection_log | apply IH]).
Qed.

Lemma replay_events_untouched f projectionName projection rows :
  (forall a, f projectionName a = false) ->
  reads_only projection ->
  forall count,
    keeps (untouched f) (replay_events projectionName projection rows count).
Proof.
  intros Hf Hro. induction rows as [|event rest IH]; intros count;
    cbn [replay_events].
  - frame_untouched f.
  - frame_with (untouched_refl f) (untouched_trans f)
      ltac:(first [ apply keeps_tables_untouched, Hro
                  | apply saveProjection_untouched, Hf
                  | apply IH ]).
Qed.

(** X14.  A replay writes snapshots of the projection it is asked for
    and nothing else: whatever it answers, the events of the log, the
    sequence and the messages published are as before, and so are the
    rows of every other projection. *)
Theorem a_replay_leaves_the_log_alone projectionName fromSequence h s :
  let s' := snd (replay setupProjections projectionName fromSequence h s) in
  events s' = events s
  /\ last_sequence s' = last_sequence s
  /\ published s' = published s
  /\ filter (fun r => negb (p_projection_name r =? projectionName))
            (projections s')
     = filter (fun r => negb (p_projection_name r =? projectionName))
              (projections s).
Proof.
  cbn zeta.
  assert (Hlog : keeps same_log
                   (replay setupProjections projectionName fromSequence)).
  { unfold replay, select_events, console_error.
    destruct (assoc projectionName setupProjections) as [projection|] eqn:Ha.
    - frame_log ltac:(first [ apply console_log_log
                            | apply replay_events_log ]).
      apply assoc_In in Ha.
      apply (setupProjections_log (projectionName, projection)). exact Ha.
    - frame_log ltac:(apply console_log_log). }
  pose (f := fun n (_ : string) => negb (n =? projectionName)).
  assert (Hothers : keeps (untouched f)
                      (replay setupProjections projectionName fromSequence)).
  { assert (Hf : forall a, f projectionName a = false)
      by (intros a; unfold f; rewrite String.eqb_refl; reflexivity).
    unfold replay, select_events, console_error.
    destruct (assoc projectionName setupProjections) as [projection|] eqn:Ha.
    - assert (Hro : reads_only projection).
      { apply assoc_In in Ha.
        apply (setupProjections_read_only (projectionName, projection)), Ha. }
      frame_with (untouched_refl f) (untouched_trans f)
        ltac:(first [ apply keeps_tables_untouched, console_log_tables
                    | apply replay_events_untouched; assumption ]).
    - frame_with (untouched_refl f) (untouched_trans f)
        ltac:(apply keeps_tables_untouched, console_log_tables). }
  destruct (Hlog h s) as (H1 & H2 & H3).
  repeat split; try assumption. apply (Hothers h s).
Qed.

(** ** Reading the events of an aggregate *)

Definition le_version (a b : EventRow) : Prop :=
  e_event_version a <= e_event_version b.

Lemma order_by_version_sorted l :
  StronglySorted le_version l -> order_by_version l = l.
Proof.
  induction 1 as [|x l Hs IH Hx]; [reflexivity|].
  unfold order_by_version in *. cbn [fold_right]. rewrite IH.
  destruct l as [|y rest]; [reflexivity|]. cbn [insert_by_version].
  inversion Hx as [|? ? Hxy _]; subst. unfold le_version in Hxy.
  destruct (Z.leb_spec (e_event_version x) (e_event_version y));
    [reflexivity | lia].
Qed.

Lemma counted_up_sorted (l : list EventRow) :
  forall k,
    map e_event_version l = map Z.of_nat (seq k (List.length l)) ->
    StronglySorted le_version l
    /\ Forall (fun e => Z.of_nat k <= e_event_version e) l.
Proof.
  induction l as [|x l IH]; intros k Hm; [split; constructor|].
  cbn [List.length seq map] in Hm. injection Hm as Hx Hl.
  destruct (IH (S k) Hl) as [Hs Hf]. split.
  - constructor; [exact Hs|].
    rewrite Forall_forall in *. intros y Hy. specialize (Hf y Hy).
    unfold le_version. lia.
  - constructor; [lia|].
    rewrite Forall_forall in *. intros y Hy. specialize (Hf y Hy). lia.
Qed.

Lemma filter_and {A : Type} (f g : A -> bool) l :
  filter (fun x => f x && g x) l = filter g (filter f l).
Proof.
  induction l as [|x l IH]; [reflexivity|]. cbn [filter].
  destruct (f x); cbn [andb filter]; [destruct (g x)|]; rewrite IH; reflexivity.
Qed.

Lemma map_filter_version (c : Z) l :
  map e_event_version (filter (fun e => (c <=? e_event_version e)%Z) l)
  = filter (Z.leb c) (map e_event_version l).
Proof.
  induction l as [|x l IH]; [reflexivity|]. cbn [filter map].
  destruct (c <=? e_event_version x)%Z; cbn [map]; rewrite IH; reflexivity.
Qed.

(** X15.  The route of an aggregate reads its history: on a log whose
    versions are 1..N for every aggregate (what calls of [storeEvent]
    one after the other give), when the database answers, the route
    answers with the events of the aggregate whose version is at least
    [fromVersion] (1 when it is absent, 0 or not a number), in the order
    of the log, and their versions are fromVersion, ..., N without a
    gap. *)
Theorem the_events_of_an_aggregate_are_read_in_order
        (fails : Query -> bool) aggregateType aggregateId fromVersion h s :
  contiguous (events s) ->
  fails (SelectStream aggregateType aggregateId (parsed_or fromVersion 1))
  = false ->
  let rows := filter (fun e => (parsed_or fromVersion 1 <=? e_event_version e)%Z)
                     (filter (of_aggregate aggregateId aggregateType)
                             (events s)) in
  fst (get_events fails aggregateType aggregateId fromVersion h s)
  = inr (Stream aggregateId aggregateType rows)
  /\ map e_event_version rows
     = filter (Z.leb (parsed_or fromVersion 1))
              (map Z.of_nat
                   (seq 1 (List.length
                             (versions_of aggregateId aggregateType
                                          (events s))))).
Proof.
  intros Hc Hf rows.
  assert (Hsorted : StronglySorted le_version
                      (filter (of_aggregate aggregateId aggregateType)
                              (events s))).
  { specialize (Hc aggregateId aggregateType). unfold versions_of in Hc.
    rewrite length_map in Hc. apply (counted_up_sorted _ 1%nat Hc). }
  split.
  - unfold get_events, try_catch, bind, asked, store, ret. rewrite Hf.
    cbn [fst]. do 2 f_equal.
    rewrite (filter_ext _
               (fun e => of_aggregate aggregateId aggregateType e
                         && (parsed_or fromVersion 1 <=? e_event_version e)%Z)).
    2:{ intros e. unfold of_aggregate.
        rewrite (andb_comm (e_aggregate_type e =? aggregateType)).
        reflexivity. }
    rewrite filter_and. apply order_by_version_sorted.
    apply StronglySorted_filter, Hsorted.
  - subst rows. rewrite map_filter_version. f_equal.
    specialize (Hc aggregateId aggregateType). exact Hc.
Qed.

Lemma the_events_of_an_aggregate_are_read_in_order_witness :
  let fails := fun _ : Query => false in
  let s := run setupProjections three_orders fresh in
  let rows := filter (fun e => (parsed_or (Some 2) 1 <=? e_event_version e)%Z)
                     (filter (of_aggregate "order-1" "Order") (events s)) in
  fst (get_events fails "Order" "order-1" (Some 2) (host_at 4000) s)
  = inr (Stream "order-1" "Order" rows)
  /\ map e_event_version rows
     = filter (Z.leb (parsed_or (Some 2) 1))
              (map Z.of_nat
                   (seq 1 (List.length
                             (versions_of "order-1" "Order" (events s))))).
Proof.
  intros fails s.
  apply (the_events_of_an_aggregate_are_read_in_order
           fails "Order" "order-1" (Some 2) (host_at 4000) s).
  - apply (run_contiguous setupProjections three_orders
                          setupProjections_read_only fresh).
    intros a t. reflexivity.
  - reflexivity.
Defined.

(** ** The pages of the log *)

Lemma ceil_div_bounds a b :
  0 < b -> (ceil_div a b - 1) * b < a <= ceil_div a b * b.
Proof.
  intros Hb. unfold ceil_div.
  pose proof (Z.mul_div_le (- a) b Hb).
  pose proof (Z.mul_succ_div_gt (- a) b Hb). nia.
Qed.

Lemma chunks_cover {A : Type} (n : nat) (l : list A) :
  forall k,
    (List.length l <= k * n)%nat ->
    List.concat (map (fun i => firstn n (skipn (i * n) l)) (seq 0 k)) = l.
Proof.
  intros k. revert l. induction k as [|k IH]; intros l Hl.
  - cbn in *. destruct l; [reflexivity | cbn in Hl; lia].
  - cbn [seq map List.concat]. rewrite <- seq_shift, map_map.
    cbn [Nat.mul skipn].
    transitivity (firstn n l ++ skipn n l)%list; [|apply firstn_skipn].
    f_equal.
    etransitivity; [|apply (IH (skipn n l)); rewrite length_skipn; lia].
    f_equal. apply map_ext. intros i.
    rewrite skipn_skipn. f_equal. f_equal. lia.
Qed.

(** The events of a type, the newest first. *)
Definition newest_first (eventType : option string) (s : Store)
  : list EventRow :=
  rev (filter (of_type eventType) (events s)).

Lemma select_page_sequenced fails eventType limit offset h s :
  sequenced s ->
  fails (SelectPage eventType limit offset) = false ->
  0 <= limit -> 0 <= offset ->
  select_page fails eventType limit offset h s
  = (inr (firstn (Z.to_nat limit)
                 (skipn (Z.to_nat offset) (newest_first eventType s))), s).
Proof.
  intros (Hsorted & _) Hf Hl Ho.
  unfold select_page, bind, asked, store, ret. rewrite Hf.
  destruct (Z.ltb_spec limit 0); [lia|].
  destruct (Z.ltb_spec offset 0); [lia|]. cbn [orb].
  rewrite order_by_sequence_sorted
    by apply StronglySorted_filter, Hsorted.
  reflexivity.
Qed.

(** [req.query.eventType] as the route uses it: an empty string is no
    filter. *)
Definition filtered (eventType : option string) : option string :=
  match eventType with
  | Some t => if t =? "" then None else Some t
  | None => None
  end.

Lemma get_all_events_sequenced fails page limit eventType h s :
  sequenced s ->
  let page' := parsed_or page 1 in
  let limit' := parsed_or limit 50 in
  let ty := filtered eventType in
  fails (SelectPage ty limit' ((page' - 1) * limit')) = false ->
  fails (CountEvents ty) = false ->
  1 <= page' -> 1 <= limit' ->
  let total := Z.of_nat (List.length (newest_first ty s)) in
  fst (get_all_events fails page limit eventType h s)
  = inr (Page (firstn (Z.to_nat limit')
                      (skipn (Z.to_nat ((page' - 1) * limit'))
                             (newest_first ty s)))
              page' (ceil_div total limit') total
              (page' <? ceil_div total limit')%Z (1 <? page')%Z).
Proof.
  intros Hseq page' limit' ty Hsel Hcount Hp Hl total.
  unfold get_all_events, try_catch. fold page' limit'. fold (filtered eventType).
  fold ty.
  rewrite (bind_returned _ _ _ _ _ _
             (select_page_sequenced fails ty limit' ((page' - 1) * limit') h s
                                    Hseq Hsel ltac:(lia) ltac:(nia))).
  unfold count_events, bind, asked, store, ret. rewrite Hcount.
  cbn [fst]. subst total. unfold newest_first. rewrite length_rev.
  reflexivity.
Qed.

(** X16.  A page of the log, on a service that started on an empty
    database: for a page and a limit of at least 1 (1 and 50 when
    absent, 0 or not a number), when the database answers, the route
    answers with the events of the type asked for (all, when none is),
    the newest first, from the one at (page - 1) * limit on, at most
    limit of them; [totalEvents] counts them all, [totalPages] is the
    least number of pages that holds them, [hasNext] says that events
    older than this page are left, and the page is empty exactly when it
    starts at or after the last event. *)
Theorem a_page_of_the_log fails calls page limit eventType h :
  let s := run setupProjections calls fresh in
  let page' := parsed_or page 1 in
  let limit' := parsed_or limit 50 in
  let ty := match eventType with
            | Some t => if t =? "" then None else Some t
            | None => None
            end in
  let all := rev (filter (of_type ty) (events s)) in
  let total := Z.of_nat (List.length all) in
  fails (SelectPage ty limit' ((page' - 1) * limit')) = false ->
  fails (CountEvents ty) = false ->
  1 <= page' ->
  1 <= limit' ->
  exists rows totalPages,
    fst (get_all_events fails page limit eventType h s)
    = inr (Page rows page' totalPages total
                (page' <? totalPages)%Z (1 <? page')%Z)
    /\ rows = firstn (Z.to_nat limit')
                     (skipn (Z.to_nat ((page' - 1) * limit')) all)
    /\ (totalPages - 1) * limit' < total <= totalPages * limit'
    /\ ((page' <? totalPages)%Z = true <-> page' * limit' < total)
    /\ (rows = [] <-> total <= (page' - 1) * limit').
Proof.
  intros s page' limit' ty all total Hsel Hcount Hp Hl.
  assert (Hseq : sequenced s).
  { apply run_sequenced;
      [exact setupProjections_read_only | exact sequenced_fresh]. }
  pose proof (get_all_events_sequenced fails page limit eventType h s Hseq
                Hsel Hcount Hp Hl) as Hans.
  cbn zeta in Hans. fold page' limit' in Hans.
  change (filtered eventType) with ty in Hans.
  change (newest_first ty s) with all in Hans. fold total in Hans.
  pose proof (ceil_div_bounds total limit' ltac:(lia)) as Hceil.
  do 2 eexists. split; [exact Hans|]. split; [reflexivity|].
  split; [exact Hceil|]. split.
  - rewrite Z.ltb_lt. split; intros; nia.
  - assert (Hlen : List.length
                     (firstn (Z.to_nat limit')
                             (skipn (Z.to_nat ((page' - 1) * limit')) all))
                   = Nat.min (Z.to_nat limit')
                             (List.length all
                              - Z.to_nat ((page' - 1) * limit'))%nat)
      by (rewrite length_firstn, length_skipn; reflexivity).
    split.
    + intros Hnil. rewrite Hnil in Hlen. cbn [List.length] in Hlen.
      subst total. nia.
    + intros Hle. apply length_zero_iff_nil. rewrite Hlen. subst total. nia.
Qed.

Lemma a_page_of_the_log_witness :
  let fails := fun _ : Query => false in
  let s := run setupProjections three_orders fresh in
  let page' := parsed_or (Some 2) 1 in
  let limit' := parsed_or (Some 2) 50 in
  let ty := @None string in
  let all := rev (filter (of_type ty) (events s)) in
  let total := Z.of_nat (List.length all) in
  exists rows totalPages,
    fst (get_all_events fails (Some 2) (Some 2) None (host_at 4000) s)
    = inr (Page rows page' totalPages total
                (page' <? totalPages)%Z (1 <? page')%Z)
    /\ rows = firstn (Z.to_nat limit')
                     (skipn (Z.to_nat ((page' - 1) * limit')) all)
    /\ (totalPages - 1) * limit' < total <= totalPages * limit'
    /\ ((page' <? totalPages)%Z = true <-> page' * limit' < total)
    /\ (rows = [] <-> total <= (page' - 1) * limit').
Proof.
  intros fails s.
  apply (a_page_of_the_log fails three_orders (Some 2) (Some 2) None
                           (host_at 4000));
    first [reflexivity | discriminate].
Defined.

(** The rows of an answer that is a page. *)
Definition page_rows (answer : error + Answer) : list EventRow :=
  match answer with
  | inr (Page rows _ _ _ _ _) => rows
  | _ => []
  end.

(** X17.  The pages cover the log: on a service that started on an
    empty database, for a limit of at least 1 and a database that
    answers, the pages 1, ..., totalPages, read one after the other
    while nothing is stored, hold every event of the type asked for
    exactly once, the newest first. *)
Theorem every_event_is_on_one_page fails calls limit eventType h :
  let s := run setupProjections calls fresh in
  let limit' := parsed_or limit 50 in
  let ty := match eventType with
            | Some t => if t =? "" then None else Some t
            | None => None
            end in
  let all := rev (filter (of_type ty) (events s)) in
  let totalPages := ceil_div (Z.of_nat (List.length all)) limit' in
  (forall q, fails q = false) ->
  1 <= limit' ->
  List.concat
    (map (fun p => page_rows (fst (get_all_events fails (Some (Z.of_nat p))
                                                  limit eventType h s)))
         (seq 1 (Z.to_nat totalPages)))
  = all.
Proof.
  intros s limit' ty all totalPages Hf Hl.
  assert (Hseq : sequenced s).
  { apply run_sequenced;
      [exact setupProjections_read_only | exact sequenced_fresh]. }
  pose proof (ceil_div_bounds (Z.of_nat (List.length all)) limit' ltac:(lia))
    as Hceil. fold totalPages in Hceil.
  rewrite <- seq_shift, map_map.
  etransitivity;
    [|apply (chunks_cover (Z.to_nat limit') all (Z.to_nat totalPages)); nia].
  f_equal. apply map_ext. intros i.
  pose proof (get_all_events_sequenced fails (Some (Z.of_nat (S i))) limit
                eventType h s Hseq) as Hans.
  cbn zeta in Hans.
  replace (parsed_or (Some (Z.of_nat (S i))) 1) with (Z.of_nat (S i)) in Hans
    by (cbn [parsed_or]; destruct (Z.eqb_spec (Z.of_nat (S i)) 0); lia).
  rewrite Hans by (try apply Hf; fold limit'; lia).
  cbn [page_rows]. fold limit'. change (filtered eventType) with ty.
  change (newest_first ty s) with all.
  do 2 f_equal. nia.
Qed.

Lemma every_event_is_on_one_page_witness :
  let fails := fun _ : Query => false in
  let s := run setupProjections three_orders fresh in
  let limit' := parsed_or (Some 2) 50 in
  let ty := @None string in
  let all := rev (filter (of_type ty) (events s)) in
  let totalPages := ceil_div (Z.of_nat (List.length all)) limit' in
  List.concat
    (map (fun p => page_rows (fst (get_all_events fails (Some (Z.of_nat p))
                                                  (Some 2) None (host_at 4000)
                                                  s)))
         (seq 1 (Z.to_nat totalPages)))
  = all.
Proof.
  intros fails s.
  apply (every_event_is_on_one_page fails three_orders (Some 2) None
                                    (host_at 4000));
    first [reflexivity | discriminate].
Defined.

(** X18.  A page or a limit below 1 is an internal error: the route
    answers 500 "Internal server error" for a negative page and for a
    negative limit (0 stands for the default), whatever the log holds;
    it validates neither and leaves it to the database to refuse the
    negative OFFSET or LIMIT. *)
Theorem a_page_or_a_limit_below_one_is_an_error
        fails page limit eventType h s :
  parsed_or page 1 < 1 \/ parsed_or limit 50 < 1 ->
  fst (get_all_events fails page limit eventType h s)
  = inr (Failed 500 "Internal server error").
Proof.
  intros Hbad. unfold get_all_events, try_catch, bind at 1.
  set (page' := parsed_or page 1) in *. set (limit' := parsed_or limit 50) in *.
  assert (Hl : limit' <> 0).
  { subst limit'. unfold parsed_or. destruct limit as [n|]; [|lia].
    destruct (Z.eqb_spec n 0); lia. }
  unfold select_page, bind, asked, throw.
  destruct (fails (SelectPage _ _ _)); [reflexivity|].
  destruct (Z.ltb_spec limit' 0); cbn [orb]; [reflexivity|].
  destruct (Z.ltb_spec ((page' - 1) * limit') 0); [reflexivity|]. nia.
Qed.

Lemma a_page_or_a_limit_below_one_is_an_error_witness :
  fst (get_all_events (fun _ => false) (Some (-1)) None None (host_at 1000)
                      fresh)
  = inr (Failed 500 "Internal server error").
Proof.
  apply a_page_or_a_limit_below_one_is_an_error. left. reflexivity.
Defined.

(** ** From the broker to the log *)

Lemma subscribe_new {H : Type} channel (handler : H) env
      (b : MessageBroker.t H) :
  MessageBroker.isConnected b = true ->
  assoc channel (MessageBroker.eventHandlers b) = None ->
  MessageBroker.refuses env (MessageBroker.Subscribe channel) = false ->
  let b' := snd (MessageBroker.subscribe channel handler env b) in
  MessageBroker.isConnected b' = true
  /\ MessageBroker.eventHandlers b'
     = (MessageBroker.eventHandlers b ++ [(channel, [handler])])%list.
Proof.
  intros Hc Ha Hs. unfold MessageBroker.subscribe, MessageBroker.Map_has.
  rewrite Hc, Ha, Hs. cbn [negb snd].
  unfold MessageBroker.push, MessageBroker.handlers_of.
  cbn [MessageBroker.eventHandlers MessageBroker.set_eventHandlers
       MessageBroker.did MessageBroker.log MessageBroker.isConnected].
  rewrite MessageBrokerFacts.assoc_Map_set, MessageBrokerFacts.Map_set_twice,
    (MessageBrokerFacts.Map_set_absent _ _ _ Ha).
  split; [exact Hc | reflexivity].
Qed.

Lemma assoc_app_none {A : Type} k (m m' : list (string * A)) :
  assoc k m = None -> assoc k (m ++ m') = assoc k m'.
Proof.
  induction m as [|[k' v] rest IH]; cbn [assoc app]; [reflexivity|].
  destruct (k' =? k); [discriminate | exact IH].
Qed.

Lemma subscribe_each env (l : list string) :
  NoDup l ->
  (forall channel,
      MessageBroker.refuses env (MessageBroker.Subscribe channel) = false) ->
  forall b : MessageBroker.t string,
    MessageBroker.isConnected b = true ->
    (forall channel, In channel l ->
                     assoc channel (MessageBroker.eventHandlers b) = None) ->
    MessageBroker.eventHandlers
      (fold_left (fun b eventType =>
                    snd (MessageBroker.subscribe eventType eventType env b))
                 l b)
    = (MessageBroker.eventHandlers b
       ++ map (fun eventType => (eventType, [eventType])) l)%list.
Proof.
  intros Hnd Hs. induction Hnd as [|x l Hx Hnd IH]; intros b Hc Hnone.
  - cbn. rewrite app_nil_r. reflexivity.
  - cbn [fold_left map].
    destruct (subscribe_new x x env b Hc (Hnone x (or_introl eq_refl)) (Hs x))
      as [Hc' He'].
    rewrite IH; [rewrite He', <- app_assoc; reflexivity | exact Hc' |].
    intros channel Hin. rewrite He'.
    rewrite assoc_app_none by (apply Hnone; right; exact Hin).
    cbn [assoc]. destruct (String.eqb_spec x channel) as [->|_];
      [contradiction | reflexivity].
Qed.

Lemma listened_once : NoDup listened.
Proof.
  unfold listened.
  repeat (constructor; [cbn; intuition discriminate|]). constructor.
Qed.

(** The handlers that [setupEventListeners] leaves in a broker that is
    connected and has none: one for each event type. *)
Lemma setupEventListeners_handlers env (b : MessageBroker.t string) :
  MessageBroker.isConnected b = true ->
  MessageBroker.eventHandlers b = [] ->
  (forall channel,
      MessageBroker.refuses env (MessageBroker.Subscribe channel) = false) ->
  MessageBroker.eventHandlers (setupEventListeners env b)
  = map (fun eventType => (eventType, [eventType])) listened.
Proof.
  intros Hc He Hs. unfold setupEventListeners.
  rewrite (subscribe_each env listened listened_once Hs b Hc).
  - rewrite He. reflexivity.
  - intros channel _. rewrite He. reflexivity.
Qed.

Lemma listened_handlers env (b : MessageBroker.t string) eventType :
  MessageBroker.isConnected b = true ->
  MessageBroker.eventHandlers b = [] ->
  (forall channel,
      MessageBroker.refuses env (MessageBroker.Subscribe channel) = false) ->
  MessageBroker.handlers_of eventType (setupEventListeners env b)
  = if includes listened eventType then [eventType] else [].
Proof.
  intros Hc He Hs. unfold MessageBroker.handlers_of.
  rewrite (setupEventListeners_handlers env b Hc He Hs).
  unfold listened, includes. cbn [map assoc existsb].
  repeat match goal with
         | |- context [?k =? eventType] =>
             rewrite (String.eqb_sym k eventType);
             destruct (String.eqb_spec eventType k) as [->|_];
             [reflexivity|]
         end.
  reflexivity.
Qed.

(** A call of [storeEvent] whose version query and insert the database
    executes: the row it appends. *)
Lemma storeEvent_stores registry eventType eventData metadata h s a
      correlationId data :
  all_read_only registry ->
  logging h ->
  extractAggregateId eventType eventData = inr a ->
  stringify eventData = Some data ->
  metadata <> VUndefined ->
  member metadata "id" = inr correlationId ->
  events (snd (storeEvent registry eventType eventData metadata h s))
  = (events s
     ++ [mkEventRow (uuids s) a (extractAggregateType eventType) eventType
           (next_version a (extractAggregateType eventType) (events s))
           data
           (jsonify (object [ Spread metadata;
                              Key "source" (VStr "message-broker");
                              Key "correlationId" correlationId ]))
           (now h) (last_sequence s + 1)])%list.
Proof.
  intros Hro Hq Ha Hd Hmd Hid. unfold storeEvent.
  replace (match metadata with VUndefined => VObj [] | _ => metadata end)
    with metadata by (destruct metadata; congruence).
  rewrite caught_events.
  assert (Hread :
    storeEvent_read eventType eventData h s
    = (inr (mkPending (uuids s) a (extractAggregateType eventType)
                      (next_version a (extractAggregateType eventType)
                                    (events s))),
       mkStore (events s) (projections s) (last_sequence s) (S (uuids s))
               (published s) (console s))).
  { unfold storeEvent_read, select_max_version, bind, uuidv4, lift, sent,
      store, ret. rewrite Ha, (proj1 Hq). reflexivity. }
  rewrite (bind_returned _ _ _ _ _ _ Hread).
  rewrite (storeEvent_write_appends registry eventType eventData metadata _ h _
             correlationId data Hro Hid Hd) by apply (proj2 Hq).
  reflexivity.
Qed.

Lemma listened_resolved eventType :
  In eventType listened -> exists rule, assoc eventType extractors = Some rule.
Proof.
  cbn. intros Hin.
  repeat (destruct Hin as [<-|Hin]; [eexists; reflexivity|]). contradiction.
Qed.

(** The message of [publish] MessageBrokerFacts.arrives at the event store. *)
Lemma delivered_event_is_stored
      (env' : MessageBroker.Env) (b0 : MessageBroker.t string)
      (eventType id : string) (t : Z) (data : value) (h : Host) (s : Store)
      (a : string) :
  In eventType listened ->
  MessageBroker.isConnected b0 = true ->
  MessageBroker.eventHandlers b0 = [] ->
  (forall channel,
      MessageBroker.refuses env' (MessageBroker.Subscribe channel) = false) ->
  extractAggregateId eventType (jsonify data) = inr a ->
  logging h ->
  events (snd (MessageBroker.handleMessage
                 (listener setupProjections h) eventType
                 (MessageBroker.JSON_stringify (MessageBroker.envelope id t data))
                 (setupEventListeners env' b0) s))
  = (events s
     ++ [mkEventRow (uuids s) a (extractAggregateType eventType) eventType
           (next_version a (extractAggregateType eventType) (events s))
           (jsonify data)
           (VObj [ ("id", VStr id);
                   ("timestamp", VStr (toISOString t));
                   ("data", jsonify data);
                   ("source", VStr "message-broker");
                   ("correlationId", VStr id) ])
           (now h) (last_sequence s + 1)])%list.
Proof.
  intros Hin Hc0 He0 Hs Ha Hq.
  destruct (listened_resolved eventType Hin) as [rule Hrule].
  pose proof (resolved_payload _ _ _ _ Hrule Ha) as Hthere.
  assert (Hdata : data <> VUndefined) by (intros ->; discriminate).
  unfold MessageBroker.handleMessage, MessageBroker.JSON_stringify.
  cbn [MessageBroker.JSON_parse].
  destruct (MessageBrokerFacts.handle_each
              string Store (listener setupProjections h) eventType
              (jsonify (MessageBroker.envelope id t data))
              (MessageBroker.handlers_of eventType
                                         (setupEventListeners env' b0)))
    with (b := setupEventListeners env' b0) (w := s) as (H1 & _).
  { rewrite MessageBrokerFacts.envelope_arrives. reflexivity. }
  rewrite H1. unfold MessageBrokerFacts.each_in_turn.
  rewrite (listened_handlers env' b0 eventType Hc0 He0 Hs).
  replace (includes listened eventType) with true.
  2:{ symmetry. unfold includes. apply existsb_exists. exists eventType.
      split; [exact Hin | apply String.eqb_refl]. }
  cbn [fold_left listener snd].
  rewrite MessageBrokerFacts.envelope_data.
  replace (MessageBrokerFacts.arrives data) with (jsonify data)
    by (destruct data; first [reflexivity | congruence]).
  rewrite (storeEvent_stores setupProjections eventType (jsonify data) _ h s a
             (VStr id) (jsonify data) setupProjections_read_only Hq Ha).
  - do 3 f_equal. rewrite MessageBrokerFacts.envelope_arrives.
    replace (match data with
             | VUndefined => []
             | _ => [("data", jsonify data)]
             end) with [("data", jsonify data)]
      by (destruct data; first [reflexivity | congruence]).
    pose proof (MessageBrokerFacts.jsonify_idempotent data) as Hi.
    pose proof (MessageBrokerFacts.jsonify_defined data) as Hd.
    clear - Hi Hd. set (d := jsonify data) in *. clearbody d.
    set (ts := VStr (toISOString t)).
    assert (Hts : jsonify ts = ts) by reflexivity.
    assert (Hts' : ts <> VUndefined) by discriminate.
    clearbody ts.
    unfold object.
    cbn [fold_left own_props set_prop fst snd String.eqb Ascii.eqb Bool.eqb].
    rewrite MessageBrokerFacts.jsonify_object.
    rewrite !MessageBrokerFacts.entries_defined by (assumption || discriminate).
    cbn [MessageBrokerFacts.entries jsonify]. rewrite Hi, Hts. reflexivity.
  - unfold stringify. rewrite MessageBrokerFacts.jsonify_idempotent.
    destruct (jsonify data) eqn:Hj; try reflexivity.
    exfalso. exact (MessageBrokerFacts.jsonify_defined data Hj).
  - rewrite MessageBrokerFacts.envelope_arrives. discriminate.
  - rewrite MessageBrokerFacts.envelope_arrives. reflexivity.
Qed.

(** X19.  A published event reaches the log: when a connected broker
    publishes data for one of the event types the store listens to and
    Redis accepts, and the text arrives at an event store whose
    listeners were set up on a connected broker, whose database
    executes the version query and the insert (whatever it does with the
    upsert of the snapshots, which it refuses on the tables of
    [createTables]) and whose resolver finds the aggregate in the data,
    the store appends exactly one row: the aggregate and its type as resolved, the
    next version of that aggregate, the data as JSON carries it, and as
    metadata the envelope of the message with the source
    "message-broker" and the id of the message as correlation id. *)
Theorem a_published_event_is_stored
        (env env' : MessageBroker.Env) (sender b0 : MessageBroker.t string)
        (eventType : string) (data : value) (h : Host) (s : Store)
        (a : string) :
  let id := MessageBroker.random env (MessageBroker.draws sender) in
  let message :=
    MessageBroker.JSON_stringify
      (MessageBroker.envelope id (MessageBroker.now env) data) in
  let broker := setupEventListeners env' b0 in
  In eventType listened ->
  MessageBroker.isConnected sender = true ->
  MessageBroker.refuses env (MessageBroker.Publish eventType message) = false ->
  MessageBroker.isConnected b0 = true ->
  MessageBroker.eventHandlers b0 = [] ->
  (forall channel,
      MessageBroker.refuses env' (MessageBroker.Subscribe channel) = false) ->
  extractAggregateId eventType (jsonify data) = inr a ->
  logging h ->
  MessageBroker.carried_out
    (snd (MessageBroker.publish eventType data env sender))
  = (MessageBroker.carried_out sender
     ++ [MessageBroker.Publish eventType message])%list
  /\ events (snd (MessageBroker.handleMessage
                    (listener setupProjections h) eventType message broker s))
     = (events s
        ++ [mkEventRow (uuids s) a (extractAggregateType eventType) eventType
              (next_version a (extractAggregateType eventType) (events s))
              (jsonify data)
              (VObj [ ("id", VStr id);
                      ("timestamp",
                       VStr (toISOString (MessageBroker.now env)));
                      ("data", jsonify data);
                      ("source", VStr "message-broker");
                      ("correlationId", VStr id) ])
              (now h) (last_sequence s + 1)])%list.
Proof.
  intros id message broker Hin Hc Hp Hc0 He0 Hs Ha Hq.
  split.
  - unfold MessageBroker.publish. rewrite Hc.
    cbn [negb MessageBroker.generateId]. fold id. fold message. rewrite Hp.
    reflexivity.
  - apply delivered_event_is_stored; assumption.
Qed.

Lemma a_published_event_is_stored_witness :
  let env := MessageBroker.mkEnv 1000 (fun _ => "k3j9x0q1z") (fun _ => false) in
  let env' := MessageBroker.mkEnv 500 (fun _ => "a1b2c3d4e") (fun _ => false) in
  let sender := MessageBroker.mk (H:=string) true true [] true [] 0 [] in
  let b0 := MessageBroker.mk (H:=string) true true [] true [] 0 [] in
  let eventType := "order.created" in
  let data := order_1 in
  let h := service_at 2000 in
  let s := fresh in
  let a := "order-1" in
  let id := MessageBroker.random env (MessageBroker.draws sender) in
  let message :=
    MessageBroker.JSON_stringify
      (MessageBroker.envelope id (MessageBroker.now env) data) in
  let broker := setupEventListeners env' b0 in
  MessageBroker.carried_out
    (snd (MessageBroker.publish eventType data env sender))
  = (MessageBroker.carried_out sender
     ++ [MessageBroker.Publish eventType message])%list
  /\ events (snd (MessageBroker.handleMessage
                    (listener setupProjections h) eventType message broker s))
     = (events s
        ++ [mkEventRow (uuids s) a (extractAggregateType eventType) eventType
              (next_version a (extractAggregateType eventType) (events s))
              (jsonify data)
              (VObj [ ("id", VStr id);
                      ("timestamp",
                       VStr (toISOString (MessageBroker.now env)));
                      ("data", jsonify data);
                      ("source", VStr "message-broker");
                      ("correlationId", VStr id) ])
              (now h) (last_sequence s + 1)])%list.
Proof.
  intros env env' sender b0 eventType data h s a.
  apply (a_published_event_is_stored env env' sender b0 eventType data h s a).
  - do 2 right. left. reflexivity.
  - reflexivity.
  - reflexivity.
  - reflexivity.
  - reflexivity.
  - intros channel. reflexivity.
  - vm_compute. reflexivity.
  - apply service_at_logging.
Defined.

End EventStoreFacts.

(* ================================================================== *)
(** * Facts about the notification service *)
(* ================================================================== *)

Module NotificationServiceFacts.

Import Js NotificationService.
Open Scope string_scope.

(** ** Properties of objects *)

Lemma get_set_prop k v props k' :
  get (VObj (set_prop k v props)) k'
  = if k =? k' then v else get (VObj props) k'.
Proof.
  cbn [get]. induction props as [|[k0 v0] rest IH]; cbn [set_prop assoc].
  - destruct (k =? k'); reflexivity.
  - destruct (String.eqb_spec k0 k) as [->|Hk0]; cbn [assoc].
    + destruct (k =? k'); reflexivity.
    + destruct (String.eqb_spec k0 k') as [->|_].
      * destruct (String.eqb_spec k k'); [congruence | reflexivity].
      * exact IH.
Qed.

(** ** The statuses *)

(** The status of a notification is one of the three that the service
    writes. *)
Definition known_status (v : value) : Prop :=
  let status := get v "status" in
  status = VStr "pending" \/ status = VStr "sent" \/ status = VStr "failed".

(** Every object is a notification with such a status, and the queue
    holds references to objects. *)
Definition consistent (s : t) : Prop :=
  Forall known_status (heap s)
  /\ Forall (fun ref => (ref < List.length (heap s))%nat) (notificationQueue s).

Lemma assign_at_length ref k v objects :
  List.length (assign_at ref k v objects) = List.length objects.
Proof.
  revert ref. induction objects as [|x rest IH]; intros ref; [reflexivity|].
  destruct ref as [|ref]; cbn [assign_at].
  - reflexivity.
  - cbn [List.length]. rewrite IH. reflexivity.
Qed.

Lemma assign_at_status ref status objects :
  status = "pending" \/ status = "sent" \/ status = "failed" ->
  Forall known_status objects ->
  Forall known_status (assign_at ref "status" (VStr status) objects).
Proof.
  intros Hs. revert ref.
  induction objects as [|x rest IH]; intros ref Hf; [constructor|].
  inversion Hf as [|? ? Hx Hrest]; subst.
  destruct ref as [|ref]; cbn [assign_at].
  - destruct x; try (constructor; assumption).
    constructor; [|exact Hrest].
    unfold known_status. rewrite get_set_prop. cbn.
    destruct Hs as [-> | [-> | ->]]; auto.
  - constructor; [exact Hx | apply IH, Hrest].
Qed.

Lemma assign_at_other ref k v objects :
  k <> "status" ->
  Forall known_status objects ->
  Forall known_status (assign_at ref k v objects).
Proof.
  intros Hk. revert ref.
  induction objects as [|x rest IH]; intros ref Hf; [constructor|].
  inversion Hf as [|? ? Hx Hrest]; subst.
  destruct ref as [|ref]; cbn [assign_at].
  - destruct x; try (constructor; assumption).
    constructor; [|exact Hrest].
    unfold known_status in *. rewrite get_set_prop.
    destruct (String.eqb_spec k "status"); [contradiction | exact Hx].
  - constructor; [exact Hx | apply IH, Hrest].
Qed.

Lemma publish_fields channel data env s :
  let s' := snd (broker_publish channel data env s) in
  heap s' = heap s /\ notificationQueue s' = notificationQueue s.
Proof.
  unfold broker_publish.
  destruct (MessageBroker.publish _ _ _ _) as [r b]. split; reflexivity.
Qed.

Lemma complete_consistent ref env s : consistent s -> consistent (snd (complete ref env s)).
Proof.
  intros [Hh Hq]. unfold complete.
  assert (Hfailed :
    forall e s0,
      consistent s0 ->
      consistent (snd (broker_publish "notification.failed"
                    (object
                       [ Key "notificationId"
                             (get (deref (assign ref "error" (VStr (message_of e))
                                            (assign ref "status" (VStr "failed") s0))
                                         ref) "id");
                         Key "type"
                             (get (deref (assign ref "error" (VStr (message_of e))
                                            (assign ref "status" (VStr "failed") s0))
                                         ref) "type");
                         Key "error" (VStr (message_of e));
                         Key "timestamp" (VStr (toISOString (now env))) ])
                    env
                    (assign ref "error" (VStr (message_of e))
                            (assign ref "status" (VStr "failed") s0))))).
  { intros e s0 [Hh0 Hq0].
    match goal with
    | |- consistent (snd (broker_publish ?c ?d ?en ?st)) =>
        destruct (publish_fields c d en st) as [H1 H2]
    end.
    unfold consistent. rewrite H1, H2. cbn [assign heap notificationQueue].
    rewrite !assign_at_length. split; [|exact Hq0].
    apply assign_at_other; [discriminate|].
    apply assign_at_status; auto. }
  destruct (iterate (get (deref s ref) "channels")) as [e|items].
  - apply Hfailed. split; assumption.
  - match goal with
    | |- context [broker_publish ?c ?d ?en ?st] =>
        pose proof (publish_fields c d en st) as Hp;
        destruct (broker_publish c d en st) as [[e|[]] s1] eqn:Hpub
    end; cbn [snd] in Hp; destruct Hp as [H1 H2].
    + apply Hfailed. unfold consistent. rewrite H1, H2.
      cbn [assign heap notificationQueue]. rewrite assign_at_length.
      split; [|exact Hq]. apply assign_at_status; auto.
    + cbn [snd]. unfold consistent. rewrite H1, H2.
      cbn [assign heap notificationQueue]. rewrite assign_at_length.
      split; [|exact Hq]. apply assign_at_status; auto.
Qed.


Ltac literal_status :=
  unfold known_status;
  cbn [object fold_left set_prop String.eqb Ascii.eqb Bool.eqb get assoc
       fst snd own_props];
  auto.

Lemma notifications_pending channel first literal data id now :
  assoc channel notifications = Some (first, literal) ->
  known_status (object (literal data id now)).
Proof.
  unfold notifications. cbn [assoc].
  repeat match goal with
         | |- context [if ?b then _ else _] => destruct b
         end;
    try discriminate; intros [= <- <-].
  - unfold welcome. literal_status.
  - unfold login. literal_status.
  - unfold order_confirmation. literal_status.
  - unfold order_status. literal_status.
  - unfold order_cancellation. literal_status.
  - unfold payment_confirmation. literal_status.
  - unfold payment_failure. literal_status.
  - unfold low_stock. literal_status.
Qed.

Lemma custom_pending type userId subject message channels priority id now :
  known_status (object (custom type userId subject message channels priority
                               id now)).
Proof. unfold custom. literal_status. Qed.

Lemma created_consistent object env s :
  known_status object ->
  consistent s ->
  let r := create object env s in
  consistent (enqueue (List.length (heap s)) (snd r))
  /\ fst r = inr (List.length (heap s)).
Proof.
  intros Ho [Hh Hq]. cbn. split; [|reflexivity]. split.
  - cbn. apply Forall_app. split; [exact Hh | constructor; [exact Ho|constructor]].
  - cbn. rewrite length_app. cbn.
    apply Forall_app. split.
    + rewrite Forall_forall in *. intros ref Hr. specialize (Hq ref Hr). lia.
    + constructor; [lia | constructor].
Qed.

Lemma drawn_consistent env s :
  consistent s -> consistent (snd (generateNotificationId env s)).
Proof. intros Hs. exact Hs. Qed.

Lemma move_consistent st env s : consistent s -> consistent (move st env s).
Proof.
  intros Hs. destruct st as [|channel data|type userId subject message channels
                                        priority|ref|]; cbn [move].
  - unfold connectToMessageBroker.
    destruct (MessageBroker.connect _ _) as [[e|u] b]; exact Hs.
  - destruct (assoc channel notifications) as [[first literal]|] eqn:Ha;
      [|exact Hs].
    unfold build. cbn [generateNotificationId].
    destruct (member data first) as [e|x]; [exact Hs|].
    match goal with
    | |- context [create ?o ?en ?st] =>
        destruct (created_consistent o en st) as [H1 H2];
        [eapply notifications_pending, Ha | exact Hs |];
        destruct (create o en st) as [[e|r] s1]
    end; cbn [fst snd] in *; [discriminate|].
    injection H2 as ->. exact H1.
  - cbn [generateNotificationId].
    match goal with
    | |- context [create ?o ?en ?st] =>
        destruct (created_consistent o en st) as [H1 H2];
        [apply custom_pending | exact Hs |];
        destruct (create o en st) as [[e|r] s1]
    end; cbn [fst snd] in *; [discriminate|].
    injection H2 as ->. exact H1.
  - apply complete_consistent, Hs.
  - destruct Hs as [Hh _]. split; [exact Hh | constructor].
Qed.

Lemma moves_consistent l : forall s, consistent s -> consistent (moves l s).
Proof.
  unfold moves. induction l as [|[st env] l IH]; intros s Hs; [exact Hs|].
  cbn [fold_left fst snd]. apply IH, move_consistent, Hs.
Qed.

(** The queue counted by status. *)
Lemma statuses_add_up s :
  consistent s ->
  with_status "pending" s + with_status "sent" s + with_status "failed" s
  = Z.of_nat (List.length (notificationQueue s)).
Proof.
  intros [Hh Hq]. unfold with_status.
  induction (notificationQueue s) as [|ref q IH]; [reflexivity|].
  inversion Hq as [|? ? Hr Hq']; subst. specialize (IH Hq').
  cbn [filter List.length].
  assert (Hk : known_status (deref s ref)).
  { unfold deref. rewrite Forall_forall in Hh. apply Hh, nth_In, Hr. }
  unfold known_status in Hk. cbn zeta in Hk.
  destruct Hk as [-> | [-> | ->]]; cbn [is_string String.eqb Ascii.eqb Bool.eqb
                                         List.length]; lia.
Qed.

(** X20.  The numbers of the status route add up: whatever has happened
    in the service since it started (the broker connected, events that
    arrived, notifications requested, notifications completed in any
    order, the queue cleared in between), when the route answers, [pending], [sent] and [failed]
    count the notifications of the queue with that status and their sum
    is [totalNotifications]: every notification of the queue has one of
    the three statuses. *)
Theorem the_statuses_of_the_queue_add_up (l : list (Move * Env)) :
  let s := moves l new in
  forall body,
    queue_status s = inr body ->
    get body "totalNotifications"
    = VNum (Z.of_nat (List.length (notificationQueue s)))
    /\ get body "pending" = VNum (with_status "pending" s)
    /\ get body "sent" = VNum (with_status "sent" s)
    /\ get body "failed" = VNum (with_status "failed" s)
    /\ with_status "pending" s + with_status "sent" s + with_status "failed" s
       = Z.of_nat (List.length (notificationQueue s)).
Proof.
  intros s body Hb.
  assert (Hs : consistent s).
  { apply moves_consistent. split; constructor. }
  unfold queue_status in Hb.
  destruct (getNotificationsByChannel s) as [e|byChannel]; [discriminate|].
  injection Hb as <-.
  repeat split; try reflexivity. apply statuses_add_up, Hs.
Qed.


Lemma the_statuses_of_the_queue_add_up_witness :
  let env := mkEnv 1000 (fun n => string_of_nat n)
                   (MessageBroker.mkEnv 1000 (fun _ => "k3j9x0q1z")
                                        (fun _ => false)) in
  let user := VObj [("userId", VNum 1); ("firstName", VStr "Ada")] in
  let s := moves [ (Requested (VStr "custom") (VNum 1) (VStr "Hi")
                              (VStr "Hello") VUndefined VUndefined, env);
                   (Completes 0, env);
                   (Connects, env);
                   (Arrives "user.login" user, env);
                   (Completes 1, env);
                   (Arrives "payment.failed" user, env) ] new in
  exists body,
    queue_status s = inr body
    /\ get body "totalNotifications"
       = VNum (Z.of_nat (List.length (notificationQueue s)))
    /\ get body "pending" = VNum (with_status "pending" s)
    /\ get body "sent" = VNum (with_status "sent" s)
    /\ get body "failed" = VNum (with_status "failed" s)
    /\ with_status "pending" s + with_status "sent" s + with_status "failed" s
       = Z.of_nat (List.length (notificationQueue s)).
Proof.
  intros env user s. eexists. split.
  - vm_compute. reflexivity.
  - apply (the_statuses_of_the_queue_add_up
             [ (Requested (VStr "custom") (VNum 1) (VStr "Hi") (VStr "Hello")
                          VUndefined VUndefined, env);
               (Completes 0, env);
               (Connects, env);
               (Arrives "user.login" user, env);
               (Completes 1, env);
               (Arrives "payment.failed" user, env) ]).
    vm_compute. reflexivity.
Defined.

(** ** Counting by type *)

(** What a counter holds for a key counted [n] times. *)
Definition counted (n : nat) : value :=
  match n with
  | O => VUndefined
  | S _ => VNum (Z.of_nat n)
  end.

Lemma count_one_counts k props n k' :
  get (VObj props) k = counted n ->
  get (VObj (count_one k props)) k'
  = if k =? k' then counted (S n) else get (VObj props) k'.
Proof.
  intros Hn. unfold count_one. rewrite get_set_prop, Hn.
  destruct (k =? k'); [|reflexivity].
  destruct n as [|n]; [reflexivity|].
  unfold counted, or, truthy.
  destruct (Z.eqb_spec (Z.of_nat (S n)) 0) as [H0|_]; [lia|].
  cbn [negb add]. f_equal. lia.
Qed.

(** The notifications of the queue whose type makes the key [k]. *)
Definition typed (k : string) (s : t) (refs : list nat) : list nat :=
  filter (fun ref => to_string (get (deref s ref) "type") =? k) refs.

Lemma counts_by_type s refs :
  forall props (n : string -> nat),
    (forall k, get (VObj props) k = counted (n k)) ->
    forall k,
      get (VObj (fold_left
                   (fun types ref =>
                      count_one (to_string (get (deref s ref) "type")) types)
                   refs props)) k
      = counted (n k + List.length (typed k s refs)).
Proof.
  induction refs as [|ref refs IH]; intros props n Hn k.
  - cbn [fold_left typed filter List.length]. rewrite Nat.add_0_r. apply Hn.
  - cbn [fold_left].
    rewrite (IH _ (fun k' => if to_string (get (deref s ref) "type") =? k'
                             then S (n k') else n k')).
    + unfold typed. cbn [filter].
      destruct (to_string (get (deref s ref) "type") =? k);
        cbn [List.length]; f_equal; lia.
    + intros k'.
      rewrite (count_one_counts _ _ (n (to_string (get (deref s ref) "type"))))
        by apply Hn.
      destruct (String.eqb_spec (to_string (get (deref s ref) "type")) k')
        as [->|_]; [reflexivity | apply Hn].
Qed.

(** X21.  [byType] counts the queue by type: when no notification of
    the queue has a type that names an inherited member of objects, the
    object that [getNotificationsByType] gives holds, for every type,
    the number of notifications of the queue with that type (types are
    compared as the strings that name the properties), and no property
    for a type that no notification has. *)
Theorem the_types_of_the_queue_are_counted (s : t) (k : string) :
  (forall ref,
      In ref (notificationQueue s) ->
      ~ In (to_string (get (deref s ref) "type")) inherited) ->
  get (getNotificationsByType s) k
  = match List.length (typed k s (notificationQueue s)) with
    | O => VUndefined
    | S n => VNum (Z.of_nat (S n))
    end.
Proof.
  intros _. unfold getNotificationsByType.
  rewrite (counts_by_type s (notificationQueue s) [] (fun _ => O))
    by reflexivity.
  cbn [Nat.add]. unfold counted.
  destruct (List.length (typed k s (notificationQueue s))); reflexivity.
Qed.

Lemma the_types_of_the_queue_are_counted_witness :
  let env := mkEnv 1000 (fun n => string_of_nat n)
                   (MessageBroker.mkEnv 1000 (fun _ => "k3j9x0q1z")
                                        (fun _ => false)) in
  let user := VObj [("userId", VNum 1); ("firstName", VStr "Ada")] in
  let s := moves [ (Arrives "user.login" user, env);
                   (Arrives "user.created" user, env);
                   (Arrives "user.login" user, env) ] new in
  get (getNotificationsByType s) "security"
  = match List.length (typed "security" s (notificationQueue s)) with
    | O => VUndefined
    | S n => VNum (Z.of_nat (S n))
    end.
Proof.
  intros env user s.
  apply (the_types_of_the_queue_are_counted s "security").
  intros ref Hin.
  vm_compute in Hin.
  destruct Hin as [<-|[<-|[<-|[]]]]; vm_compute;
    intuition discriminate.
Defined.

(** ** The latest notifications *)

(** X22.  The route of the recent notifications reads the queue
    backwards: [total] is the length of the queue; for a limit above 0
    (10 when it is absent, 0 or not a number) the notifications are the
    last [limit] of the queue, the latest first, and all of them when
    the queue is shorter; for a limit below 0 they are, the latest
    first, all notifications but the first [-limit] of the queue. *)
Theorem the_latest_notifications_come_first (limit : option Z) (s : t) :
  let queue := notificationQueue s in
  let n := match limit with
           | Some n => if (n =? 0)%Z then 10 else n
           | None => 10
           end in
  snd (recent limit s) = Z.of_nat (List.length queue)
  /\ (0 < n ->
      fst (recent limit s)
      = map (deref s) (firstn (Z.to_nat n) (rev queue)))
  /\ (n < 0 ->
      fst (recent limit s)
      = map (deref s) (rev (skipn (Z.to_nat (- n)) queue))).
Proof.
  intros queue n. unfold recent. fold n. fold queue. cbn [fst snd].
  split; [reflexivity|]. split.
  - intros Hn. unfold slice.
    destruct (Z.ltb_spec (- n) 0); [|lia].
    replace (Z.to_nat (Z.max (Z.of_nat (List.length queue) + - n) 0))
      with (List.length queue - Z.to_nat n)%nat by lia.
    rewrite firstn_rev. reflexivity.
  - intros Hn. unfold slice.
    destruct (Z.ltb_spec (- n) 0); [lia|].
    f_equal. f_equal.
    destruct (Z.le_ge_cases (- n) (Z.of_nat (List.length queue))).
    + rewrite Z.min_l by assumption. reflexivity.
    + rewrite Z.min_r by assumption. rewrite Nat2Z.id.
      rewrite !skipn_all2; [reflexivity | lia | lia].
Qed.


Lemma the_latest_notifications_come_first_witness :
  let s := mk MessageBroker.new
              [ VObj [("id", VStr "notif_a")]; VObj [("id", VStr "notif_b")];
                VObj [("id", VStr "notif_c")] ]
              [0; 1; 2]%nat 3 in
  snd (recent (Some 2) s) = Z.of_nat (List.length (notificationQueue s))
  /\ fst (recent (Some 2) s)
     = map (deref s) (firstn (Z.to_nat 2) (rev (notificationQueue s)))
  /\ fst (recent (Some (-1)) s)
     = map (deref s) (rev (skipn (Z.to_nat (- -1)) (notificationQueue s))).
Proof.
  intros s.
  destruct (the_latest_notifications_come_first (Some 2) s) as (H1 & H2 & _).
  destruct (the_latest_notifications_come_first (Some (-1)) s)
    as (_ & _ & H3).
  split; [exact H1 | split; [apply H2 | apply H3]]; reflexivity.
Defined.

(** ** How a notification ends *)

(** The deliveries of a notification end: its channels, when they can
    be iterated, are strings ([deliverNotification] calls [toUpperCase]
    on each from a timer, where nothing catches). *)
Definition strings_only (channels : value) : Prop :=
  forall items,
    iterate channels = inr items ->
    Forall (fun channel => exists name, channel = VStr name) items.

Definition deliverable (notification : value) : Prop :=
  strings_only (get notification "channels").

Lemma nth_assign_at ref k v objects props :
  nth ref objects VUndefined = VObj props ->
  nth ref (assign_at ref k v objects) VUndefined = VObj (set_prop k v props).
Proof.
  revert ref. induction objects as [|x rest IH]; intros ref.
  - destruct ref; discriminate.
  - destruct ref as [|ref]; cbn [nth assign_at].
    + intros ->. reflexivity.
    + apply IH.
Qed.

(** What the broker of the service was asked between two states. *)
Definition asked_since (s s' : t) : list MessageBroker.Command :=
  skipn (List.length (MessageBroker.carried_out (messageBroker s)))
        (MessageBroker.carried_out (messageBroker s')).

Lemma publish_cases channel data env s :
  let r := broker_publish channel data env s in
  heap (snd r) = heap s
  /\ notificationQueue (snd r) = notificationQueue s
  /\ ((fst r = inr tt
       /\ exists m,
            MessageBroker.carried_out (messageBroker (snd r))
            = (MessageBroker.carried_out (messageBroker s)
               ++ [MessageBroker.Publish channel m])%list)
      \/ ((exists e, fst r = inl e)
          /\ MessageBroker.carried_out (messageBroker (snd r))
             = MessageBroker.carried_out (messageBroker s))).
Proof.
  unfold broker_publish, MessageBroker.publish.
  destruct (MessageBroker.isConnected (messageBroker s)); cbn [negb].
  - cbn [MessageBroker.generateId].
    destruct (MessageBroker.refuses _ _); cbn; eauto 8.
  - cbn. eauto 8.
Qed.

(** How [processNotification] ends, once its deliveries have ended. *)
Lemma processNotification_ends ref env s props :
  deref s ref = VObj props ->
  let r := processNotification ref env s in
  let status := get (deref (snd r) ref) "status" in
  notificationQueue (snd r) = (notificationQueue s ++ [ref])%list
  /\ ((status = VStr "sent"
       /\ fst r = inr tt
       /\ exists m,
            asked_since s (snd r)
            = [MessageBroker.Publish "notification.sent" m])
      \/ (status = VStr "failed"
          /\ fst r = inr tt
          /\ exists m,
               asked_since s (snd r)
               = [MessageBroker.Publish "notification.failed" m])
      \/ (status = VStr "failed"
          /\ (exists e, fst r = inl e)
          /\ asked_since s (snd r) = [])).
Proof.
  intros Hobj r status. subst status r.
  unfold processNotification, asked_since.
  set (s0 := enqueue ref s).
  assert (Hobj0 : deref s0 ref = VObj props) by exact Hobj.
  assert (Hq0 : notificationQueue s0 = (notificationQueue s ++ [ref])%list)
    by reflexivity.
  change (MessageBroker.carried_out (messageBroker s))
    with (MessageBroker.carried_out (messageBroker s0)).
  clearbody s0. clear Hobj.
  assert (Hfailed :
    forall e s1,
      deref s1 ref = VObj (set_prop "status" (VStr "sent") props)
      \/ deref s1 ref = VObj props ->
      notificationQueue s1 = notificationQueue s0 ->
      MessageBroker.carried_out (messageBroker s1)
      = MessageBroker.carried_out (messageBroker s0) ->
      let s2 := assign ref "error" (VStr (message_of e))
                       (assign ref "status" (VStr "failed") s1) in
      let r := broker_publish "notification.failed"
                 (object [ Key "notificationId" (get (deref s2 ref) "id");
                           Key "type" (get (deref s2 ref) "type");
                           Key "error" (VStr (message_of e));
                           Key "timestamp" (VStr (toISOString (now env))) ])
                 env s2 in
      notificationQueue (snd r) = notificationQueue s0
      /\ get (deref (snd r) ref) "status" = VStr "failed"
      /\ ((fst r = inr tt
           /\ exists m,
                skipn (List.length (MessageBroker.carried_out (messageBroker s0)))
                      (MessageBroker.carried_out (messageBroker (snd r)))
                = [MessageBroker.Publish "notification.failed" m])
          \/ ((exists e, fst r = inl e)
              /\ skipn (List.length
                          (MessageBroker.carried_out (messageBroker s0)))
                       (MessageBroker.carried_out (messageBroker (snd r)))
                 = []))).
  { intros e s1 Hs1 Hq1 Hc1 s2 r.
    destruct (publish_cases "notification.failed"
                (object [ Key "notificationId" (get (deref s2 ref) "id");
                          Key "type" (get (deref s2 ref) "type");
                          Key "error" (VStr (message_of e));
                          Key "timestamp" (VStr (toISOString (now env))) ])
                env s2) as (Hh & Hq & Hp).
    fold r in Hh, Hq, Hp.
    split; [rewrite Hq; exact Hq1|]. split.
    - unfold deref. rewrite Hh. subst s2. cbn [assign heap].
      destruct Hs1 as [Hs1|Hs1]; unfold deref in Hs1;
        rewrite (nth_assign_at _ _ _ _ _
                   (nth_assign_at _ _ _ _ _ Hs1));
        rewrite !get_set_prop; reflexivity.
    - destruct Hp as [[Hr [m Hm]]|[Hr Hm]]; [left | right];
        (split; [exact Hr|]); rewrite Hm; subst s2; cbn [assign messageBroker];
        rewrite Hc1.
      + exists m. rewrite skipn_app, skipn_all, Nat.sub_diag. reflexivity.
      + apply skipn_all. }
  unfold complete.
  destruct (iterate (get (deref s0 ref) "channels")) as [e|items].
  - destruct (Hfailed e s0 (or_intror Hobj0) eq_refl eq_refl)
      as (H1 & H2 & H3).
    rewrite H1, H2. split; [exact Hq0|]. right.
    destruct H3 as [[Hr Hm]|[Hr Hm]]; [left | right]; auto.
  - set (s1 := assign ref "status" (VStr "sent") s0).
    assert (Hobj1 : deref s1 ref
                    = VObj (set_prop "status" (VStr "sent") props)).
    { unfold deref, s1. cbn [assign heap]. apply nth_assign_at, Hobj0. }
    destruct (publish_cases "notification.sent"
                (object [ Key "notificationId" (get (deref s1 ref) "id");
                          Key "type" (get (deref s1 ref) "type");
                          Key "channels" (get (deref s1 ref) "channels");
                          Key "userId" (get (deref s1 ref) "userId");
                          Key "timestamp" (VStr (toISOString (now env))) ])
                env s1) as (Hh & Hq & Hp).
    destruct (broker_publish "notification.sent" _ env s1) as [[e|[]] s2] eqn:Hpub;
      cbn [fst snd] in *.
    + destruct Hp as [[Hr _]|[_ Hm]]; [discriminate|].
      destruct (Hfailed e s2) as (H1 & H2 & H3).
      * left. unfold deref. rewrite Hh. exact Hobj1.
      * rewrite Hq. reflexivity.
      * rewrite Hm. reflexivity.
      * rewrite H1, H2. split; [exact Hq0|]. right.
        destruct H3 as [[Hr Hm']|[Hr Hm']]; [left | right]; auto.
    + destruct Hp as [[_ [m Hm]]|[[e He] _]]; [|discriminate].
      split; [rewrite Hq; exact Hq0|]. left.
      split; [|split; [reflexivity|]].
      * unfold deref. rewrite Hh. fold (deref s1 ref). rewrite Hobj1.
        rewrite get_set_prop. reflexivity.
      * exists m. rewrite Hm. cbn [s1 assign messageBroker].
        rewrite skipn_app, skipn_all, Nat.sub_diag. reflexivity.
Qed.

(** X23.  A notification that is processed joins the queue and ends
    "sent" or "failed", never "pending", and the service publishes at
    most one event about it: it is "sent" when [notification.sent] was
    published and the call returned; otherwise it is "failed", and
    either [notification.failed] was published and the call returned, or
    the broker refused that too, nothing was published and the call
    throws. *)
Theorem a_notification_ends_sent_or_failed ref env s props :
  deref s ref = VObj props ->
  deliverable (VObj props) ->
  let r := processNotification ref env s in
  let status := get (deref (snd r) ref) "status" in
  notificationQueue (snd r) = (notificationQueue s ++ [ref])%list
  /\ ((status = VStr "sent"
       /\ fst r = inr tt
       /\ exists m,
            asked_since s (snd r)
            = [MessageBroker.Publish "notification.sent" m])
      \/ (status = VStr "failed"
          /\ fst r = inr tt
          /\ exists m,
               asked_since s (snd r)
               = [MessageBroker.Publish "notification.failed" m])
      \/ (status = VStr "failed"
          /\ (exists e, fst r = inl e)
          /\ asked_since s (snd r) = [])).
Proof.
  intros Hobj _. exact (processNotification_ends ref env s props Hobj).
Qed.

Lemma a_notification_ends_sent_or_failed_witness :
  let env := mkEnv 1000 (fun n => string_of_nat n)
                   (MessageBroker.mkEnv 1000 (fun _ => "k3j9x0q1z")
                                        (fun _ => false)) in
  let props := [ ("id", VStr "notif_a"); ("type", VStr "custom");
                 ("channels", VArr [VStr "email"]);
                 ("status", VStr "pending") ] in
  let s := mk (MessageBroker.mk true true [] true [] 0 []) [VObj props] [] 1 in
  let ref := 0%nat in
  let r := processNotification ref env s in
  let status := get (deref (snd r) ref) "status" in
  notificationQueue (snd r) = (notificationQueue s ++ [ref])%list
  /\ ((status = VStr "sent"
       /\ fst r = inr tt
       /\ exists m,
            asked_since s (snd r)
            = [MessageBroker.Publish "notification.sent" m])
      \/ (status = VStr "failed"
          /\ fst r = inr tt
          /\ exists m,
               asked_since s (snd r)
               = [MessageBroker.Publish "notification.failed" m])
      \/ (status = VStr "failed"
          /\ (exists e, fst r = inl e)
          /\ asked_since s (snd r) = [])).
Proof.
  intros env props s ref.
  apply (a_notification_ends_sent_or_failed ref env s props).
  - reflexivity.
  - intros items [= <-]. repeat constructor. exists "email". reflexivity.
Defined.

(** ** Sending a notification on request *)

Lemma broker_publish_disconnected channel data env s :
  MessageBroker.isConnected (messageBroker s) = false ->
  broker_publish channel data env s
  = (inl (Error "MessageBroker not connected"), s).
Proof.
  intros Hc. unfold broker_publish, MessageBroker.publish. rewrite Hc.
  destruct s. reflexivity.
Qed.

Lemma complete_disconnected ref env s :
  MessageBroker.isConnected (messageBroker s) = false ->
  exists e, fst (complete ref env s) = inl e.
Proof.
  intros Hc. unfold complete.
  destruct (iterate (get (deref s ref) "channels")) as [e|items].
  - rewrite broker_publish_disconnected by exact Hc. cbn [fst]. eauto.
  - rewrite (broker_publish_disconnected "notification.sent") by exact Hc.
    rewrite broker_publish_disconnected by exact Hc. cbn [fst]. eauto.
Qed.

(** X24.  The route that sends a notification answers by what could be
    published, not by how the notification ended: the notification
    joins the queue and the route answers 201 with its identifier when
    an event about it was published, be it [notification.sent] (the
    notification is "sent") or [notification.failed] (it is "failed");
    it answers 500 "Failed to send notification" when nothing could be
    published, and the notification is "failed" then.  While the broker
    is not connected the answer is 500. *)
Theorem the_send_route_answers_by_what_was_published
        type userId subject message channels priority env s :
  strings_only (or channels (strings ["email"])) ->
  let r := send type userId subject message channels priority env s in
  let ref := List.length (heap s) in
  let status := get (deref (snd r) ref) "status" in
  let id := "notif_" ++ random env (drawn s) in
  let created := (201, object [ Key "message"
                                    (VStr "Notification sent successfully");
                                Key "notificationId" (VStr id) ]) in
  let failed := (500, object [ Key "error"
                                   (VStr "Failed to send notification") ]) in
  notificationQueue (snd r) = (notificationQueue s ++ [ref])%list
  /\ ((fst r = inr created
       /\ ((status = VStr "sent"
            /\ exists m,
                 asked_since s (snd r)
                 = [MessageBroker.Publish "notification.sent" m])
           \/ (status = VStr "failed"
               /\ exists m,
                    asked_since s (snd r)
                    = [MessageBroker.Publish "notification.failed" m])))
      \/ (fst r = inr failed
          /\ status = VStr "failed"
          /\ asked_since s (snd r) = []))
  /\ (MessageBroker.isConnected (messageBroker s) = false ->
      fst r = inr failed).
Proof.
  intros _ r ref status id created failed. subst status r created failed.
  unfold send. cbn [generateNotificationId create]. fold id. fold ref.
  cbn [heap messageBroker notificationQueue drawn].
  set (s2 := mk (messageBroker s) (heap s ++ _)%list (notificationQueue s)
                (S (drawn s))).
  assert (Hobj : exists props, deref s2 ref = VObj props).
  { unfold deref, s2, ref. cbn [heap]. rewrite nth_middle.
    unfold object. eauto. }
  destruct Hobj as [props Hobj].
  pose proof (processNotification_ends ref env s2 props Hobj) as Hp.
  pose proof (complete_disconnected ref env (enqueue ref s2)) as Hd.
  change (complete ref env (enqueue ref s2))
    with (processNotification ref env s2) in Hd.
  change (MessageBroker.isConnected (messageBroker (enqueue ref s2)))
    with (MessageBroker.isConnected (messageBroker s)) in Hd.
  cbn zeta in Hp.
  change (asked_since s2) with (asked_since s) in Hp.
  replace (notificationQueue s2) with (notificationQueue s) in Hp
    by reflexivity.
  subst ref.
  destruct (processNotification _ env s2) as [[e|[]] s3];
    cbn [fst snd] in *; destruct Hp as [Hq Hp]; (split; [exact Hq|]).
  - split; [|reflexivity].
    right. split; [reflexivity|].
    destruct Hp as [(_ & [=] & _)|[(_ & [=] & _)|(Hs & _ & Ha)]]. auto.
  - split.
    + left. split; [reflexivity|].
      destruct Hp as [(Hs & _ & Ha)|[(Hs & _ & Ha)|(_ & [e [=]] & _)]]; auto.
    + intros Hc. destruct (Hd Hc) as [e [=]].
Qed.

Lemma the_send_route_answers_by_what_was_published_witness :
  let env := mkEnv 1000 (fun n => string_of_nat n)
                   (MessageBroker.mkEnv 1000 (fun _ => "k3j9x0q1z")
                                        (fun _ => false)) in
  let s := new in
  let r := send (VStr "custom") (VNum 1) (VStr "Hi") (VStr "Hello")
                (VNum 5) VUndefined env s in
  let ref := List.length (heap s) in
  let status := get (deref (snd r) ref) "status" in
  let id := "notif_" ++ random env (drawn s) in
  let created := (201, object [ Key "message"
                                    (VStr "Notification sent successfully");
                                Key "notificationId" (VStr id) ]) in
  let failed := (500, object [ Key "error"
                                   (VStr "Failed to send notification") ]) in
  (notificationQueue (snd r) = (notificationQueue s ++ [ref])%list
   /\ ((fst r = inr created
        /\ ((status = VStr "sent"
             /\ exists m,
                  asked_since s (snd r)
                  = [MessageBroker.Publish "notification.sent" m])
            \/ (status = VStr "failed"
                /\ exists m,
                     asked_since s (snd r)
                     = [MessageBroker.Publish "notification.failed" m])))
       \/ (fst r = inr failed
           /\ status = VStr "failed"
           /\ asked_since s (snd r) = [])))
  /\ fst r = inr failed.
Proof.
  intros env s.
  destruct (the_send_route_answers_by_what_was_published
              (VStr "custom") (VNum 1) (VStr "Hi") (VStr "Hello") (VNum 5)
              VUndefined env s) as (H1 & H2 & H3).
  - intros items [=].
  - cbn zeta. split; [split; [exact H1 | exact H2] | apply H3; reflexivity].
Defined.

(** ** From a notification to the log *)

Lemma literal_fields channel first literal data id now :
  assoc channel notifications = Some (first, literal) ->
  let notification := object (literal data id now) in
  get notification "id" = VStr id
  /\ exists items, get notification "channels" = VArr items.
Proof.
  unfold notifications. cbn [assoc].
  repeat match goal with
         | |- context [if ?b then _ else _] => destruct b
         end;
    try discriminate; intros [= <- <-]; cbn zeta;
    [ unfold welcome
    | unfold login
    | unfold order_confirmation
    | unfold order_status
    | unfold order_cancellation
    | unfold payment_confirmation
    | unfold payment_failure
    | unfold low_stock ];
    cbn [object fold_left set_prop String.eqb Ascii.eqb Bool.eqb get assoc
         fst snd own_props strings];
    (split; [reflexivity | eexists; reflexivity]).
Qed.

Lemma handled_notification channel first literal data env s :
  assoc channel notifications = Some (first, literal) ->
  nullish data = false ->
  MessageBroker.isConnected (messageBroker s) = true ->
  (forall c, MessageBroker.refuses (broker env) c = false) ->
  let id := "notif_" ++ random env
                          (drawn s) in
  exists payload,
    EventStore.extractAggregateId "notification.sent" (jsonify payload)
    = inr ("notification-" ++ id)
    /\ asked_since s (snd (handler channel data env s))
       = [MessageBroker.Publish "notification.sent"
            (MessageBroker.JSON_stringify
               (MessageBroker.envelope
                  (MessageBroker.random
                     (broker env)
                     (MessageBroker.draws (messageBroker s)))
                  (MessageBroker.now (broker env))
                  payload))].
Proof.
  intros Ha Hd Hc Hr id.
  destruct (literal_fields channel first literal data id
                           (now env) Ha)
    as (Hid & items & Hch).
  unfold handler. rewrite Ha.
  unfold notify, build.
  cbn [generateNotificationId].
  unfold member. rewrite Hd. fold id.
  cbn [create].
  set (notification := object (literal data id (now env)))
    in *.
  unfold processNotification, complete.
  unfold deref at 1.
  cbn [enqueue heap].
  rewrite nth_middle. rewrite Hch. cbn [iterate].
  set (s1 := assign _ _ _ _).
  assert (Hn1 : deref s1 (List.length (heap s))
                = match notification with
                  | VObj props => VObj (set_prop "status" (VStr "sent") props)
                  | _ => notification
                  end).
  { unfold deref, s1.
    cbn [assign heap
         enqueue].
    clear. induction (heap s) as [|x rest IH];
      [reflexivity | exact IH]. }
  assert (Hobj : exists props, notification = VObj props)
    by (unfold notification, object; eauto).
  destruct Hobj as [props Hprops]. rewrite Hprops in Hn1, Hid.
  rewrite Hn1.
  exists (object
            [ Key "notificationId"
                  (get (VObj (set_prop "status" (VStr "sent") props)) "id");
              Key "type"
                  (get (VObj (set_prop "status" (VStr "sent") props)) "type");
              Key "channels"
                  (get (VObj (set_prop "status" (VStr "sent") props))
                       "channels");
              Key "userId"
                  (get (VObj (set_prop "status" (VStr "sent") props))
                       "userId");
              Key "timestamp"
                  (VStr (toISOString (now env))) ]).
  split.
  - rewrite !get_set_prop. cbn [String.eqb Ascii.eqb Bool.eqb].
    rewrite Hid.
    cbn [object fold_left set_prop String.eqb Ascii.eqb Bool.eqb fst snd].
    reflexivity.
  - unfold broker_publish, MessageBroker.publish.
    cbn [s1 assign messageBroker
         enqueue].
    rewrite Hc. cbn [negb MessageBroker.generateId]. rewrite Hr.
    cbn [fst snd].
    unfold asked_since.
    cbn [messageBroker MessageBroker.log MessageBroker.did
         MessageBroker.carried_out].
    rewrite skipn_app, skipn_all, Nat.sub_diag. reflexivity.
Qed.

(** X25.  A notification that is sent reaches the log of the event
    store: when the handler of one of the channels of the notification
    service is called with data, the broker of the service is connected
    and Redis accepts, the service publishes exactly one message, on
    [notification.sent]; and
    when that message arrives at an event store whose listeners were set
    up on a connected broker and whose database executes the version
    query and the insert (whatever it does with the other statements),
    the store appends exactly one row, of type "notification.sent", for the
    aggregate "notification-" followed by the identifier drawn for the
    notification, of type "Notification", with the next version of that
    aggregate. *)
Theorem a_notification_that_is_sent_reaches_the_log
        channel first literal data env s env' b0 h store :
  assoc channel notifications = Some (first, literal) ->
  nullish data = false ->
  MessageBroker.isConnected (messageBroker s) = true ->
  (forall c, MessageBroker.refuses (broker env) c = false) ->
  MessageBroker.isConnected b0 = true ->
  MessageBroker.eventHandlers b0 = [] ->
  (forall c, MessageBroker.refuses env' (MessageBroker.Subscribe c) = false) ->
  EventStoreFacts.logging h ->
  exists message row,
    asked_since s (snd (handler channel data env s))
    = [MessageBroker.Publish "notification.sent" message]
    /\ EventStore.events
         (snd (MessageBroker.handleMessage
                 (EventStore.listener EventStore.setupProjections h)
                 "notification.sent" message
                 (EventStore.setupEventListeners env' b0) store))
       = (EventStore.events store ++ [row])%list
    /\ EventStore.e_event_type row = "notification.sent"
    /\ EventStore.e_aggregate_type row = "Notification"
    /\ EventStore.e_aggregate_id row
       = "notification-notif_"
         ++ random env (drawn s)
    /\ EventStore.e_event_version row
       = EventStoreFacts.next_version (EventStore.e_aggregate_id row)
           "Notification" (EventStore.events store).
Proof.
  intros Ha Hd Hc Hr Hc0 He0 Hs Hq.
  destruct (handled_notification channel first literal data env s Ha Hd Hc Hr)
    as (payload & Hagg & Hasked).
  eexists. eexists. split; [exact Hasked|]. split.
  - apply (EventStoreFacts.delivered_event_is_stored env' b0 "notification.sent");
      try assumption.
    + cbn. tauto.
    + exact Hagg.
  - cbn. auto.
Qed.

Lemma a_notification_that_is_sent_reaches_the_log_witness :
  let env := mkEnv 1000 (fun n => string_of_nat n)
                   (MessageBroker.mkEnv 1000 (fun _ => "k3j9x0q1z")
                                        (fun _ => false)) in
  let env' := MessageBroker.mkEnv 500 (fun _ => "a1b2c3d4e") (fun _ => false) in
  let data := VObj [("userId", VNum 1); ("firstName", VStr "Ada")] in
  let s := mk (MessageBroker.mk true true [] true [] 0 []) [] [] 0 in
  let b0 := MessageBroker.mk (H:=string) true true [] true [] 0 [] in
  let h := EventStoreFacts.service_at 2000 in
  let store := EventStoreFacts.fresh in
  exists message row,
    asked_since s (snd (handler "user.created" data env s))
    = [MessageBroker.Publish "notification.sent" message]
    /\ EventStore.events
         (snd (MessageBroker.handleMessage
                 (EventStore.listener EventStore.setupProjections h)
                 "notification.sent" message
                 (EventStore.setupEventListeners env' b0) store))
       = (EventStore.events store ++ [row])%list
    /\ EventStore.e_event_type row = "notification.sent"
    /\ EventStore.e_aggregate_type row = "Notification"
    /\ EventStore.e_aggregate_id row
       = "notification-notif_" ++ random env (drawn s)
    /\ EventStore.e_event_version row
       = EventStoreFacts.next_version (EventStore.e_aggregate_id row)
           "Notification" (EventStore.events store).
Proof.
  intros env env' data s b0 h store.
  apply (a_notification_that_is_sent_reaches_the_log
           "user.created" "userId" welcome data env s env' b0 h store).
  - reflexivity.
  - reflexivity.
  - reflexivity.
  - intros c. reflexivity.
  - reflexivity.
  - reflexivity.
  - intros c. reflexivity.
  - apply EventStoreFacts.service_at_logging.
Defined.

End NotificationServiceFacts.
